(** * DeerLab [fitmultimodel]: multi-component SNLLS fit with model selection

    A shallow embedding of [deerlab/fitmultimodel.py] and the properties of
    its model-selection engine.

    Conventions of the embedding.
    - Python [int]s are [Z]; [len] of a sequence is [Z.of_nat (length _)].
    - NumPy [float64] values are idealised as real numbers [R]: rounding,
      NaN and signed zeros are not modelled.  Bounds may be infinite and
      are kept in [xreal]; the bound arrays of the shape parameters, which
      the function assigns to, carry their dtype ([bound_array]).
    - One-dimensional arrays are lists; two-dimensional arrays carry their
      shape next to their rows.
    - Every statement that can raise returns a [pyresult]; the global
      NumPy random generator is an explicit state that is passed along.
    - The libraries the function drives ([snlls], the basis model, the
      Jacobian and covariance estimators, the uncertainty container, the
      goodness-of-fit function, the NumPy generator) are the fields of the
      class [Libraries]; [Toy] is one instance that can be run. *)

From Stdlib Require Import Reals Lra Lia ZArith.
From stdpp Require Import base option list strings gmap.

(** ** Python run-time model *)

Inductive exn :=
| ValueError
| IndexError
| KeyError
| TypeError
| ZeroDivisionError
| OverflowError
| LibraryError (tag : nat).

Inductive pyresult (A : Type) :=
| Ok (a : A)
| Raise (e : exn).
Arguments Ok {A} a.
Arguments Raise {A} e.

#[global] Instance pyresult_ret : MRet pyresult := fun A a => Ok a.
#[global] Instance pyresult_bind : MBind pyresult :=
  fun A B f m => match m with Ok a => f a | Raise e => Raise e end.
#[global] Instance pyresult_fmap : FMap pyresult :=
  fun A B f m => match m with Ok a => Ok (f a) | Raise e => Raise e end.

Definition is_ok {A} (m : pyresult A) : bool :=
  match m with Ok _ => true | Raise _ => false end.

(** [for x in xs: acc = body(acc, x)] where the body may raise. *)
Fixpoint for_each {A S} (body : S -> A -> pyresult S) (xs : list A) (s : S)
  : pyresult S :=
  match xs with
  | [] => Ok s
  | x :: xs' => s' ← body s x; for_each body xs' s'
  end.

(** [[f(x) for x in xs]] where [f] may raise. *)
Fixpoint traverse {A B} (f : A -> pyresult B) (xs : list A) : pyresult (list B) :=
  match xs with
  | [] => Ok []
  | x :: xs' => y ← f x; ys ← traverse f xs'; Ok (y :: ys)
  end.

(** [len(x)] as a Python int. *)
Definition len {A} (l : list A) : Z := Z.of_nat (length l).

(** True division [a / b] of two Python ints. *)
Definition py_int_truediv (a b : Z) : pyresult R :=
  if (b =? 0)%Z then Raise ZeroDivisionError else Ok (IZR a / IZR b)%R.

(** Object identity of two ints computed at run time.  CPython shares one
    object per value only for the small ints -5..256; an int outside that
    range coming out of [+] or [len] is a new object each time. *)
Definition small_int (a : Z) : bool := ((-5 <=? a) && (a <=? 256))%Z.
Definition py_int_is (a b : Z) : bool := (a =? b)%Z && small_int a.
Definition py_int_is_not (a b : Z) : bool := negb (py_int_is a b).

(** [xs[i]] on a Python list, [i >= 0]. *)
Definition list_index {A} (xs : list A) (i : nat) : pyresult A :=
  match xs !! i with
  | Some x => Ok x
  | None => Raise IndexError
  end.

(** ** NumPy arrays *)

(** [np.arange(start, start + n)]. *)
Definition np_arange (start n : nat) : list nat := seq start n.

(** Integer-array indexing [a[idx]]: an index out of range raises. *)
Definition take_idx {A} (a : list A) (idx : list nat) : pyresult (list A) :=
  traverse (list_index a) idx.

(** Element-wise binary operation with NumPy broadcasting of one-dimensional
    operands: equal lengths, or one operand of length one. *)
Definition broadcast2 {A B C} (f : A -> B -> C) (a : list A) (b : list B)
  : pyresult (list C) :=
  if (length a =? length b)%nat then Ok (zip_with f a b)
  else match a, b with
       | [x], _ => Ok (map (f x) b)
       | _, [y] => Ok (map (fun x => f x y) a)
       | _, _ => Raise ValueError
       end.

Definition np_sum (a : list R) : R := fold_right Rplus 0%R a.

Definition np_scale (c : R) (a : list R) : list R := map (fun x => (c * x)%R) a.
Definition np_div_scalar (a : list R) (c : R) : list R := map (fun x => (x / c)%R) a.

(** A value that is either a NumPy scalar or a one-dimensional array: the
    accumulator of [Pmodel] starts as the scalar [0]. *)
Inductive ndarray :=
| Scalar (x : R)
| Array (a : list R).

Definition nd_add (p q : ndarray) : pyresult ndarray :=
  match p, q with
  | Scalar x, Scalar y => Ok (Scalar (x + y)%R)
  | Scalar x, Array b => Ok (Array (map (fun y => (x + y)%R) b))
  | Array a, Scalar y => Ok (Array (map (fun x => (x + y)%R) a))
  | Array a, Array b => Array <$> broadcast2 Rplus a b
  end.

Definition nd_div_scalar (p : ndarray) (c : R) : ndarray :=
  match p with
  | Scalar x => Scalar (x / c)%R
  | Array a => Array (np_div_scalar a c)
  end.

Definition nd_mul_scalar (p : ndarray) (c : R) : ndarray :=
  match p with
  | Scalar x => Scalar (x * c)%R
  | Array a => Array (map (fun x => (x * c)%R) a)
  end.

(** [np.diff(x)]. *)
Fixpoint np_diff (x : list R) : list R :=
  match x with
  | a :: (b :: _) as x' => (b - a)%R :: np_diff x'
  | _ => []
  end.

(** [np.trapz(y, x)] = [sum(diff(x) * (y[1:] + y[:-1]) / 2)]. *)
Definition np_trapz (y : ndarray) (x : list R) : pyresult R :=
  match y with
  | Scalar _ => Raise IndexError
  | Array ys =>
      let d := np_diff x in
      let s := zip_with Rplus (drop 1 ys) (take (length ys - 1) ys) in
      t ← broadcast2 Rmult d s;
      Ok (np_sum (np_div_scalar t 2))
  end.

(** Extended reals for box constraints ([np.inf], [-np.inf]). *)
Inductive xreal :=
| Finite (x : R)
| PosInf
| NegInf.

Definition xle (a b : xreal) : Prop :=
  match a, b with
  | NegInf, _ => True
  | _, PosInf => True
  | Finite x, Finite y => (x <= y)%R
  | _, _ => False
  end.

(** Two-dimensional arrays: shape and rows. *)
Record matrix := mk_matrix {
  shape0 : nat;
  shape1 : nat;
  rows_of : list (list R)
}.

Definition dot (u v : list R) : R := np_sum (zip_with Rmult u v).

(** [M @ v]: the inner dimensions must agree. *)
Definition matvec (M : matrix) (v : list R) : pyresult (list R) :=
  if (shape1 M =? length v)%nat
  then Ok (map (fun row => dot row v) (rows_of M))
  else Raise ValueError.

(** [c * M]. *)
Definition mat_scale (c : R) (M : matrix) : matrix :=
  mk_matrix (shape0 M) (shape1 M) (map (np_scale c) (rows_of M)).

(** The array whose columns are [cols], with [n] rows. *)
Definition from_columns (n : nat) (cols : list (list R)) : matrix :=
  mk_matrix n (length cols)
    (map (fun i => map (fun c => nth i c 0%R) cols) (seq 0 n)).

(** [np.concatenate((A, B), 1)]: the row counts must agree. *)
Definition hconcat (A B : matrix) : pyresult matrix :=
  if (shape0 A =? shape0 B)%nat
  then Ok (mk_matrix (shape0 A) (shape1 A + shape1 B)
             (zip_with app (rows_of A) (rows_of B)))
  else Raise ValueError.

(** Decidable order on the idealised floats, for [argmin], [min], [max]. *)
#[global] Instance Rlt_decision : RelDecision Rlt := Rlt_dec.
Definition Rltb (x y : R) : bool := bool_decide (x < y)%R.

(** [np.argmin]: index of the first entry that no other entry is below.
    The scan keeps the running minimum [best] found at [best_i] and only
    moves on a strictly smaller entry. *)
Fixpoint argmin_scan {A} (ltb : A -> A -> bool) (best : A) (best_i i : nat)
    (l : list A) : nat :=
  match l with
  | [] => best_i
  | x :: l' =>
      if ltb x best then argmin_scan ltb x i (S i) l'
      else argmin_scan ltb best best_i (S i) l'
  end.

Definition argmin_by {A} (ltb : A -> A -> bool) (l : list A) : pyresult nat :=
  match l with
  | [] => Raise ValueError
  | x :: l' => Ok (argmin_scan ltb x 0 1 l')
  end.

Definition np_argmin (l : list R) : pyresult nat := argmin_by Rltb l.

(** Python's built-in [min] and [max] over a sequence. *)
Definition py_min (l : list R) : pyresult R :=
  match l with
  | [] => Raise ValueError
  | x :: l' => Ok (fold_left (fun m y => if Rltb y m then y else m) l' x)
  end.

Definition py_max (l : list R) : pyresult R :=
  match l with
  | [] => Raise ValueError
  | x :: l' => Ok (fold_left (fun m y => if Rltb m y then y else m) l' x)
  end.

(** Boolean-mask assignment [a[mask] = v]. *)
Definition mask_assign {A} (a : list A) (mask : list bool) (v : A)
  : pyresult (list A) :=
  if (length a =? length mask)%nat
  then Ok (zip_with (fun x (m : bool) => if m then v else x) a mask)
  else Raise IndexError.

(** Modelled from the spec: [deerlab.utils.isempty] is not among the sources;
    a bound vector counts as not specified when it has no entries. *)
Definition isempty {A} (a : list A) : bool :=
  match a with [] => true | _ => false end.

(** ** The likelihood estimators *)

(** The value held by the variable [logest]: the empty list it is
    initialised with, or the dictionary of the four criterion sequences. *)
Inductive functionals_obj :=
| NotADict
| Dict (d : gmap string (list R)).

Definition new_functionals : gmap string (list R) :=
  <["rmsd" := []]> (<["aic" := []]> (<["aicc" := []]> (<["bic" := []]> ∅))).

(** [d[key].append(x)]. *)
Definition dict_append (key : string) (x : R) (d : gmap string (list R))
  : pyresult (gmap string (list R)) :=
  match d !! key with
  | Some l => Ok (<[key := l ++ [x]]> d)
  | None => Raise KeyError
  end.

(** [d[key]]. *)
Definition dict_get (key : string) (d : gmap string (list R))
  : pyresult (list R) :=
  match d !! key with
  | Some l => Ok l
  | None => Raise KeyError
  end.

(** The four values one call computes, before they are appended.  The
    values are real numbers: for a residual sum of squares of zero [np.log]
    gives [-inf] in the code, which [ln] does not, so what is proved about
    the three criteria that contain the logarithm is proved for a residual
    sum that is not zero. *)
Record estimators := mk_estimators {
  est_rmsd : R;
  est_aic : R;
  est_aicc : R;
  est_bic : R
}.

Definition estimator_values (weights : R) (V Vfit plin pnonlin : list R)
  : pyresult estimators :=
  let nParams := (len pnonlin + len plin)%Z in
  let Q := (nParams + 1)%Z in
  let N := len V in
  residual ← broadcast2 Rminus V Vfit;
  let SquaredSumRes := np_sum (map (fun x => x ^ 2)%R residual) in
  let logprob := (weights * IZR N * ln (SquaredSumRes / IZR N))%R in
  invN ← py_int_truediv 1 N;
  let rmsd := (weights * sqrt (invN * SquaredSumRes))%R in
  let aic := (logprob + IZR (2 * Q))%R in
  correction ← py_int_truediv (2 * Q * (Q + 1)) (N - Q - 1);
  let aicc := (logprob + IZR (2 * Q) + correction)%R in
  let bic := (logprob + IZR Q * ln (IZR N))%R in
  Ok (mk_estimators rmsd aic aicc bic).

(** [logestimators(V, Vfit, plin, pnonlin, functionals)]; [weights] is the
    variable of the enclosing function. *)
Definition logestimators (weights : R) (V Vfit plin pnonlin : list R)
    (functionals : functionals_obj) : pyresult (gmap string (list R)) :=
  let functionals :=
    match functionals with
    | Dict d => d
    | NotADict => new_functionals
    end in
  e ← estimator_values weights V Vfit plin pnonlin;
  functionals ← dict_append "rmsd" (est_rmsd e) functionals;
  functionals ← dict_append "aic" (est_aic e) functionals;
  functionals ← dict_append "aicc" (est_aicc e) functionals;
  functionals ← dict_append "bic" (est_bic e) functionals;
  Ok functionals.

(** The formulas of the estimator bank as the specification words them,
    over the signal length [N], the parameter counts and the residual sum
    of squares [S]. *)
Module EstimatorSpec.
Definition Q (p_lin p_nl : nat) : Z := (Z.of_nat p_lin + Z.of_nat p_nl + 1)%Z.
Definition S (V Vfit : list R) : R :=
  np_sum (zip_with (fun v f => (v - f) ^ 2)%R V Vfit).
Definition logprob (w : R) (N : nat) (S : R) : R := (w * INR N * ln (S / INR N))%R.
Definition rmsd (w : R) (N : nat) (S : R) : R := (w * sqrt (S / INR N))%R.
Definition aic (logprob : R) (Q : Z) : R := (logprob + 2 * IZR Q)%R.
Definition bic (logprob : R) (Q : Z) (N : nat) : R := (logprob + IZR Q * ln (INR N))%R.
Definition aicc (logprob : R) (Q : Z) (N : nat) : R :=
  (logprob + 2 * IZR Q + 2 * IZR Q * (IZR Q + 1) / (INR N - IZR Q - 1))%R.
End EstimatorSpec.

(** ** Data of the engine *)

(** A one-dimensional array of bounds as [np.atleast_1d] returns it: an
    array of floats, or an array of integers when it was made from Python
    ints only. *)
Inductive bound_array :=
| FloatArray (a : list xreal)
| IntArray (a : list Z).

(** The entries of the array as numbers. *)
Definition bound_values (a : bound_array) : list xreal :=
  match a with
  | FloatArray l => l
  | IntArray l => map (fun n => Finite (IZR n)) l
  end.

(** The conversion of a float to an integer on assignment to an integer
    array: the fractional part is dropped (rounding toward zero). *)
Definition np_trunc (x : R) : Z :=
  if Rle_dec 0 x then Int_part x else (- Int_part (- x))%Z.

(** [a[mask] = v] for a float [v]: an array of floats stores [v], an array
    of integers stores its integer part. *)
Definition mask_assign_float (a : bound_array) (mask : list bool) (v : R)
  : pyresult bound_array :=
  match a with
  | FloatArray l => FloatArray <$> mask_assign l mask (Finite v)
  | IntArray l => IntArray <$> mask_assign l mask (np_trunc v)
  end.

(** The dictionary returned by [model()]. *)
Record model_info := mk_model_info {
  Parameters : list string;
  Start : list R;
  Lower : bound_array;
  Upper : bound_array
}.

(** The kernel model: a function of the kernel parameters, or a matrix. *)
Inductive kernel :=
| KFunction (f : list R -> pyresult matrix)
| KMatrix (K : matrix).

(** Uncertainty objects live in a store: the attribute [ci] of an object is
    either the method of its class or the closure
    [lambda p: Puq_.ci(p)/Pnorm] that normalisation assigns, which refers to
    the object [Puq_] by its address. *)
Inductive ci_attr :=
| ClassMethod
| Rescaled (snapshot : nat) (Pnorm : R).

Record uq_object {UQ : Type} := mk_uq_object {
  uq_data : UQ;
  uq_ci : ci_attr
}.
Arguments uq_object UQ : clear implicits.
Arguments mk_uq_object {UQ} uq_data uq_ci.

(** The value of [Puq] and [paramuq]: the empty list when no uncertainty
    analysis is requested, else a reference into the store. *)
Inductive uq_ref :=
| NoUq
| UqAt (address : nat).

(** The value of [stats]: one record, or the list of records. *)
Inductive stats_obj {gof : Type} :=
| StatsOne (s : gof)
| StatsList (l : list gof).
Arguments stats_obj gof : clear implicits.

(** The containers filled by the loop over the number of components, the
    variable [logest] and the state of the global generator. *)
Record candidates {rng : Type} := mk_candidates {
  Vfit_ : list (list R);
  Pfit_ : list ndarray;
  plin_ : list (list R);
  pnonlin_ : list (list R);
  nlin_ub_ : list (list xreal);
  nlin_lb_ : list (list xreal);
  lin_ub_ : list (list xreal);
  lin_lb_ : list (list xreal);
  logest : functionals_obj;
  rng_state : rng
}.
Arguments candidates rng : clear implicits.
Arguments mk_candidates {rng}.

(** The variables bound by the section "Select the optimal model". *)
Record selection := mk_selection {
  sel_Peval : list ndarray;
  sel_fcnals : list R;
  sel_idx : nat;
  sel_Nopt : nat;
  sel_Pfit : ndarray;
  sel_Vfit : list R;
  sel_pnonlin : list R;
  sel_plin : list R;
  sel_nlin_lb : list xreal;
  sel_nlin_ub : list xreal;
  sel_lin_lb : list xreal;
  sel_lin_ub : list xreal
}.

(** The returned tuple, with the store of uncertainty objects and the state
    in which the call leaves the global generator. *)
Record fit_result {UQ gof rng : Type} := mk_fit_result {
  res_Pfit : ndarray;
  res_fitparam : list R * list R * list R;
  res_Puq : uq_ref;
  res_paramuq : uq_ref;
  res_fcnals : list R;
  res_Peval : list ndarray;
  res_stats : stats_obj gof;
  res_store : list (uq_object UQ);
  res_rng : rng
}.
Arguments fit_result UQ gof rng : clear implicits.
Arguments mk_fit_result {UQ gof rng}.

(** The arguments of [fitmultimodel], with [V], [Kmodel], [weights] and
    [Vsubsets] as [parse_multidatasets] returns them: the signals
    concatenated, the kernel as a function or one matrix, one weight, and the
    index set of each signal.  Keyword arguments for [snlls] are part of the
    solver. *)
Record fit_args := mk_fit_args {
  arg_V : list R;
  arg_Kmodel : kernel;
  arg_weights : R;
  arg_Vsubsets : list (list nat);
  arg_r : list R;
  arg_maxModels : Z;
  arg_method : string;
  arg_lb : bound_array;
  arg_ub : bound_array;
  arg_lbK : list xreal;
  arg_ubK : list xreal;
  arg_normP : bool;
  arg_uqanalysis : bool
}.

(** The same call with the keyword [normP] set to [b]. *)
Definition set_normP (b : bool) (a : fit_args) : fit_args :=
  mk_fit_args (arg_V a) (arg_Kmodel a) (arg_weights a) (arg_Vsubsets a) (arg_r a)
    (arg_maxModels a) (arg_method a) (arg_lb a) (arg_ub a) (arg_lbK a) (arg_ubK a)
    b (arg_uqanalysis a).

(** The list of the values when every entry is present. *)
Fixpoint all_some {A} (l : list (option A)) : option (list A) :=
  match l with
  | [] => Some []
  | Some x :: l' => match all_some l' with Some xs => Some (x :: xs) | None => None end
  | None :: _ => None
  end.

Definition finite_range (lo hi : xreal) : option (R * R) :=
  match lo, hi with
  | Finite a, Finite b => Some (a, (b - a)%R)
  | _, _ => None
  end.

(** [np.matlib.repmat(b, 1, n)] flattened, as [np.concatenate(.., axis=None)]
    sees it. *)
Definition repmat {A} (b : list A) (n : nat) : list A := concat (replicate n b).

Definition is_center_distance (name : string) : bool :=
  String.eqb name "Center" || String.eqb name "Location".

(** ** The engine *)

(** The libraries the engine drives. *)
Class Libraries (rng UQ gof : Type) := {
  (** The global NumPy generator: [np.random.seed] and a draw of [n] numbers
      from the unit interval. *)
  np_random_seed : Z -> rng;
  random_sample : rng -> nat -> list R * rng;
  (** The basis model: [model()] and [model(r, par)]. *)
  model_info_call : pyresult model_info;
  model : list R -> list R -> pyresult (list R);
  (** [dl.snlls(V, Knonlin, par0, nlin_lb, nlin_ub, lin_lb, lin_ub, ...)],
      giving [pnonlin] and [plin]. *)
  snlls :
    list R -> (list R -> pyresult matrix) -> list R ->
    list xreal -> list xreal -> list xreal -> list xreal ->
    pyresult (list R * list R);
  jacobianest : (list R -> pyresult (list R)) -> list R -> pyresult matrix;
  hccm : matrix -> list R -> string -> pyresult matrix;
  (** [dl.UncertQuant], its method [propagate] and the method [ci] of the
      class. *)
  UncertQuant :
    string -> list R -> matrix -> list xreal -> list xreal -> pyresult UQ;
  propagate : UQ -> (list R -> pyresult ndarray) -> list R -> pyresult UQ;
  class_ci : UQ -> R -> list (R * R);
  goodness_of_fit : list R -> list R -> Z -> pyresult gof
}.

Section Engine.
Context {rng UQ gof : Type} {L : Libraries rng UQ gof}.

(** [np.random.uniform(size=n)]. *)
Definition np_random_uniform01 (g : rng) (n : nat) : list R * rng :=
  random_sample g n.

(** [np.random.uniform(size=size, low=low, high=high)]: the range
    [high - low] must be finite, and a draw is [low + range * u]. *)
Definition np_random_uniform (g : rng) (size : nat) (low high : list xreal)
  : pyresult (list R) * rng :=
  match broadcast2 finite_range low high with
  | Raise e => (Raise e, g)
  | Ok ranges =>
      match all_some ranges with
      | None => (Raise OverflowError, g)
      | Some lr =>
          if (length lr =? size)%nat || (length lr =? 1)%nat then
            let '(u, g') := random_sample g size in
            (broadcast2 (fun (p : R * R) x => (p.1 + p.2 * x)%R) lr u, g')
          else (Raise ValueError, g)
      end
  end.

(** *** Kernel parameter arity *)

(** The [while notEnoughParam] loop.  [fuel] bounds the number of
    iterations that are run; [None] means the loop is still running. *)
Fixpoint probe_loop (fuel : nat) (f : list R -> pyresult matrix)
    (nKparam : nat) (g : rng) : option (nat * rng) :=
  match fuel with
  | O => None
  | S fuel' =>
      let nKparam := (nKparam + 1)%nat in
      let '(x, g') := np_random_uniform01 g nKparam in
      match f x with
      | Ok _ => Some (nKparam, g')
      | Raise _ => probe_loop fuel' f nKparam g'
      end
  end.

(** "Check kernel model": the arity and the kernel as a callable. *)
Definition check_kernel (fuel : nat) (Kmodel : kernel) (g : rng)
  : option (nat * (list R -> pyresult matrix) * rng) :=
  match Kmodel with
  | KFunction f =>
      match probe_loop fuel f 0 g with
      | Some (nKparam, g') => Some (nKparam, f, g')
      | None => None
      end
  | KMatrix K => Some (O, fun _ => Ok K, g)
  end.

(** *** Boundaries *)

(** [if len(lbK) is not nKparam or len(ubK) is not nKparam: raise]. *)
Definition check_kernel_bounds (lbK ubK : list xreal) (nKparam : nat)
  : pyresult unit :=
  if py_int_is_not (len lbK) (Z.of_nat nKparam)
     || py_int_is_not (len ubK) (Z.of_nat nKparam)
  then Raise ValueError
  else Ok tt.

(** "Extract information about the model": [nparam], [lb0], [ub0].  The
    two arrays are read as numbers from here on. *)
Definition model_bounds (r : list R) (lb ub : bound_array)
  : pyresult (nat * list xreal * list xreal) :=
  info ← model_info_call;
  let nparam := length (Start info) in
  let lb0 := if isempty (bound_values lb) then Lower info else lb in
  let ub0 := if isempty (bound_values ub) then Upper info else ub in
  let paramnames := Parameters info in
  let areCenterDistances := map is_center_distance paramnames in
  if existsb (fun b : bool => b) areCenterDistances then
    hi ← py_max r;
    ub0 ← mask_assign_float ub0 areCenterDistances hi;
    lo ← py_min r;
    lb0 ← mask_assign_float lb0 areCenterDistances lo;
    Ok (nparam, bound_values lb0, bound_values ub0)
  else Ok (nparam, bound_values lb0, bound_values ub0).

(** *** The nested functions

    They read [Kmodel], [nKparam], [nparam], [r], [V], [weights] and the
    resolved bounds of the enclosing call. *)
Section Closures.
Variable Kmodel : list R -> pyresult matrix.
Variables nKparam nparam : nat.
Variable r : list R.
Variable V : list R.
Variable weights : R.
Variables lb0 ub0 lbK ubK : list xreal.

(** One turn of [for iModel in range(Nmodels)] in [nonlinmodel]; the
    array [Knonlin] is kept as its list of columns. *)
Definition nonlinmodel_body (K : matrix) (par : list R)
    (s : nat * list (list R)) (iModel : nat) : pyresult (nat * list (list R)) :=
  let '(paramsused, Knonlin) := s in
  let subset := np_arange paramsused nparam in
  let paramsused := (paramsused + nparam)%nat in
  shape_par ← take_idx par subset;
  Pbasis ← model r shape_par;
  column ← matvec K Pbasis;
  Ok (paramsused, <[iModel := column]> Knonlin).

Definition nonlinmodel (par : list R) (Nmodels : nat) : pyresult matrix :=
  kernel_par ← take_idx par (np_arange 0 nKparam);
  K ← Kmodel kernel_par;
  let paramsused := nKparam in
  let Knonlin := replicate Nmodels (replicate (shape0 K) 0%R) in
  s ← for_each (nonlinmodel_body K par) (seq 0 Nmodels) (paramsused, Knonlin);
  Ok (from_columns (shape0 K) s.2).

(** One turn of [for amp in linpar] in [Pmodel]. *)
Definition Pmodel_body (nlinpar : list R) (s : nat * ndarray) (amp : R)
  : pyresult (nat * ndarray) :=
  let '(paramsused, Pfit) := s in
  let subset := np_arange paramsused nparam in
  let paramsused := (paramsused + nparam)%nat in
  shape_par ← take_idx nlinpar subset;
  Pbasis ← model r shape_par;
  Pfit ← nd_add Pfit (Array (np_scale amp Pbasis));
  Ok (paramsused, Pfit).

Definition Pmodel (nlinpar linpar : list R) : pyresult ndarray :=
  s ← for_each (Pmodel_body nlinpar) linpar (nKparam, Scalar 0%R);
  Ok s.2.

(** *** One candidate: the body of the loop over [Nmodels] *)

Definition scale : R := 100%R.

Definition nlin_lower (Nmodels : nat) : list xreal := lbK ++ repmat lb0 Nmodels.
Definition nlin_upper (Nmodels : nat) : list xreal := ubK ++ repmat ub0 Nmodels.

(** "Start values of non-linear parameters": seed, then draw. *)
Definition start_values (g : rng) (Nmodels : nat) : pyresult (list R) * rng :=
  let nlin_lb := nlin_lower Nmodels in
  let nlin_ub := nlin_upper Nmodels in
  let g := np_random_seed 1 in
  np_random_uniform g (length nlin_lb) nlin_lb nlin_ub.

Definition fit_candidate (st : candidates rng) (Nmodels : nat)
  : pyresult (candidates rng) :=
  let Knonlin := fun par => nonlinmodel par Nmodels in
  let nlin_lb := nlin_lower Nmodels in
  let nlin_ub := nlin_upper Nmodels in
  let '(par0, g) := start_values (rng_state st) Nmodels in
  par0 ← par0;
  let lin_lb := replicate Nmodels (Finite 1) in
  let lin_ub := replicate Nmodels PosInf in
  fit ← snlls (map (fun v => v * scale)%R V) Knonlin par0
              nlin_lb nlin_ub lin_lb lin_ub;
  let pnonlin := fit.1 in
  let plin := np_div_scalar fit.2 scale in
  let pnonlin_' := pnonlin_ st ++ [pnonlin] in
  let plin_' := plin_ st ++ [plin] in
  Kfit ← nonlinmodel pnonlin Nmodels;
  signal ← matvec Kfit plin;
  let Vfit' := Vfit_ st ++ [signal] in
  distribution ← Pmodel pnonlin plin;
  let Pfit' := Pfit_ st ++ [distribution] in
  last_Vfit ← list_index Vfit' (Nmodels - 1);
  functionals ← logestimators weights V last_Vfit plin pnonlin (logest st);
  Ok (mk_candidates Vfit' Pfit' plin_' pnonlin_'
        (nlin_ub_ st ++ [nlin_ub]) (nlin_lb_ st ++ [nlin_lb])
        (lin_ub_ st ++ [lin_ub]) (lin_lb_ st ++ [lin_lb])
        (Dict functionals) g).

(** "Pre-allocate containers". *)
Definition no_candidates (g : rng) : candidates rng :=
  mk_candidates [] [] [] [] [] [] [] [] NotADict g.

(** [for Nmodels in np.arange(1, maxModels+1)]. *)
Definition fit_candidates (maxModels : Z) (g : rng) : pyresult (candidates rng) :=
  for_each fit_candidate (seq 1 (Z.to_nat maxModels)) (no_candidates g).

(** *** "Select the optimal model" *)

Definition select_model (method : string) (st : candidates rng)
  : pyresult selection :=
  let Peval := Pfit_ st in
  fcnals ← match logest st with
           | Dict d => dict_get method d
           | NotADict => Raise TypeError
           end;
  idx ← np_argmin fcnals;
  let Nopt := (idx + 1)%nat in
  Pfit ← list_index (Pfit_ st) idx;
  Vfit ← list_index (Vfit_ st) idx;
  pnonlin ← list_index (pnonlin_ st) idx;
  plin ← list_index (plin_ st) idx;
  nlin_lb ← list_index (nlin_lb_ st) idx;
  nlin_ub ← list_index (nlin_ub_ st) idx;
  lin_lb ← list_index (lin_lb_ st) idx;
  lin_ub ← list_index (lin_ub_ st) idx;
  Ok (mk_selection Peval fcnals idx Nopt Pfit Vfit pnonlin plin
        nlin_lb nlin_ub lin_lb lin_ub).

(** "Package the fitted parameters". *)
Definition package_parameters (pnonlin plin : list R)
  : list R * list R * list R :=
  (take nKparam pnonlin, take nparam (drop nKparam pnonlin), plin).
End Closures.

(** *** Uncertainty objects in the store *)

(** [copy.deepcopy(obj)]: a new object with the same contents.  A function
    held in an attribute is copied by reference. *)
Definition deepcopy (h : list (uq_object UQ)) (a : nat)
  : pyresult (list (uq_object UQ) * nat) :=
  o ← list_index h a;
  Ok (h ++ [o], length h).

(** A new object as its constructor leaves it. *)
Definition allocate (h : list (uq_object UQ)) (u : UQ)
  : list (uq_object UQ) * nat :=
  (h ++ [mk_uq_object u ClassMethod], length h).

Definition rescale_ci (Pnorm : R) (ci : list (R * R)) : list (R * R) :=
  map (fun b => (b.1 / Pnorm, b.2 / Pnorm)%R) ci.

(** The call [obj.ci(p)] for the object at address [a].  [depth] bounds the
    nesting of calls; [None] means that the bound is exceeded or that [a]
    is not an address of the store. *)
Fixpoint call_ci (depth : nat) (h : list (uq_object UQ)) (a : nat) (p : R)
  : option (list (R * R)) :=
  match depth with
  | O => None
  | S depth' =>
      match h !! a with
      | None => None
      | Some o =>
          match uq_ci o with
          | ClassMethod => Some (class_ci (uq_data o) p)
          | Rescaled snapshot Pnorm =>
              rescale_ci Pnorm <$> call_ci depth' h snapshot p
          end
      end
  end.

(** *** The stages after the selection *)

(** "Uncertainty quantification analysis (if requested)": the store with
    the two new objects, [Puq] and [paramuq]. *)
Definition uncertainty (Kmodel : list R -> pyresult matrix)
    (nKparam nparam : nat) (r V : list R) (weights : R) (uqanalysis : bool)
    (s : selection) (h : list (uq_object UQ))
  : pyresult (list (uq_object UQ) * uq_ref * uq_ref) :=
  if uqanalysis then
    let Nopt := sel_Nopt s in
    let pnonlin := sel_pnonlin s in
    let plin := sel_plin s in
    let Knonlin := fun par => nonlinmodel Kmodel nKparam nparam r par Nopt in
    diff ← broadcast2 Rminus (sel_Vfit s) V;
    let res := np_scale weights diff in
    Jnonlin ← jacobianest
                (fun p => M ← Knonlin p; matvec (mat_scale weights M) plin)
                pnonlin;
    M ← Knonlin pnonlin;
    let Jlin := mat_scale weights M in
    J ← hconcat Jnonlin Jlin;
    covmatrix ← hccm J res "HC1";
    u ← UncertQuant "covariance" (pnonlin ++ plin) covmatrix
          (sel_nlin_lb s ++ sel_lin_lb s) (sel_nlin_ub s ++ sel_lin_ub s);
    let '(h, paramuq) := allocate h u in
    let P_subset := np_arange 0 (nKparam + nparam * Nopt) in
    P_last ← match last P_subset with
             | Some i => Ok i
             | None => Raise IndexError
             end;
    let amps_subset := np_arange (P_last + 1) Nopt in
    pu ← propagate u
           (fun p => nl ← take_idx p P_subset;
                     amps ← take_idx p amps_subset;
                     Pmodel nKparam nparam r nl amps)
           (replicate (length r) 0%R);
    let '(h, Puq) := allocate h pu in
    Ok (h, UqAt Puq, UqAt paramuq)
  else Ok (h, NoUq, NoUq).

(** "Goodness of fit". *)
Definition goodness (nKparam nparam : nat) (V : list R)
    (Vsubsets : list (list nat)) (s : selection) : pyresult (stats_obj gof) :=
  stats ← for_each
    (fun stats subset =>
       Vs ← take_idx V subset;
       Vfits ← take_idx (sel_Vfit s) subset;
       let Ndof := (len Vs - (Z.of_nat nKparam + Z.of_nat nparam
                              + Z.of_nat (sel_Nopt s)))%Z in
       g ← goodness_of_fit Vs Vfits Ndof;
       Ok (stats ++ [g]))
    Vsubsets [];
  match stats with
  | [one] => Ok (StatsOne one)
  | _ => Ok (StatsList stats)
  end.

(** "If requested re-normalize the distribution": the returned
    distribution and the store. *)
Definition renormalize (normP uqanalysis : bool) (r : list R)
    (Pfit : ndarray) (Puq : uq_ref) (h : list (uq_object UQ))
  : pyresult (ndarray * list (uq_object UQ)) :=
  if normP then
    Pnorm ← np_trapz Pfit r;
    let Pfit := nd_div_scalar Pfit Pnorm in
    if uqanalysis then
      match Puq with
      | UqAt a =>
          c ← deepcopy h a;
          let '(h, Puq_) := c in
          o ← list_index h a;
          Ok (Pfit, <[a := mk_uq_object (uq_data o) (Rescaled Puq_ Pnorm)]> h)
      | NoUq => Raise TypeError
      end
    else Ok (Pfit, h)
  else Ok (Pfit, h).

(** *** The whole function *)

(** Everything after "Check kernel model". *)
Definition fit_with_kernel (a : fit_args) (nKparam : nat)
    (Kmodel : list R -> pyresult matrix) (g : rng)
  : pyresult (fit_result UQ gof rng) :=
  _ ← check_kernel_bounds (arg_lbK a) (arg_ubK a) nKparam;
  b ← model_bounds (arg_r a) (arg_lb a) (arg_ub a);
  let '(nparam, lb0, ub0) := b in
  st ← fit_candidates Kmodel nKparam nparam (arg_r a) (arg_V a) (arg_weights a)
         lb0 ub0 (arg_lbK a) (arg_ubK a) (arg_maxModels a) g;
  s ← select_model (arg_method a) st;
  let fitparam := package_parameters nKparam nparam (sel_pnonlin s) (sel_plin s) in
  u ← uncertainty Kmodel nKparam nparam (arg_r a) (arg_V a) (arg_weights a)
        (arg_uqanalysis a) s [];
  let '(h, Puq, paramuq) := u in
  stats ← goodness nKparam nparam (arg_V a) (arg_Vsubsets a) s;
  n ← renormalize (arg_normP a) (arg_uqanalysis a) (arg_r a) (sel_Pfit s) Puq h;
  let '(Pfit, h) := n in
  Ok (mk_fit_result Pfit fitparam Puq paramuq (sel_fcnals s) (sel_Peval s)
        stats h (rng_state st)).

(** [fitmultimodel]: [None] while the arity loop has not ended after [fuel]
    turns. *)
Definition fitmultimodel (fuel : nat) (a : fit_args) (g : rng)
  : option (pyresult (fit_result UQ gof rng)) :=
  match check_kernel fuel (arg_Kmodel a) g with
  | None => None
  | Some (nKparam, Kmodel, g') => Some (fit_with_kernel a nKparam Kmodel g')
  end.
End Engine.

(** ** Predicates used in the statements *)

Definition criteria : list string := ["rmsd"; "aic"; "aicc"; "bic"].

(** The dictionary a value of [logest] stands for at the next call. *)
Definition dict_of (fs : functionals_obj) : gmap string (list R) :=
  match fs with
  | Dict d => d
  | NotADict => new_functionals
  end.

(** The four sequences are present and have [k] entries each. *)
Definition parallel (k : nat) (d : gmap string (list R)) : Prop :=
  forall key, key ∈ criteria -> exists l, d !! key = Some l /\ length l = k.

(** [d'] is [d] with [x] appended to the sequence under [key]. *)
Definition appended (key : string) (x : R) (d d' : gmap string (list R)) : Prop :=
  exists l, d !! key = Some l /\ d' !! key = Some (l ++ [x]).


(** What a filled set of containers holds.  The statements below speak of
    the nested functions of one call, with its [Kmodel], [nKparam], [nparam],
    [r], [V], [weights] and resolved bounds. *)
Section Containers.
Context {rng UQ gof : Type} {L : Libraries rng UQ gof}.
Variable Kmodel : list R -> pyresult matrix.
Variables nKparam nparam : nat.
Variable r : list R.
Variable V : list R.
Variable weights : R.
Variables lb0 ub0 lbK ubK : list xreal.

(** The sequence under [key] has the value [x] at position [i]. *)
Definition criterion_entry (fs : functionals_obj) (key : string) (i : nat) (x : R)
  : Prop :=
  exists d l, fs = Dict d /\ d !! key = Some l /\ l !! i = Some x.

(** Position [i] of every container holds what the turn with
    [Nmodels = i + 1] computed: the bounds, the parameters the solver
    returned from the seeded start vector (the amplitudes divided by
    [scale]), the signal and the distribution rebuilt from them, and the four
    estimators. *)
Definition stored_candidate (st : candidates rng) (i : nat) : Prop :=
  let Nmodels := S i in
  let nlin_lb := nlin_lower lb0 lbK Nmodels in
  let nlin_ub := nlin_upper ub0 ubK Nmodels in
  let lin_lb := replicate Nmodels (Finite 1) in
  let lin_ub := replicate Nmodels PosInf in
  exists par0 fit Kfit signal distribution e,
    let pnonlin := fit.1 in
    let plin := np_div_scalar fit.2 scale in
    (start_values lb0 ub0 lbK ubK (rng_state st) Nmodels).1 = Ok par0
    /\ snlls (map (fun v => v * scale)%R V)
             (fun par => nonlinmodel Kmodel nKparam nparam r par Nmodels)
             par0 nlin_lb nlin_ub lin_lb lin_ub = Ok fit
    /\ nonlinmodel Kmodel nKparam nparam r pnonlin Nmodels = Ok Kfit
    /\ matvec Kfit plin = Ok signal
    /\ Pmodel nKparam nparam r pnonlin plin = Ok distribution
    /\ estimator_values weights V signal plin pnonlin = Ok e
    /\ pnonlin_ st !! i = Some pnonlin
    /\ plin_ st !! i = Some plin
    /\ Vfit_ st !! i = Some signal
    /\ Pfit_ st !! i = Some distribution
    /\ nlin_lb_ st !! i = Some nlin_lb
    /\ nlin_ub_ st !! i = Some nlin_ub
    /\ lin_lb_ st !! i = Some lin_lb
    /\ lin_ub_ st !! i = Some lin_ub
    /\ criterion_entry (logest st) "rmsd" i (est_rmsd e)
    /\ criterion_entry (logest st) "aic" i (est_aic e)
    /\ criterion_entry (logest st) "aicc" i (est_aicc e)
    /\ criterion_entry (logest st) "bic" i (est_bic e).

(** The containers after [n] turns of the loop. *)
Definition filled (n : nat) (st : candidates rng) : Prop :=
  length (Vfit_ st) = n /\ length (Pfit_ st) = n
  /\ length (plin_ st) = n /\ length (pnonlin_ st) = n
  /\ length (nlin_ub_ st) = n /\ length (nlin_lb_ st) = n
  /\ length (lin_ub_ st) = n /\ length (lin_lb_ st) = n
  /\ parallel n (dict_of (logest st))
  /\ ((0 < n)%nat -> exists d, logest st = Dict d)
  /\ forall i, (i < n)%nat -> stored_candidate st i.
End Containers.

(** The contract of the solver that C2 assumes: the linear parameters it
    returns lie within the box it was given for them. *)
Definition solver_respects_linear_box {rng UQ gof : Type} (L : Libraries rng UQ gof)
  : Prop :=
  forall Vs Knonlin par0 nlin_lb nlin_ub lin_lb lin_ub fit,
    snlls Vs Knonlin par0 nlin_lb nlin_ub lin_lb lin_ub = Ok fit ->
    Forall2 (fun lo x => xle lo (Finite x)) lin_lb fit.2
    /\ Forall2 (fun x hi => xle (Finite x) hi) fit.2 lin_ub.

(** The contract of the generator: a draw of [n] numbers has [n] entries, all
    in the unit interval. *)
Definition unit_interval_generator {rng UQ gof : Type} (L : Libraries rng UQ gof)
  : Prop :=
  forall g n,
    length (random_sample g n).1 = n
    /\ Forall (fun u => (0 <= u < 1)%R) (random_sample g n).1.

(** Whether a call of the kernel function raises depends on the number of
    parameters it is given only. *)
Definition arity_decides (f : list R -> pyresult matrix) : Prop :=
  forall x y, length x = length y -> is_ok (f x) = is_ok (f y).

(** [x] lies within the bounds [lo] and [hi]. *)
Definition within (lo hi : xreal) (x : R) : Prop :=
  xle lo (Finite x) /\ xle (Finite x) hi.

(** [i] is the position of the first minimum of [l]. *)
Definition first_minimum (l : list R) (i : nat) : Prop :=
  exists m, l !! i = Some m
    /\ (forall j x, l !! j = Some x -> (m <= x)%R)
    /\ (forall j x, (j < i)%nat -> l !! j = Some x -> (m < x)%R).

(** The arity loop seen from outside: the state of the generator after [j]
    probes of a loop that starts with [nKparam = n], and the vector the
    [j]-th probe passes to the kernel function ([j >= 1]). *)
Section ProbeTrace.
Context {rng UQ gof : Type} {L : Libraries rng UQ gof}.

Fixpoint probe_state (n : nat) (g : rng) (j : nat) : rng :=
  match j with
  | O => g
  | S j' => probe_state (S n) (random_sample g (S n)).2 j'
  end.

Definition probe_vector (n : nat) (g : rng) (j : nat) : list R :=
  (random_sample (probe_state n g (j - 1)) (n + j)).1.
End ProbeTrace.

(** ** A small world to run the engine in

    A generator with a counter as state, a constant basis function with one
    shape parameter, a solver that returns its start vector and puts every
    amplitude on its lower bound (it accepts amplitudes with a finite lower
    and no upper bound), and simple stand-ins for the remaining libraries. *)
Module Toy.
Definition rng : Type := nat.
Definition np_random_seed (seed : Z) : rng := Z.to_nat seed.
Definition unit_draw (g : rng) : R := if Nat.even g then (1 / 4)%R else (3 / 4)%R.
Definition random_sample (g : rng) (n : nat) : list R * rng :=
  (replicate n (unit_draw g), S g).

Definition info : model_info :=
  mk_model_info ["Width"] [1%R] (FloatArray [Finite 0]) (FloatArray [Finite 2]).
Definition model_info_call : pyresult model_info := Ok info.
Definition model (r par : list R) : pyresult (list R) := Ok (map (fun _ => 1%R) r).

Fixpoint amplitudes_on_floor (lin_lb lin_ub : list xreal) : pyresult (list R) :=
  match lin_lb, lin_ub with
  | [], [] => Ok []
  | Finite x :: lb', PosInf :: ub' => ps ← amplitudes_on_floor lb' ub'; Ok (x :: ps)
  | _, _ => Raise (LibraryError 1)
  end.

Definition snlls (V : list R) (Knonlin : list R -> pyresult matrix) (par0 : list R)
    (nlin_lb nlin_ub lin_lb lin_ub : list xreal) : pyresult (list R * list R) :=
  plin ← amplitudes_on_floor lin_lb lin_ub;
  Ok (par0, plin).

Definition jacobianest (f : list R -> pyresult (list R)) (p : list R) : pyresult matrix :=
  v ← f p;
  Ok (mk_matrix (length v) (length p) (map (fun _ => map (fun _ => 0%R) p) v)).
Definition hccm (J : matrix) (res : list R) (mode : string) : pyresult matrix := Ok J.

Definition UQ : Type := list R.
Definition UncertQuant (kind : string) (parfit : list R) (covmat : matrix)
    (lb ub : list xreal) : pyresult UQ := Ok parfit.
Definition propagate (u : UQ) (f : list R -> pyresult ndarray) (lbm : list R)
  : pyresult UQ :=
  y ← f u;
  match y with
  | Array a => Ok a
  | Scalar x => Ok [x]
  end.
Definition class_ci (u : UQ) (p : R) : list (R * R) :=
  map (fun x => (x - p, x + p)%R) u.

Definition gof : Type := Z.
Definition goodness_of_fit (V Vfit : list R) (Ndof : Z) : pyresult gof := Ok Ndof.

Definition identity2 : matrix := mk_matrix 2 2 [[1; 0]; [0; 1]]%R.

(** A call on a two-point signal and a two-point axis. *)
Definition call_by (method : string) (Kmodel : kernel) (lbK ubK : list xreal)
    (maxModels : Z) (normP uqanalysis : bool) : fit_args :=
  mk_fit_args [1; 1]%R Kmodel 1%R [[0; 1]%nat] [1; 2]%R
    maxModels method (FloatArray []) (FloatArray []) lbK ubK normP uqanalysis.

Definition call (Kmodel : kernel) (lbK ubK : list xreal) (maxModels : Z)
    (normP uqanalysis : bool) : fit_args :=
  call_by "aic" Kmodel lbK ubK maxModels normP uqanalysis.

(** A call with a matrix kernel and at most [maxModels] components. *)
Definition args_by (method : string) (maxModels : Z) (normP uqanalysis : bool)
  : fit_args :=
  call_by method (KMatrix identity2) [] [] maxModels normP uqanalysis.

Definition args (maxModels : Z) (normP uqanalysis : bool) : fit_args :=
  args_by "aic" maxModels normP uqanalysis.

(** A kernel function that raises whatever it is given. *)
Definition failing_kernel : kernel := KFunction (fun _ => Raise TypeError).

(** A kernel function of [n] parameters: it raises on any other number. *)
Definition kernel_of_arity (n : nat) : kernel :=
  KFunction (fun par => if (length par =? n)%nat then Ok identity2 else Raise ValueError).

(** A kernel function of one parameter, a modulation depth that must be at
    least one half. *)
Definition picky_kernel : kernel :=
  KFunction (fun par =>
               match par with
               | [lam] => if Rltb lam (1 / 2) then Raise (LibraryError 0) else Ok identity2
               | _ => Ok identity2
               end).

Definition libs : Libraries rng UQ gof :=
  Build_Libraries rng UQ gof np_random_seed random_sample model_info_call model
    snlls jacobianest hccm UncertQuant propagate class_ci goodness_of_fit.

(** The engine in this world. *)
Definition run (fuel : nat) (a : fit_args) (g : rng)
  : option (pyresult (fit_result UQ gof rng)) :=
  fitmultimodel (L := libs) fuel a g.
End Toy.

(** ** Further definitions for the statements about the remaining code *)

(** The bound vector the resolver starts from: the one given, or the
    default of the model when none is given. *)
Definition chosen_bounds (given default : bound_array) : bound_array :=
  if isempty (bound_values given) then default else given.

(** What an entry of the array [a] holds after the float [v] is assigned to
    it. *)
Definition stored_as (a : bound_array) (v : R) : R :=
  match a with
  | FloatArray _ => v
  | IntArray _ => IZR (np_trunc v)
  end.

Module ToyCentered.
(** The small world with a basis function that has a centre and a width. *)
Definition info : model_info :=
  mk_model_info ["Center"; "Width"] [3; 1]%R
    (FloatArray [Finite 1; Finite 0]) (FloatArray [Finite 20; Finite 5]).

Definition libs : Libraries Toy.rng Toy.UQ Toy.gof :=
  Build_Libraries Toy.rng Toy.UQ Toy.gof Toy.np_random_seed Toy.random_sample
    (Ok info) Toy.model Toy.snlls Toy.jacobianest Toy.hccm Toy.UncertQuant
    Toy.propagate Toy.class_ci Toy.goodness_of_fit.
End ToyCentered.

Module ToyCenteredInt.
(** The same basis function with default bounds written as integers. *)
Definition info : model_info :=
  mk_model_info ["Center"; "Width"] [3; 1]%R
    (IntArray [1; 0]%Z) (IntArray [20; 5]%Z).

Definition libs : Libraries Toy.rng Toy.UQ Toy.gof :=
  Build_Libraries Toy.rng Toy.UQ Toy.gof Toy.np_random_seed Toy.random_sample
    (Ok info) Toy.model Toy.snlls Toy.jacobianest Toy.hccm Toy.UncertQuant
    Toy.propagate Toy.class_ci Toy.goodness_of_fit.
End ToyCenteredInt.

(** A distribution without negative values. *)
Definition nd_nonneg (P : ndarray) : Prop :=
  match P with
  | Scalar x => (0 <= x)%R
  | Array a => Forall (fun x => (0 <= x)%R) a
  end.

(** The contract of the basis model: its values are not negative. *)
Definition nonnegative_basis {rng UQ gof : Type} (L : Libraries rng UQ gof) : Prop :=
  forall r par b, model r par = Ok b -> Forall (fun x => (0 <= x)%R) b.

(** The rows of a two-dimensional array are as many as its shape says. *)
Definition rows_match_shape (K : matrix) : Prop := length (rows_of K) = shape0 K.

(** [Pfit + amp*Pbasis], the update of [Pmodel]. *)
Definition add_component (Pfit : ndarray) (c : R * list R) : pyresult ndarray :=
  nd_add Pfit (Array (np_scale c.1 c.2)).

(** The dictionary has no other keys than the four criteria. *)
Definition only_criteria (d : gmap string (list R)) : Prop :=
  forall key, key ∉ criteria -> d !! key = None.

Module ToyFailing.
(** The small world with a solver that does not converge for more than one
    component. *)
Definition snlls (V : list R) (Knonlin : list R -> pyresult matrix) (par0 : list R)
    (nlin_lb nlin_ub lin_lb lin_ub : list xreal) : pyresult (list R * list R) :=
  if (length lin_lb <=? 1)%nat
  then Toy.snlls V Knonlin par0 nlin_lb nlin_ub lin_lb lin_ub
  else Raise (LibraryError 2).

Definition libs : Libraries Toy.rng Toy.UQ Toy.gof :=
  Build_Libraries Toy.rng Toy.UQ Toy.gof Toy.np_random_seed Toy.random_sample
    Toy.model_info_call Toy.model snlls Toy.jacobianest Toy.hccm Toy.UncertQuant
    Toy.propagate Toy.class_ci Toy.goodness_of_fit.
End ToyFailing.

(** The libraries [L] with other functions for the Jacobian, the covariance
    matrix and the uncertainty objects. *)
Definition with_uncertainty_libraries {rng UQ gof : Type} (L : Libraries rng UQ gof)
    (jacobianest' : (list R -> pyresult (list R)) -> list R -> pyresult matrix)
    (hccm' : matrix -> list R -> string -> pyresult matrix)
    (UncertQuant' : string -> list R -> matrix -> list xreal -> list xreal -> pyresult UQ)
    (propagate' : UQ -> (list R -> pyresult ndarray) -> list R -> pyresult UQ)
    (class_ci' : UQ -> R -> list (R * R)) : Libraries rng UQ gof :=
  Build_Libraries rng UQ gof np_random_seed random_sample model_info_call model
    snlls jacobianest' hccm' UncertQuant' propagate' class_ci' goodness_of_fit.

Module ToyUnbounded.
(** The small world with a basis function whose width has no upper bound. *)
Definition info : model_info :=
  mk_model_info ["Width"] [1%R] (FloatArray [Finite 0]) (FloatArray [PosInf]).

Definition libs : Libraries Toy.rng Toy.UQ Toy.gof :=
  Build_Libraries Toy.rng Toy.UQ Toy.gof Toy.np_random_seed Toy.random_sample
    (Ok info) Toy.model Toy.snlls Toy.jacobianest Toy.hccm Toy.UncertQuant
    Toy.propagate Toy.class_ci Toy.goodness_of_fit.
End ToyUnbounded.

(** ** [deerlab/whitegaussnoise.py]

    The noise generator.  The global NumPy generator is the state again; a
    draw of [np.random.normal(loc, scale, n)] is [loc + scale*z] for [n]
    standard normal numbers [z], and a negative [scale] is refused.  The
    result is [None] where the array holds [inf] or [nan] instead of
    numbers: what a division by a sample deviation of zero leaves. *)
Module Noise.

Class Generator (rng : Type) := {
  (** The state after [np.random.seed(k)] for a seed [k] that is accepted. *)
  np_random_seed : Z -> rng;
  standard_normal : rng -> nat -> list R * rng
}.

(** [np.random.seed] accepts the integers from 0 to [2**32 - 1] and raises
    [ValueError] for any other. *)
Definition valid_seed (k : Z) : bool := ((0 <=? k) && (k <=? 2 ^ 32 - 1))%Z.

(** The argument [seed]: [None], or a seed that [np.random.seed] accepts. *)
Definition seed_accepted (seed : option Z) : Prop :=
  match seed with
  | Some k => valid_seed k = true
  | None => True
  end.

(** The argument [t]: a number or a sequence. *)
Inductive array_like :=
| Number (x : R)
| Sequence (l : list R).

Definition np_atleast_1d (t : array_like) : list R :=
  match t with
  | Number x => [x]
  | Sequence l => l
  end.

Definition np_mean (a : list R) : R := (np_sum a / INR (length a))%R.

(** [np.std(a)]: the root of the mean squared deviation from the mean. *)
Definition np_std (a : list R) : R :=
  sqrt (np_mean (map (fun x => (x - np_mean a) ^ 2)%R a)).

Section Noise.
Context {rng : Type} {G : Generator rng}.

Definition np_random_normal (g : rng) (loc scale : R) (size : nat)
  : pyresult (list R) * rng :=
  if Rltb scale 0 then (Raise ValueError, g)
  else
    let '(z, g') := standard_normal g size in
    (Ok (map (fun x => (loc + scale * x)%R) z), g').

(** [if seed is not None: np.random.seed(seed)]. *)
Definition seed_generator (seed : option Z) (g : rng) : pyresult rng :=
  match seed with
  | Some k => if valid_seed k then Ok (np_random_seed k) else Raise ValueError
  | None => Ok g
  end.

Definition whitegaussnoise (t : array_like) (std : R) (rescale : bool)
    (seed : option Z) (g : rng) : pyresult (option (list R)) * rng :=
  match seed_generator seed g with
  | Raise e => (Raise e, g)
  | Ok g =>
      let N := length (np_atleast_1d t) in
      let '(noise, g) := np_random_normal g 0 std N in
      (noise ← noise;
       if rescale then
         match noise with
         | [] => Ok (Some noise)
         | _ =>
             if Req_dec_T (np_std noise) 0 then Ok None
             else Ok (Some (map (fun x => (x * (std / np_std noise))%R) noise))
         end
       else Ok (Some noise),
       g)
  end.
End Noise.

(** The contract of the generator: a draw of [n] numbers has [n] entries. *)
Definition sized_draws {rng : Type} (G : Generator rng) : Prop :=
  forall g n, length (standard_normal g n).1 = n.

(** A generator that runs: the draws alternate between 1 and -1. *)
Definition alternating : Generator nat :=
  Build_Generator nat Z.to_nat
    (fun g n => (map (fun i => if Nat.even i then 1%R else (-1)%R) (seq g n),
                 (g + n)%nat)).
End Noise.
(** * Properties *)

(** ** Reasoning about statements that may raise *)

Lemma bind_Ok {A B} (m : pyresult A) (f : A -> pyresult B) (b : B) :
  m ≫= f = Ok b -> exists a, m = Ok a /\ f a = Ok b.
Proof. destruct m as [a|e]; simpl; [eauto | discriminate]. Qed.

Lemma fmap_Ok {A B} (f : A -> B) (m : pyresult A) (b : B) :
  f <$> m = Ok b -> exists a, m = Ok a /\ b = f a.
Proof. destruct m as [a|e]; simpl; [|discriminate]. intros [= <-]; eauto. Qed.

(** Split a hypothesis [x ← m; k = Ok b] into [m = Ok x] and [k = Ok b]. *)
Ltac bind_inv H :=
  let x := fresh "x" in
  let Hx := fresh "H" x in
  apply bind_Ok in H; destruct H as (x & Hx & H); cbn beta in H.

Lemma is_ok_true {A} (m : pyresult A) : is_ok m = true -> exists a, m = Ok a.
Proof. destruct m as [a|e]; [eauto | discriminate]. Qed.

(** Run the sequencing of statements, and nothing else. *)
Ltac bind_step := cbn [mbind pyresult_bind mret pyresult_ret fmap pyresult_fmap].
Ltac bind_step_in H := cbn [mbind pyresult_bind mret pyresult_ret fmap pyresult_fmap] in H.

Lemma list_index_Ok {A} (xs : list A) (i : nat) (x : A) :
  list_index xs i = Ok x <-> xs !! i = Some x.
Proof. unfold list_index. destruct (xs !! i); split; congruence. Qed.

Lemma list_index_last {A} (xs : list A) (x : A) :
  list_index (xs ++ [x]) (length xs) = Ok x.
Proof. apply list_index_Ok, list_lookup_middle; reflexivity. Qed.

Lemma traverse_length {A B} (f : A -> pyresult B) (xs : list A) (ys : list B) :
  traverse f xs = Ok ys -> length ys = length xs.
Proof.
  revert ys; induction xs as [|x xs IH]; simpl; intros ys H.
  - injection H as <-; reflexivity.
  - bind_inv H. bind_inv H. injection H as <-. simpl. f_equal. eauto.
Qed.

Lemma traverse_Ok_elem {A B} (f : A -> pyresult B) (xs : list A) (ys : list B) (x : A) :
  traverse f xs = Ok ys -> x ∈ xs -> is_ok (f x) = true.
Proof.
  revert ys; induction xs as [|x' xs IH]; simpl; intros ys H Hin.
  - inversion Hin.
  - bind_inv H. bind_inv H. apply elem_of_cons in Hin as [->|Hin].
    + rewrite Hx0; reflexivity.
    + eauto.
Qed.

(** A successful integer-array indexing returns as many entries as there are
    indices, and every index is in range. *)
Lemma take_idx_length {A} (a : list A) (idx : list nat) (ys : list A) :
  take_idx a idx = Ok ys -> length ys = length idx.
Proof. apply traverse_length. Qed.

Lemma take_idx_in_range {A} (a : list A) (idx : list nat) (ys : list A) (i : nat) :
  take_idx a idx = Ok ys -> i ∈ idx -> (i < length a)%nat.
Proof.
  intros H Hin. pose proof (traverse_Ok_elem _ _ _ _ H Hin) as Hok.
  unfold list_index in Hok. destruct (a !! i) eqn:E; [|discriminate].
  eapply lookup_lt_Some; eassumption.
Qed.

Lemma take_idx_arange_bound {A} (a : list A) (start n : nat) (ys : list A) :
  take_idx a (np_arange start n) = Ok ys -> (0 < n)%nat ->
  (start + n <= length a)%nat.
Proof.
  intros H Hn.
  assert (Hin : (start + n - 1)%nat ∈ np_arange start n).
  { unfold np_arange. apply elem_of_seq. lia. }
  pose proof (take_idx_in_range _ _ _ _ H Hin). lia.
Qed.

Lemma broadcast2_same_length {A B C} (f : A -> B -> C) (a : list A) (b : list B) :
  length a = length b -> broadcast2 f a b = Ok (zip_with f a b).
Proof. intros H. unfold broadcast2. rewrite H, Nat.eqb_refl. reflexivity. Qed.

(** ** The estimator bank *)

Lemma parallel_new_functionals : parallel 0 new_functionals.
Proof.
  intros key Hin. unfold criteria in Hin.
  repeat (apply elem_of_cons in Hin as [->|Hin]); try (exists []; split; reflexivity).
  inversion Hin.
Qed.

Lemma parallel_lookup k d key :
  parallel k d -> key ∈ criteria -> exists l, d !! key = Some l /\ length l = k.
Proof. intros H; apply H. Qed.

Lemma logestimators_appends w V Vfit plin pnonlin fs e k :
  estimator_values w V Vfit plin pnonlin = Ok e ->
  parallel k (dict_of fs) ->
  exists d',
    logestimators w V Vfit plin pnonlin fs = Ok d'
    /\ parallel (S k) d'
    /\ appended "rmsd" (est_rmsd e) (dict_of fs) d'
    /\ appended "aic" (est_aic e) (dict_of fs) d'
    /\ appended "aicc" (est_aicc e) (dict_of fs) d'
    /\ appended "bic" (est_bic e) (dict_of fs) d'.
Proof.
  intros He Hp. unfold logestimators. fold (dict_of fs). rewrite He. simpl.
  destruct (Hp "rmsd") as (l1 & E1 & L1); [set_solver|].
  destruct (Hp "aic") as (l2 & E2 & L2); [set_solver|].
  destruct (Hp "aicc") as (l3 & E3 & L3); [set_solver|].
  destruct (Hp "bic") as (l4 & E4 & L4); [set_solver|].
  unfold dict_append. rewrite E1. simpl.
  rewrite lookup_insert_ne, E2 by discriminate. simpl.
  rewrite !lookup_insert_ne, E3 by discriminate. simpl.
  rewrite !lookup_insert_ne, E4 by discriminate. simpl.
  eexists; split; [reflexivity|]. split.
  - intros key Hin. unfold criteria in Hin.
    repeat (apply elem_of_cons in Hin as [->|Hin]); [| | | |inversion Hin].
    + eexists; split; [rewrite !lookup_insert_ne by discriminate; apply lookup_insert_eq|].
      rewrite length_app; simpl; lia.
    + eexists; split; [rewrite !lookup_insert_ne by discriminate; apply lookup_insert_eq|].
      rewrite length_app; simpl; lia.
    + eexists; split; [rewrite !lookup_insert_ne by discriminate; apply lookup_insert_eq|].
      rewrite length_app; simpl; lia.
    + eexists; split; [apply lookup_insert_eq|].
      rewrite length_app; simpl; lia.
  - repeat split; eexists; (split; [eassumption|]);
      rewrite ?lookup_insert_eq; try reflexivity;
      rewrite !lookup_insert_ne by discriminate; rewrite ?lookup_insert_eq; try reflexivity;
      rewrite !lookup_insert_ne by discriminate; rewrite ?lookup_insert_eq; reflexivity.
Qed.

Lemma logestimators_raises w V Vfit plin pnonlin fs err :
  estimator_values w V Vfit plin pnonlin = Raise err ->
  logestimators w V Vfit plin pnonlin fs = Raise err.
Proof. intros He. unfold logestimators. rewrite He. reflexivity. Qed.

Lemma map_zip_with_fused {A B C D} (g : C -> D) (f : A -> B -> C) (a : list A) (b : list B) :
  map g (zip_with f a b) = zip_with (fun x y => g (f x y)) a b.
Proof.
  revert b; induction a as [|x a IH]; intros [|y b]; simpl; try reflexivity.
  f_equal; apply IH.
Qed.

Lemma len_INR {A} (l : list A) : IZR (len l) = INR (length l).
Proof. unfold len. symmetry. apply INR_IZR_INZ. Qed.

Lemma len_zero_iff {A} (l : list A) : len l = 0%Z <-> length l = 0%nat.
Proof. unfold len. lia. Qed.

Lemma spec_Q_code (plin pnonlin : list R) :
  (len pnonlin + len plin + 1)%Z = EstimatorSpec.Q (length plin) (length pnonlin).
Proof. unfold EstimatorSpec.Q, len. lia. Qed.

(** The values of the code, computed where no division is by zero, are the
    values of the specification's formulas. *)
Lemma estimator_values_spec w (V Vfit plin pnonlin : list R) :
  let N := length V in
  let Q := EstimatorSpec.Q (length plin) (length pnonlin) in
  let S := EstimatorSpec.S V Vfit in
  let lp := EstimatorSpec.logprob w N S in
  length Vfit = N ->
  N <> 0%nat ->
  (Z.of_nat N - Q - 1)%Z <> 0%Z ->
  estimator_values w V Vfit plin pnonlin
  = Ok (mk_estimators (EstimatorSpec.rmsd w N S) (EstimatorSpec.aic lp Q)
          (EstimatorSpec.aicc lp Q N) (EstimatorSpec.bic lp Q N)).
Proof.
  intros N Q S lp HL HN HQ. unfold estimator_values.
  rewrite broadcast2_same_length by (symmetry; exact HL). bind_step.
  unfold py_int_truediv.
  assert (HN0 : (len V =? 0)%Z = false).
  { apply Z.eqb_neq. rewrite len_zero_iff. exact HN. }
  rewrite HN0. bind_step.
  rewrite spec_Q_code. fold Q. fold (len V).
  assert (HQ0 : (len V - Q - 1 =? 0)%Z = false).
  { apply Z.eqb_neq. exact HQ. }
  rewrite HQ0. bind_step.
  rewrite map_zip_with_fused. fold (EstimatorSpec.S V Vfit). fold S.
  rewrite !len_INR. fold N.
  do 2 f_equal.
  - unfold EstimatorSpec.rmsd. do 2 f_equal. unfold Rdiv. ring.
  - unfold EstimatorSpec.aic. fold (EstimatorSpec.logprob w N S). fold lp.
    rewrite mult_IZR. reflexivity.
  - unfold EstimatorSpec.aicc. fold (EstimatorSpec.logprob w N S). fold lp.
    rewrite !minus_IZR, !mult_IZR, plus_IZR, len_INR. fold N. reflexivity.
Qed.

Lemma estimator_values_empty_signal w (Vfit plin pnonlin : list R) :
  length Vfit = 0%nat ->
  estimator_values w [] Vfit plin pnonlin = Raise ZeroDivisionError.
Proof.
  intros HL. unfold estimator_values.
  rewrite broadcast2_same_length by (symmetry; exact HL). reflexivity.
Qed.

Lemma estimator_values_degenerate w (V Vfit plin pnonlin : list R) :
  length Vfit = length V ->
  (Z.of_nat (length V) - EstimatorSpec.Q (length plin) (length pnonlin) - 1)%Z = 0%Z ->
  estimator_values w V Vfit plin pnonlin = Raise ZeroDivisionError.
Proof.
  intros HL HQ. unfold estimator_values.
  rewrite broadcast2_same_length by (symmetry; exact HL). bind_step.
  unfold py_int_truediv.
  destruct (len V =? 0)%Z; [reflexivity|]. bind_step.
  rewrite spec_Q_code. fold (len V).
  apply Z.eqb_eq in HQ. fold (len V) in HQ. rewrite HQ. reflexivity.
Qed.

(** C6 (as amended).  Given the observed signal [V] of length [N], a fitted
    signal of the same length, [p_lin] linear and [p_nl] non-linear
    parameters, a weight [w] and [S = sum((V - Vfit)^2)], and four parallel
    sequences of [k] entries: when [N <> 0] and [N - Q - 1 <> 0] the
    estimator bank returns, with [Q = p_lin + p_nl + 1], and appends one
    value to each sequence, leaving four parallel sequences of [k + 1]
    entries; the value appended to ['rmsd'] is [w*sqrt(S/N)], and when
    [S <> 0] the values appended to the other three are
    [aic = logprob + 2Q], the corrected criterion and
    [bic = logprob + Q*ln(N)], with [logprob = w*N*ln(S/N)]; when [N = 0] or
    [N - Q - 1 = 0] it raises [ZeroDivisionError] and appends nothing. *)
Theorem C6_estimator_bank (w : R) (V Vfit plin pnonlin : list R)
    (fs : functionals_obj) (k : nat) :
  let N := length V in
  let Q := EstimatorSpec.Q (length plin) (length pnonlin) in
  let S := EstimatorSpec.S V Vfit in
  let logprob := EstimatorSpec.logprob w N S in
  length Vfit = N ->
  parallel k (dict_of fs) ->
  (N <> 0%nat -> (Z.of_nat N - Q - 1)%Z <> 0%Z ->
   exists d',
     logestimators w V Vfit plin pnonlin fs = Ok d'
     /\ parallel (k + 1) d'
     /\ appended "rmsd" (EstimatorSpec.rmsd w N S) (dict_of fs) d'
     /\ (S <> 0%R ->
         appended "aic" (EstimatorSpec.aic logprob Q) (dict_of fs) d'
         /\ appended "aicc" (EstimatorSpec.aicc logprob Q N) (dict_of fs) d'
         /\ appended "bic" (EstimatorSpec.bic logprob Q N) (dict_of fs) d'))
  /\ (N = 0%nat \/ (Z.of_nat N - Q - 1)%Z = 0%Z ->
      logestimators w V Vfit plin pnonlin fs = Raise ZeroDivisionError).
Proof.
  intros N Q S logprob HL Hp. split.
  - intros HN HQ.
    pose proof (estimator_values_spec w V Vfit plin pnonlin HL HN HQ) as He.
    destruct (logestimators_appends _ _ _ _ _ fs _ k He Hp)
      as (d' & Hd & Hpar & Hrmsd & Haic & Haicc & Hbic).
    exists d'. replace (k + 1)%nat with (Datatypes.S k) by lia.
    split; [exact Hd|]. split; [exact Hpar|]. split; [exact Hrmsd|].
    intros _. split; [exact Haic|]. split; [exact Haicc | exact Hbic].
  - intros [HN | HQ]; apply logestimators_raises.
    + subst N. destruct V; [|discriminate].
      apply estimator_values_empty_signal. exact HL.
    + apply estimator_values_degenerate; assumption.
Qed.

(** C6, a concrete call: a signal of five points, one amplitude, one
    non-linear parameter, a residual sum of 1, on the fresh dictionary. *)
Lemma C6_estimator_bank_witness :
  let V := [1; 2; 3; 4; 5]%R in
  let Vfit := [1; 2; 3; 4; 4]%R in
  length Vfit = length V
  /\ parallel 0 (dict_of NotADict)
  /\ EstimatorSpec.S V Vfit <> 0%R
  /\ exists d',
       logestimators 1 V Vfit [1%R] [2%R] NotADict = Ok d'
       /\ parallel 1 d'
       /\ appended "aic"
            (EstimatorSpec.aic (EstimatorSpec.logprob 1 5 (EstimatorSpec.S V Vfit)) 3)
            new_functionals d'.
Proof.
  intros V Vfit.
  assert (HS : EstimatorSpec.S V Vfit <> 0%R).
  { unfold EstimatorSpec.S, np_sum, V, Vfit. simpl. lra. }
  split; [reflexivity|]. split; [exact parallel_new_functionals|].
  split; [exact HS|].
  destruct (C6_estimator_bank 1 V Vfit [1%R] [2%R] NotADict 0 eq_refl
              parallel_new_functionals) as [H _].
  destruct H as (d' & Hd & Hp & _ & Hlog); [discriminate | discriminate |].
  destruct (Hlog HS) as (Haic & _).
  exists d'. auto.
Defined.

(** C6 as stated fails: with four signal points, one amplitude and one
    non-linear parameter, [N - Q - 1 = 0]; the call raises and no value is
    appended to any sequence. *)
Lemma C6_counterexample :
  logestimators 1 [1; 2; 3; 4]%R [1; 2; 3; 5]%R [1%R] [2%R] NotADict
    = Raise ZeroDivisionError
  /\ ~ (exists d', logestimators 1 [1; 2; 3; 4]%R [1; 2; 3; 5]%R [1%R] [2%R] NotADict
                   = Ok d').
Proof.
  assert (H : logestimators 1 [1; 2; 3; 4]%R [1; 2; 3; 5]%R [1%R] [2%R] NotADict
              = Raise ZeroDivisionError) by reflexivity.
  split; [exact H|]. intros [d' Hd']. rewrite H in Hd'. discriminate.
Qed.

(** C3 (as amended).  The corrected criterion has no guard.  For a candidate
    with [N - Q - 1 < 0] (and a signal that is not empty) the estimator bank
    returns and reports nothing, and when the residual sum [S] is not zero
    it appends the number [logprob + 2Q + 2Q(Q+1)/(N - Q - 1)] to the
    sequence ['aicc']; for a candidate with [N - Q - 1 = 0] the integer
    division raises [ZeroDivisionError] before anything is appended. *)
Theorem C3_aicc_has_no_guard (w : R) (V Vfit plin pnonlin : list R)
    (fs : functionals_obj) (k : nat) :
  let N := length V in
  let Q := EstimatorSpec.Q (length plin) (length pnonlin) in
  let S := EstimatorSpec.S V Vfit in
  let logprob := EstimatorSpec.logprob w N S in
  length Vfit = N ->
  parallel k (dict_of fs) ->
  ((Z.of_nat N - Q - 1 < 0)%Z -> N <> 0%nat ->
   exists d',
     logestimators w V Vfit plin pnonlin fs = Ok d'
     /\ parallel (k + 1) d'
     /\ (S <> 0%R ->
         appended "aicc" (EstimatorSpec.aicc logprob Q N) (dict_of fs) d'))
  /\ ((Z.of_nat N - Q - 1)%Z = 0%Z ->
      logestimators w V Vfit plin pnonlin fs = Raise ZeroDivisionError).
Proof.
  intros N Q S logprob HL Hp. split.
  - intros HQ HN.
    assert (HQ' : (Z.of_nat N - Q - 1)%Z <> 0%Z) by lia.
    pose proof (estimator_values_spec w V Vfit plin pnonlin HL HN HQ') as He.
    destruct (logestimators_appends _ _ _ _ _ fs _ k He Hp)
      as (d' & Hd & Hpar & _ & _ & Haicc & _).
    exists d'. replace (k + 1)%nat with (Datatypes.S k) by lia. auto.
  - intros HQ. apply logestimators_raises, estimator_values_degenerate; assumption.
Qed.

(** C3, two concrete calls: one with [N - Q - 1 = 0], and one with three
    points, [Q = 4] and a residual sum of 1. *)
Lemma C3_aicc_has_no_guard_witness :
  let V := [1; 2; 3; 4]%R in
  let Vfit := [1; 2; 3; 5]%R in
  length Vfit = length V
  /\ parallel 0 (dict_of NotADict)
  /\ logestimators 1 V Vfit [1%R] [2%R] NotADict = Raise ZeroDivisionError
  /\ EstimatorSpec.S [1; 2; 3]%R [1; 2; 4]%R <> 0%R
  /\ exists d',
       logestimators 1 [1; 2; 3]%R [1; 2; 4]%R [1%R] [2; 3]%R NotADict = Ok d'
       /\ appended "aicc"
            (EstimatorSpec.aicc
               (EstimatorSpec.logprob 1 3 (EstimatorSpec.S [1; 2; 3]%R [1; 2; 4]%R)) 4 3)
            new_functionals d'.
Proof.
  intros V Vfit.
  assert (HS : EstimatorSpec.S [1; 2; 3]%R [1; 2; 4]%R <> 0%R).
  { unfold EstimatorSpec.S, np_sum. simpl. lra. }
  split; [reflexivity|]. split; [exact parallel_new_functionals|].
  split.
  - exact (proj2 (C3_aicc_has_no_guard 1 V Vfit [1%R] [2%R] NotADict 0 eq_refl
                    parallel_new_functionals) eq_refl).
  - split; [exact HS|].
    destruct (C3_aicc_has_no_guard 1 [1; 2; 3]%R [1; 2; 4]%R [1%R] [2; 3]%R NotADict 0
                eq_refl parallel_new_functionals) as [H _].
    destruct H as (d' & Hd & _ & Haicc); [reflexivity | discriminate |].
    exists d'. split; [exact Hd | exact (Haicc HS)].
Defined.

(** C3 as stated fails: three signal points, one amplitude and two
    non-linear parameters give [N - Q - 1 = -2 <= 0], and the call returns
    normally with a number in the sequence ['aicc']. *)
Lemma C3_counterexample :
  exists d' x,
    logestimators 1 [1; 2; 3]%R [1; 2; 4]%R [1%R] [2; 3]%R NotADict = Ok d'
    /\ d' !! "aicc" = Some [x].
Proof.
  assert (He : exists e, estimator_values 1 [1; 2; 3]%R [1; 2; 4]%R [1%R] [2; 3]%R = Ok e)
    by (eexists; reflexivity).
  destruct He as [e He].
  destruct (logestimators_appends _ _ _ _ _ NotADict _ 0 He parallel_new_functionals)
    as (d' & Hd & _ & _ & _ & (l & Hl & Hl') & _).
  exists d'. eexists. split; [exact Hd|].
  change (dict_of NotADict !! "aicc") with (Some (@nil R)) in Hl.
  injection Hl as <-. exact Hl'.
Qed.

(** ** Kernel parameter arity *)

Section ArityLoop.
Context {rng UQ gof : Type} {L : Libraries rng UQ gof}.
Variable f : list R -> pyresult matrix.

Lemma probe_vector_first n (g : rng) :
  probe_vector n g 1 = (random_sample g (n + 1)).1.
Proof. reflexivity. Qed.

Lemma probe_vector_shift n (g : rng) j :
  (1 <= j)%nat ->
  probe_vector (S n) (random_sample g (S n)).2 j
  = probe_vector n g (S j).
Proof.
  intros Hj. unfold probe_vector.
  destruct j as [|j']; [lia|].
  replace (S j' - 1)%nat with j' by lia.
  replace (S (S j') - 1)%nat with (S j') by lia.
  replace (n + S (S j'))%nat with (S n + S j')%nat by lia.
  reflexivity.
Qed.

(** The loop stops at the first probe that succeeds, and only there. *)
Lemma probe_loop_Some fuel n (g : rng) k g' :
  probe_loop fuel f n g = Some (k, g') <->
  exists j, (1 <= j <= fuel)%nat
    /\ k = (n + j)%nat
    /\ g' = probe_state n g j
    /\ is_ok (f (probe_vector n g j)) = true
    /\ forall i, (1 <= i < j)%nat ->
         is_ok (f (probe_vector n g i)) = false.
Proof.
  revert n g. induction fuel as [|fuel IH]; intros n g; simpl.
  - split; [discriminate|]. intros (j & Hj & _). lia.
  - unfold np_random_uniform01.
    destruct (random_sample g (n + 1)) as [x g1] eqn:Hdraw.
    assert (Hx : probe_vector n g 1 = x)
      by (rewrite probe_vector_first, Hdraw; reflexivity).
    assert (Hg1 : (random_sample g (S n)).2 = g1)
      by (replace (S n) with (n + 1)%nat by lia; rewrite Hdraw; reflexivity).
    destruct (f x) as [K|e] eqn:Hfx.
    + split.
      * intros [= <- <-]. exists 1%nat. repeat split; try lia.
        -- simpl. rewrite Hg1. reflexivity.
        -- rewrite Hx, Hfx. reflexivity.
      * intros (j & Hj & -> & -> & Hok & Hprev).
        destruct (decide (j = 1%nat)) as [->|Hne].
        -- simpl. rewrite Hg1. reflexivity.
        -- specialize (Hprev 1%nat ltac:(lia)). rewrite Hx, Hfx in Hprev. discriminate.
    + rewrite IH. replace (n + 1)%nat with (S n) by lia. split.
      * intros (j & Hj & -> & -> & Hok & Hprev). exists (S j).
        rewrite <- Hg1 in Hok, Hprev |- *.
        repeat split; try lia.
        -- rewrite <- probe_vector_shift by lia. exact Hok.
        -- intros i Hi. destruct (decide (i = 1%nat)) as [->|Hne].
           ++ rewrite Hx, Hfx. reflexivity.
           ++ destruct i as [|i']; [lia|].
              rewrite <- probe_vector_shift by lia. apply Hprev. lia.
      * intros (j & Hj & -> & -> & Hok & Hprev).
        destruct j as [|j']; [lia|].
        destruct (decide (j' = 0%nat)) as [->|Hne].
        { rewrite Hx, Hfx in Hok. discriminate. }
        exists j'. rewrite <- Hg1.
        repeat split; try lia.
        -- rewrite probe_vector_shift by lia. exact Hok.
        -- intros i Hi. rewrite probe_vector_shift by lia. apply Hprev. lia.
Qed.

(** The loop is still running after [fuel] turns exactly when the first
    [fuel] probes all raised. *)
Lemma probe_loop_None fuel n (g : rng) :
  probe_loop fuel f n g = None <->
  forall i, (1 <= i <= fuel)%nat ->
    is_ok (f (probe_vector n g i)) = false.
Proof.
  revert n g. induction fuel as [|fuel IH]; intros n g; simpl.
  - split; [intros _ i Hi; lia | reflexivity].
  - unfold np_random_uniform01.
    destruct (random_sample g (n + 1)) as [x g1] eqn:Hdraw.
    assert (Hx : probe_vector n g 1 = x)
      by (rewrite probe_vector_first, Hdraw; reflexivity).
    assert (Hg1 : (random_sample g (S n)).2 = g1)
      by (replace (S n) with (n + 1)%nat by lia; rewrite Hdraw; reflexivity).
    destruct (f x) as [K|e] eqn:Hfx.
    + split; [discriminate|]. intros H.
      specialize (H 1%nat ltac:(lia)). rewrite Hx, Hfx in H. discriminate.
    + rewrite IH. replace (n + 1)%nat with (S n) by lia. rewrite <- Hg1. split.
      * intros H i Hi. destruct (decide (i = 1%nat)) as [->|Hne].
        -- rewrite Hx, Hfx. reflexivity.
        -- destruct i as [|i']; [lia|].
           rewrite <- probe_vector_shift by lia. apply H. lia.
      * intros H i Hi. rewrite probe_vector_shift by lia. apply H. lia.
Qed.

(** A probe that succeeds ends the loop, at that length or before. *)
Lemma probe_loop_terminates fuel (g : rng) k :
  (1 <= k <= fuel)%nat ->
  is_ok (f (probe_vector 0 g k)) = true ->
  exists k' g', (1 <= k' <= k)%nat
    /\ probe_loop fuel f 0 g = Some (k', g').
Proof.
  intros Hk Hok.
  destruct (probe_loop fuel f 0 g) as [[k' g']|] eqn:E.
  - exists k', g'. split; [|reflexivity].
    apply probe_loop_Some in E as (j & Hj & -> & _ & _ & Hprev).
    simpl. split; [lia|].
    destruct (decide (j <= k)%nat) as [|Hgt]; [assumption|].
    rewrite Hprev in Hok by lia. discriminate.
  - rewrite probe_loop_None in E. rewrite E in Hok by lia. discriminate.
Qed.
End ArityLoop.

(** C4 (as amended).  For a matrix kernel the detected arity is [0], for
    any number of turns, and the kernel becomes a function that ignores its
    argument.  For a kernel function the loop probes the lengths 1, 2, 3, ...
    with vectors drawn from the generator and returns the first length at
    which the call succeeds; it has no bound and raises nothing: it ends when
    some probe succeeds, and when every probe raises it is still running
    after any number of turns. *)
Theorem C4_arity_detection {rng UQ gof : Type} {L : Libraries rng UQ gof}
    (g : rng) (fuel : nat) :
  (forall K, exists F,
      check_kernel fuel (KMatrix K) g = Some (O, F, g)
      /\ forall par, F par = Ok K)
  /\ (forall f k F g',
        check_kernel fuel (KFunction f) g = Some (k, F, g') ->
        F = f
        /\ (1 <= k <= fuel)%nat
        /\ is_ok (f (probe_vector 0 g k)) = true
        /\ forall i, (1 <= i < k)%nat ->
             is_ok (f (probe_vector 0 g i)) = false)
  /\ (forall f k,
        (1 <= k <= fuel)%nat ->
        is_ok (f (probe_vector 0 g k)) = true ->
        exists k' g', (1 <= k' <= k)%nat
          /\ check_kernel fuel (KFunction f) g = Some (k', f, g'))
  /\ (forall f,
        (forall i, (1 <= i)%nat ->
           is_ok (f (probe_vector 0 g i)) = false) ->
        check_kernel fuel (KFunction f) g = None).
Proof.
  repeat split.
  - intros K. eexists. split; reflexivity.
  - revert H. unfold check_kernel.
    destruct (probe_loop fuel f 0 g) as [[k0 g0]|]; [|discriminate].
    intros [= _ <- _]. reflexivity.
  - revert H. unfold check_kernel.
    destruct (probe_loop fuel f 0 g) as [[k0 g0]|] eqn:E; [|discriminate].
    intros [= <- _ _]. apply probe_loop_Some in E as (j & Hj & -> & _). simpl. lia.
  - revert H. unfold check_kernel.
    destruct (probe_loop fuel f 0 g) as [[k0 g0]|] eqn:E; [|discriminate].
    intros [= <- _ _]. apply probe_loop_Some in E as (j & Hj & -> & _). simpl. lia.
  - revert H. unfold check_kernel.
    destruct (probe_loop fuel f 0 g) as [[k0 g0]|] eqn:E; [|discriminate].
    intros [= <- _ _]. apply probe_loop_Some in E as (j & Hj & -> & _ & Hok & _).
    exact Hok.
  - revert H. unfold check_kernel.
    destruct (probe_loop fuel f 0 g) as [[k0 g0]|] eqn:E; [|discriminate].
    intros [= <- _ _] i Hi. apply probe_loop_Some in E as (j & Hj & -> & _ & _ & Hprev).
    apply Hprev. exact Hi.
  - intros f k Hk Hok.
    destruct (probe_loop_terminates f fuel g k Hk Hok) as (k' & g' & Hk' & E).
    exists k', g'. split; [exact Hk'|]. unfold check_kernel. rewrite E. reflexivity.
  - intros f Hall. unfold check_kernel.
    assert (E : probe_loop fuel f 0 g = None).
    { apply probe_loop_None. intros i Hi. apply Hall. lia. }
    rewrite E. reflexivity.
Qed.

(** C4 as stated fails: for a kernel function that always raises, no number
    of turns makes the call return or raise; there is no bound on the
    probes and no configuration error. *)
Lemma C4_counterexample :
  ~ (exists fuel outcome,
       Toy.run fuel (Toy.call Toy.failing_kernel [] [] 1 true true) 0%nat
       = Some outcome).
Proof.
  intros (fuel & outcome & H). unfold Toy.run, fitmultimodel in H.
  assert (E : check_kernel (L := Toy.libs) fuel
                (arg_Kmodel (Toy.call Toy.failing_kernel [] [] 1 true true)) 0%nat = None).
  { unfold check_kernel. simpl.
    assert (E : probe_loop (L := Toy.libs) fuel (fun _ => Raise TypeError) 0 0%nat = None)
      by (apply probe_loop_None; reflexivity).
    rewrite E. reflexivity. }
  rewrite E in H. discriminate.
Qed.

Lemma logestimators_Ok_values w V Vfit plin pnonlin fs d' :
  logestimators w V Vfit plin pnonlin fs = Ok d' ->
  exists e, estimator_values w V Vfit plin pnonlin = Ok e.
Proof.
  unfold logestimators.
  destruct (estimator_values w V Vfit plin pnonlin) as [e|err]; [eauto | discriminate].
Qed.

Lemma appended_entry_old fs d' key x i v :
  appended key x (dict_of fs) d' ->
  criterion_entry fs key i v ->
  criterion_entry (Dict d') key i v.
Proof.
  intros (l & Hl & Hl') (d & l0 & -> & Hd & Hi). simpl in Hl.
  rewrite Hd in Hl. injection Hl as <-.
  exists d', (l0 ++ [x]). repeat split; [exact Hl'|].
  apply lookup_app_l_Some. exact Hi.
Qed.

Lemma appended_entry_new fs d' key x n :
  appended key x (dict_of fs) d' ->
  parallel n (dict_of fs) ->
  key ∈ criteria ->
  criterion_entry (Dict d') key n x.
Proof.
  intros (l & Hl & Hl') Hp Hkey.
  destruct (Hp key Hkey) as (l0 & Hl0 & Hlen). rewrite Hl0 in Hl. injection Hl as <-.
  exists d', (l0 ++ [x]). repeat split; [exact Hl'|].
  subst n. apply list_lookup_middle. reflexivity.
Qed.


(** ** The loop over the number of components *)

Section CandidateLoop.
Context {rng UQ gof : Type} {L : Libraries rng UQ gof}.
Variable Kmodel : list R -> pyresult matrix.
Variables nKparam nparam : nat.
Variable r : list R.
Variable V : list R.
Variable weights : R.
Variables lb0 ub0 lbK ubK : list xreal.

Local Abbreviation nonlinmodel' := (nonlinmodel Kmodel nKparam nparam r).
Local Abbreviation Pmodel' := (Pmodel nKparam nparam r).
Local Abbreviation start_values' := (start_values lb0 ub0 lbK ubK).
Local Abbreviation fit_candidate' :=
  (fit_candidate Kmodel nKparam nparam r V weights lb0 ub0 lbK ubK).
Local Abbreviation fit_candidates' :=
  (fit_candidates Kmodel nKparam nparam r V weights lb0 ub0 lbK ubK).
Local Abbreviation stored_candidate' :=
  (stored_candidate Kmodel nKparam nparam r V weights lb0 ub0 lbK ubK).
Local Abbreviation filled' :=
  (filled Kmodel nKparam nparam r V weights lb0 ub0 lbK ubK).

(** What a turn that does not raise has computed. *)
Lemma fit_candidate_Ok (st st' : candidates rng) (N : nat) :
  fit_candidate' st N = Ok st' ->
  exists par0 g fit Kfit signal distribution last d',
    start_values' (rng_state st) N = (Ok par0, g)
    /\ snlls (map (fun v => v * scale)%R V) (fun par => nonlinmodel' par N) par0
         (nlin_lower lb0 lbK N) (nlin_upper ub0 ubK N)
         (replicate N (Finite 1)) (replicate N PosInf) = Ok fit
    /\ nonlinmodel' fit.1 N = Ok Kfit
    /\ matvec Kfit (np_div_scalar fit.2 scale) = Ok signal
    /\ Pmodel' fit.1 (np_div_scalar fit.2 scale) = Ok distribution
    /\ list_index (Vfit_ st ++ [signal]) (N - 1) = Ok last
    /\ logestimators weights V last (np_div_scalar fit.2 scale) fit.1 (logest st) = Ok d'
    /\ st' = mk_candidates (Vfit_ st ++ [signal]) (Pfit_ st ++ [distribution])
               (plin_ st ++ [np_div_scalar fit.2 scale]) (pnonlin_ st ++ [fit.1])
               (nlin_ub_ st ++ [nlin_upper ub0 ubK N])
               (nlin_lb_ st ++ [nlin_lower lb0 lbK N])
               (lin_ub_ st ++ [replicate N PosInf])
               (lin_lb_ st ++ [replicate N (Finite 1)])
               (Dict d') g.
Proof.
  unfold fit_candidate. intros H.
  destruct (start_values' (rng_state st) N) as [[par0|e] g] eqn:Hstart;
    [|discriminate].
  bind_step_in H.
  repeat bind_inv H. injection H as <-.
  repeat eexists; eauto.
Qed.

(** The start vector does not depend on the state the generator is in. *)
Lemma start_values_seeded (g1 g2 : rng) (N : nat) :
  start_values' g1 N = start_values' g2 N.
Proof. reflexivity. Qed.

Lemma no_candidates_filled (g : rng) : filled' 0 (no_candidates g).
Proof.
  unfold filled. simpl. repeat split; try reflexivity.
  - exact parallel_new_functionals.
  - lia.
  - intros i Hi. lia.
Qed.

(** A turn that does not raise fills position [n] of every container and
    leaves the positions before it as they were. *)
Lemma fit_candidate_filled (st st' : candidates rng) (n : nat) :
  filled' n st ->
  fit_candidate' st (S n) = Ok st' ->
  filled' (S n) st'.
Proof.
  intros (LV & LP & Lpl & Lpn & Lnu & Lnl & Llu & Lll & Hpar & Hdict & Hold) H.
  apply fit_candidate_Ok in H
    as (par0 & g & fit & Kfit & signal & distribution & last & d'
        & Hstart & Hfit & HK & Hsig & HP & Hlast & Hlog & ->).
  assert (last = signal) as ->.
  { replace (S n - 1)%nat with (length (Vfit_ st)) in Hlast by lia.
    rewrite list_index_last in Hlast. congruence. }
  destruct (logestimators_Ok_values _ _ _ _ _ _ _ Hlog) as [e He].
  destruct (logestimators_appends _ _ _ _ _ (logest st) _ n He Hpar)
    as (d'' & Hd'' & Hpar' & Armsd & Aaic & Aaicc & Abic).
  assert (d'' = d') as -> by congruence.
  unfold filled. simpl. rewrite !length_app. simpl.
  repeat split; try lia; try assumption.
  - intros _. eauto.
  - intros i Hi. destruct (decide (i = n)) as [->|Hne].
    + exists par0, fit, Kfit, signal, distribution, e. simpl.
      rewrite (start_values_seeded _ (rng_state st)), Hstart. simpl.
      repeat split; try assumption;
        try (apply list_lookup_middle; congruence);
        try (eapply appended_entry_new; [eassumption | eassumption | set_solver]).
    + destruct (Hold i ltac:(lia))
        as (par0' & fit' & Kfit' & signal' & distribution' & e'
            & S1 & S2 & S3 & S4 & S5 & S6 & S7 & S8 & S9 & S10 & S11 & S12 & S13 & S14
            & E1 & E2 & E3 & E4).
      exists par0', fit', Kfit', signal', distribution', e'. simpl.
      repeat split; try assumption;
        try (apply lookup_app_l_Some; assumption);
        try (eapply appended_entry_old; eassumption).
Qed.

Lemma for_each_fit_candidate_filled (m n : nat) (st st' : candidates rng) :
  filled' n st ->
  for_each fit_candidate' (seq (S n) m) st = Ok st' ->
  filled' (n + m) st'.
Proof.
  revert n st. induction m as [|m IH]; intros n st Hfilled H; simpl in H.
  - injection H as <-. replace (n + 0)%nat with n by lia. exact Hfilled.
  - bind_inv H.
    replace (n + S m)%nat with (S n + m)%nat by lia.
    eapply IH; [|exact H]. eapply fit_candidate_filled; eassumption.
Qed.

(** After the loop every container has [maxModels] entries, entry [i] being
    the candidate with [i + 1] components. *)
Lemma fit_candidates_filled (maxModels : Z) (g : rng) (st : candidates rng) :
  fit_candidates' maxModels g = Ok st ->
  filled' (Z.to_nat maxModels) st.
Proof.
  unfold fit_candidates. intros H.
  apply (for_each_fit_candidate_filled _ 0 _ _ (no_candidates_filled g) H).
Qed.
End CandidateLoop.

(** ** The model selector *)

Lemma Rltb_true (x y : R) : Rltb x y = true <-> (x < y)%R.
Proof. unfold Rltb. apply bool_decide_eq_true. Qed.

Lemma Rltb_false (x y : R) : Rltb x y = false <-> (y <= x)%R.
Proof.
  unfold Rltb. rewrite bool_decide_eq_false. split; intros H; lra.
Qed.

(** The scan either keeps the running minimum, which then is below nothing to
    its right, or moves to the first entry that is the least one. *)
Lemma argmin_scan_spec (l : list R) (best : R) (best_i i : nat) :
  let k := argmin_scan Rltb best best_i i l in
  (k = best_i /\ forall j x, l !! j = Some x -> (best <= x)%R)
  \/ (exists j m, k = (i + j)%nat /\ l !! j = Some m /\ (m < best)%R
        /\ (forall j' x, l !! j' = Some x -> (m <= x)%R)
        /\ (forall j' x, (j' < j)%nat -> l !! j' = Some x -> (m < x)%R)).
Proof.
  revert best best_i i. induction l as [|x l IH]; intros best best_i i; simpl.
  - left. split; [reflexivity|]. intros j y Hj. inversion Hj.
  - destruct (Rltb x best) eqn:E.
    + apply Rltb_true in E.
      destruct (IH x i (S i)) as [[Hk Hall] | (j & m & Hk & Hj & Hm & Hall & Hfirst)].
      * right. exists 0%nat, x. rewrite Hk.
        repeat split; [lia | assumption | | intros; lia].
        intros [|j'] y Hy; simpl in Hy; [injection Hy as <-; lra | eauto].
      * right. exists (S j), m. rewrite Hk.
        repeat split; [lia | exact Hj | lra | |].
        -- intros [|j'] y Hy; simpl in Hy; [injection Hy as <-; lra | eauto].
        -- intros [|j'] y Hlt Hy; simpl in Hy; [injection Hy as <-; lra|].
           eapply Hfirst; [|eassumption]. lia.
    + apply Rltb_false in E.
      destruct (IH best best_i (S i)) as [[Hk Hall] | (j & m & Hk & Hj & Hm & Hall & Hfirst)].
      * left. split; [exact Hk|].
        intros [|j'] y Hy; simpl in Hy; [injection Hy as <-; lra | eauto].
      * right. exists (S j), m. rewrite Hk.
        repeat split; [lia | exact Hj | lra | |].
        -- intros [|j'] y Hy; simpl in Hy; [injection Hy as <-; lra | eauto].
        -- intros [|j'] y Hlt Hy; simpl in Hy; [injection Hy as <-; lra|].
           eapply Hfirst; [|eassumption]. lia.
Qed.

(** [np.argmin] of a sequence that is not empty is the position of its first
    minimum. *)
Lemma np_argmin_first_minimum (l : list R) :
  l <> [] -> exists i, np_argmin l = Ok i /\ first_minimum l i.
Proof.
  destruct l as [|x l]; [congruence|]. intros _.
  eexists. split; [reflexivity|].
  destruct (argmin_scan_spec l x 0 1) as [[Hk Hall] | (j & m & Hk & Hj & Hm & Hall & Hfirst)].
  - rewrite Hk. exists x. repeat split; [| intros; lia].
    intros [|j'] y Hy; simpl in Hy; [injection Hy as <-; lra | eauto].
  - rewrite Hk. exists m. repeat split.
    + exact Hj.
    + intros [|j'] y Hy; simpl in Hy; [injection Hy as <-; lra | eauto].
    + intros [|j'] y Hlt Hy; simpl in Hy; [injection Hy as <-; lra|].
      eapply Hfirst; [|eassumption]. lia.
Qed.

Lemma first_minimum_in_range (l : list R) (i : nat) :
  first_minimum l i -> (i < length l)%nat.
Proof. intros (m & Hm & _). eapply lookup_lt_Some; eassumption. Qed.

(** The first minimum is unique. *)
Lemma first_minimum_unique (l : list R) (i j : nat) :
  first_minimum l i -> first_minimum l j -> i = j.
Proof.
  intros (m & Hm & Hle & Hlt) (m' & Hm' & Hle' & Hlt').
  destruct (lt_eq_lt_dec i j) as [[Hij | ->] | Hji]; [|reflexivity|].
  - pose proof (Hlt' _ _ Hij Hm). pose proof (Hle _ _ Hm'). lra.
  - pose proof (Hlt _ _ Hji Hm'). pose proof (Hle' _ _ Hm). lra.
Qed.

(** Ties go to the smaller number of components. *)
Example np_argmin_tie : np_argmin [3; 1; 1; 2]%R = Ok 1%nat.
Proof.
  unfold np_argmin, argmin_by. simpl.
  rewrite (proj2 (Rltb_true 1 3)) by lra.
  rewrite (proj2 (Rltb_false 1 1)) by lra.
  rewrite (proj2 (Rltb_false 2 1)) by lra.
  reflexivity.
Qed.

(** The same scan on integers, run. *)
Example argmin_scan_runs : argmin_by Z.ltb [3; 1; 1; 2; 0; 0]%Z = Ok 4%nat.
Proof. reflexivity. Qed.

Section Selector.
Context {rng UQ gof : Type} {L : Libraries rng UQ gof}.
Variable Kmodel : list R -> pyresult matrix.
Variables nKparam nparam : nat.
Variable r : list R.
Variable V : list R.
Variable weights : R.
Variables lb0 ub0 lbK ubK : list xreal.

Local Abbreviation fit_candidates' :=
  (fit_candidates Kmodel nKparam nparam r V weights lb0 ub0 lbK ubK).
Local Abbreviation stored_candidate' :=
  (stored_candidate Kmodel nKparam nparam r V weights lb0 ub0 lbK ubK).
Local Abbreviation filled' :=
  (filled Kmodel nKparam nparam r V weights lb0 ub0 lbK ubK).

(** On filled containers the selector returns the first minimum of the chosen
    sequence and the entries of the containers at that position. *)
Lemma select_model_filled (n : nat) (st : candidates rng) (method : string) :
  filled' n st -> (0 < n)%nat -> method ∈ criteria ->
  exists s d,
    select_model method st = Ok s
    /\ logest st = Dict d
    /\ d !! method = Some (sel_fcnals s)
    /\ length (sel_fcnals s) = n
    /\ first_minimum (sel_fcnals s) (sel_idx s)
    /\ (sel_idx s < n)%nat
    /\ sel_Nopt s = (sel_idx s + 1)%nat
    /\ sel_Peval s = Pfit_ st
    /\ Pfit_ st !! sel_idx s = Some (sel_Pfit s)
    /\ Vfit_ st !! sel_idx s = Some (sel_Vfit s)
    /\ pnonlin_ st !! sel_idx s = Some (sel_pnonlin s)
    /\ plin_ st !! sel_idx s = Some (sel_plin s)
    /\ nlin_lb_ st !! sel_idx s = Some (sel_nlin_lb s)
    /\ nlin_ub_ st !! sel_idx s = Some (sel_nlin_ub s)
    /\ lin_lb_ st !! sel_idx s = Some (sel_lin_lb s)
    /\ lin_ub_ st !! sel_idx s = Some (sel_lin_ub s).
Proof.
  intros (LV & LP & Lpl & Lpn & Lnu & Lnl & Llu & Lll & Hpar & Hdict & Hold) Hn Hm.
  destruct (Hdict Hn) as [d Hd]. rewrite Hd in Hpar. simpl in Hpar.
  destruct (Hpar method Hm) as (fcnals & Hf & Hlen).
  destruct (np_argmin_first_minimum fcnals) as (idx & Hidx & Hmin).
  { intros ->. simpl in Hlen. lia. }
  pose proof (first_minimum_in_range _ _ Hmin) as Hrange.
  rewrite Hlen in Hrange.
  destruct (lookup_lt_is_Some_2 (Pfit_ st) idx ltac:(lia)) as [x1 H1].
  destruct (lookup_lt_is_Some_2 (Vfit_ st) idx ltac:(lia)) as [x2 H2].
  destruct (lookup_lt_is_Some_2 (pnonlin_ st) idx ltac:(lia)) as [x3 H3].
  destruct (lookup_lt_is_Some_2 (plin_ st) idx ltac:(lia)) as [x4 H4].
  destruct (lookup_lt_is_Some_2 (nlin_lb_ st) idx ltac:(lia)) as [x5 H5].
  destruct (lookup_lt_is_Some_2 (nlin_ub_ st) idx ltac:(lia)) as [x6 H6].
  destruct (lookup_lt_is_Some_2 (lin_lb_ st) idx ltac:(lia)) as [x7 H7].
  destruct (lookup_lt_is_Some_2 (lin_ub_ st) idx ltac:(lia)) as [x8 H8].
  eexists. exists d. split.
  - unfold select_model. rewrite Hd. unfold dict_get. rewrite Hf. bind_step.
    rewrite Hidx. bind_step. unfold list_index.
    rewrite H1, H2, H3, H4, H5, H6, H7, H8. bind_step. reflexivity.
  - simpl. repeat split; assumption.
Qed.

(** C1.  For each of the four criterion names, after the loop over the
    candidates 1..maxModels the selector returns the position of the minimum
    of the chosen sequence, the first one when several candidates attain it;
    the number of components is that position plus one, and the fitted signal,
    the distribution, the non-linear and linear parameters and the four
    bounds that the containers hold at that position, which are those of
    that candidate, become the selected result. *)
Theorem C1_model_selector (maxModels : Z) (g : rng) (st : candidates rng)
    (method : string) :
  fit_candidates' maxModels g = Ok st ->
  (1 <= maxModels)%Z ->
  method ∈ criteria ->
  exists s d,
    select_model method st = Ok s
    /\ logest st = Dict d
    /\ d !! method = Some (sel_fcnals s)
    /\ len (sel_fcnals s) = maxModels
    /\ first_minimum (sel_fcnals s) (sel_idx s)
    /\ sel_Nopt s = (sel_idx s + 1)%nat
    /\ (1 <= Z.of_nat (sel_Nopt s) <= maxModels)%Z
    /\ stored_candidate' st (sel_idx s)
    /\ sel_Peval s = Pfit_ st
    /\ Pfit_ st !! sel_idx s = Some (sel_Pfit s)
    /\ Vfit_ st !! sel_idx s = Some (sel_Vfit s)
    /\ pnonlin_ st !! sel_idx s = Some (sel_pnonlin s)
    /\ plin_ st !! sel_idx s = Some (sel_plin s)
    /\ nlin_lb_ st !! sel_idx s = Some (sel_nlin_lb s)
    /\ nlin_ub_ st !! sel_idx s = Some (sel_nlin_ub s)
    /\ lin_lb_ st !! sel_idx s = Some (sel_lin_lb s)
    /\ lin_ub_ st !! sel_idx s = Some (sel_lin_ub s).
Proof.
  intros Hloop Hmax Hmethod.
  pose proof (fit_candidates_filled _ _ _ _ _ _ _ _ _ _ _ _ _ Hloop) as Hfilled.
  destruct (select_model_filled _ st method Hfilled ltac:(lia) Hmethod)
    as (s & d & Hs & Hd & Hseq & Hlen & Hmin & Hidx & HN & HPe
        & H1 & H2 & H3 & H4 & H5 & H6 & H7 & H8).
  exists s, d. repeat split; try assumption.
  - unfold len. rewrite Hlen. lia.
  - lia.
  - lia.
  - destruct Hfilled as (_ & _ & _ & _ & _ & _ & _ & _ & _ & _ & Hold).
    apply Hold. exact Hidx.
Qed.
End Selector.

(** C1, a run: three candidates in the small world, selected by ['aic']. *)
Lemma C1_model_selector_witness :
  exists st,
    fit_candidates (L := Toy.libs) (fun _ => Ok Toy.identity2) 0 1 [1; 2]%R [1; 1]%R 1%R
      [Finite 0] [Finite 2] [] [] 3 0%nat = Ok st
    /\ (1 <= 3)%Z
    /\ "aic" ∈ criteria
    /\ exists s,
         select_model "aic" st = Ok s
         /\ first_minimum (sel_fcnals s) (sel_idx s)
         /\ Pfit_ st !! sel_idx s = Some (sel_Pfit s).
Proof.
  eexists. split; [vm_compute; reflexivity|].
  split; [lia|]. split; [set_solver|].
  match goal with
  | |- exists s, select_model _ ?st = _ /\ _ =>
      destruct (C1_model_selector (L := Toy.libs) (fun _ => Ok Toy.identity2) 0 1
                  [1; 2]%R [1; 1]%R 1%R [Finite 0] [Finite 2] [] [] 3 0%nat st "aic")
        as (s & d & Hs & _ & _ & _ & Hmin & _ & _ & _ & _ & HP & _)
  end.
  - vm_compute. reflexivity.
  - lia.
  - set_solver.
  - exists s. auto.
Defined.

(** ** The amplitudes of a candidate *)

Lemma Forall2_replicate_l {A B} (P : A -> B -> Prop) (n : nat) (a : A) (l : list B) :
  Forall2 P (replicate n a) l -> length l = n /\ Forall (P a) l.
Proof.
  revert l. induction n as [|n IH]; intros l H; simpl in H.
  - inversion H. split; [reflexivity | constructor].
  - inversion H as [|? y ? l' Hy Hl']; subst.
    destruct (IH _ Hl') as [Hlen Hall]. split; [simpl; lia | constructor; assumption].
Qed.

Lemma np_div_scalar_length (a : list R) (c : R) :
  length (np_div_scalar a c) = length a.
Proof. unfold np_div_scalar. apply length_map. Qed.

Lemma Toy_solver_respects_linear_box : solver_respects_linear_box Toy.libs.
Proof.
  intros Vs Knonlin par0 nlin_lb nlin_ub lin_lb lin_ub fit. simpl. unfold Toy.snlls.
  intros H. bind_inv H. injection H as <-. simpl. rename x into plin.
  revert lin_ub plin Hx.
  induction lin_lb as [|lo lin_lb IH]; intros [|hi lin_ub] plin H; simpl in H;
    try discriminate.
  - injection H as <-. split; constructor.
  - destruct lo; discriminate.
  - destruct lo as [x| |]; try discriminate.
    destruct hi; try discriminate.
    bind_inv H. injection H as <-.
    destruct (IH _ _ Hx0) as [H1 H2].
    split; constructor; simpl; try assumption; try exact I. lra.
Qed.

Section Amplitudes.
Context {rng UQ gof : Type} {L : Libraries rng UQ gof}.
Variable Kmodel : list R -> pyresult matrix.
Variables nKparam nparam : nat.
Variable r : list R.
Variable V : list R.
Variable weights : R.
Variables lb0 ub0 lbK ubK : list xreal.

Local Abbreviation fit_candidates' :=
  (fit_candidates Kmodel nKparam nparam r V weights lb0 ub0 lbK ubK).

(** C2 (as amended).  When the solver returns linear parameters within the
    box it was given, then for every number of components [N] in
    1..maxModels the stored amplitude vector has length [N] and every entry is
    at least [1/100]: the lower bound [1] holds for the amplitudes of the
    signal scaled by [100], and the stored amplitudes are those divided by
    [100]. *)
Theorem C2_amplitude_floor (maxModels : Z) (g : rng) (st : candidates rng) (N : nat) :
  solver_respects_linear_box L ->
  fit_candidates' maxModels g = Ok st ->
  (1 <= Z.of_nat N <= maxModels)%Z ->
  exists plin,
    plin_ st !! (N - 1)%nat = Some plin
    /\ length plin = N
    /\ Forall (fun amp => (1 / 100 <= amp)%R) plin.
Proof.
  intros Hbox Hloop HN.
  pose proof (fit_candidates_filled _ _ _ _ _ _ _ _ _ _ _ _ _ Hloop)
    as (_ & _ & _ & _ & _ & _ & _ & _ & _ & _ & Hold).
  destruct (Hold (N - 1)%nat ltac:(lia))
    as (par0 & fit & Kfit & signal & distribution & e
        & _ & Hfit & _ & _ & _ & _ & _ & Hplin & _).
  replace (S (N - 1)) with N in Hfit by lia.
  destruct (Hbox _ _ _ _ _ _ _ _ Hfit) as [Hlo _].
  apply Forall2_replicate_l in Hlo as [Hlen Hall].
  eexists. split; [exact Hplin|]. split.
  - rewrite np_div_scalar_length. exact Hlen.
  - unfold np_div_scalar. apply Forall_map.
    eapply Forall_impl; [exact Hall|].
    intros x Hx. simpl in Hx. unfold scale. lra.
Qed.
End Amplitudes.

(** C2, a run of two candidates in the small world. *)
Lemma C2_amplitude_floor_witness :
  exists st,
    solver_respects_linear_box Toy.libs
    /\ fit_candidates (L := Toy.libs) (fun _ => Ok Toy.identity2) 0 1 [1; 2]%R [1; 1]%R 1%R
         [Finite 0] [Finite 2] [] [] 2 0%nat = Ok st
    /\ (1 <= Z.of_nat 2 <= 2)%Z
    /\ exists plin,
         plin_ st !! 1%nat = Some plin
         /\ length plin = 2%nat
         /\ Forall (fun amp => (1 / 100 <= amp)%R) plin.
Proof.
  eexists. split; [exact Toy_solver_respects_linear_box|].
  split; [vm_compute; reflexivity|]. split; [lia|].
  eapply (C2_amplitude_floor (L := Toy.libs) (fun _ => Ok Toy.identity2) 0 1
            [1; 2]%R [1; 1]%R 1%R [Finite 0] [Finite 2] [] [] 2 0%nat _ 2).
  - exact Toy_solver_respects_linear_box.
  - vm_compute. reflexivity.
  - lia.
Defined.

(** C2 as stated fails: the solver of the small world respects the box and
    returns the amplitude [1] for the scaled signal; the stored amplitude of
    the candidate with one component is [1/100], which is below [1]. *)
Lemma C2_counterexample :
  solver_respects_linear_box Toy.libs
  /\ exists st,
       fit_candidates (L := Toy.libs) (fun _ => Ok Toy.identity2) 0 1 [1; 2]%R [1; 1]%R 1%R
         [Finite 0] [Finite 2] [] [] 1 0%nat = Ok st
       /\ plin_ st !! 0%nat = Some [(1 / 100)%R]
       /\ ~ Forall (fun amp => (1 <= amp)%R) [(1 / 100)%R].
Proof.
  split; [exact Toy_solver_respects_linear_box|].
  eexists. split; [vm_compute; reflexivity|].
  split.
  - simpl. unfold np_div_scalar, scale. simpl. reflexivity.
  - intros H. inversion H; subst. lra.
Qed.

(** ** The check of the kernel parameter bounds *)

Lemma py_int_is_not_len {A} (l : list A) (n : nat) :
  py_int_is_not (len l) (Z.of_nat n) = false <-> length l = n /\ (n <= 256)%nat.
Proof.
  unfold py_int_is_not, py_int_is, small_int, len.
  rewrite negb_false_iff, !andb_true_iff, Z.eqb_eq, !Z.leb_le. lia.
Qed.

(** The check passes exactly when both bound vectors have [nKparam] entries
    and [nKparam] is one of the ints CPython shares. *)
Lemma check_kernel_bounds_Ok (lbK ubK : list xreal) (nKparam : nat) :
  check_kernel_bounds lbK ubK nKparam = Ok tt <->
  length lbK = nKparam /\ length ubK = nKparam /\ (nKparam <= 256)%nat.
Proof.
  unfold check_kernel_bounds.
  destruct (_ || _) eqn:E.
  - split; [discriminate|]. intros (H1 & H2 & H3).
    assert (F1 : py_int_is_not (len lbK) (Z.of_nat nKparam) = false)
      by (apply py_int_is_not_len; lia).
    assert (F2 : py_int_is_not (len ubK) (Z.of_nat nKparam) = false)
      by (apply py_int_is_not_len; lia).
    rewrite F1, F2 in E. discriminate.
  - apply orb_false_iff in E as [E1 E2].
    apply py_int_is_not_len in E1, E2. split; [intros _; lia | reflexivity].
Qed.

Lemma check_kernel_bounds_Raise (lbK ubK : list xreal) (nKparam : nat) :
  check_kernel_bounds lbK ubK nKparam <> Ok tt ->
  check_kernel_bounds lbK ubK nKparam = Raise ValueError.
Proof.
  unfold check_kernel_bounds.
  destruct (_ || _); [reflexivity | congruence].
Qed.

(** C8.  What the code does.  A bound vector whose length differs from the
    detected arity makes the call raise [ValueError] as soon as the arity is
    known, before the model is asked for its bounds and before any candidate
    is fitted, whatever the libraries are.  When both lengths equal the
    arity the check passes as long as the arity is at most 256.  For a larger
    arity [is not] compares two distinct int objects and the check raises
    although the lengths agree: the kernel function of 257 parameters with
    bounds of 257 entries is refused. *)
Theorem C8_kernel_bounds_check :
  (forall {rng UQ gof : Type} (L : Libraries rng UQ gof) (a : fit_args) (nKparam : nat)
          (Kmodel : list R -> pyresult matrix) (g : rng),
      length (arg_lbK a) <> nKparam \/ length (arg_ubK a) <> nKparam ->
      fit_with_kernel a nKparam Kmodel g = Raise ValueError)
  /\ (forall (lbK ubK : list xreal) (nKparam : nat),
        length lbK = nKparam -> length ubK = nKparam -> (nKparam <= 256)%nat ->
        check_kernel_bounds lbK ubK nKparam = Ok tt)
  /\ check_kernel_bounds (replicate 257 (Finite 0)) (replicate 257 (Finite 1)) 257
     = Raise ValueError
  /\ Toy.run 257
       (Toy.call (Toy.kernel_of_arity 257)
          (replicate 257 (Finite 0)) (replicate 257 (Finite 1)) 1 true true) 0%nat
     = Some (Raise ValueError).
Proof.
  split; [|split; [|split]].
  - intros rng UQ gof L a nKparam Kmodel g Hlen. unfold fit_with_kernel.
    rewrite check_kernel_bounds_Raise; [reflexivity|].
    rewrite check_kernel_bounds_Ok. intros (H1 & H2 & _). destruct Hlen; congruence.
  - intros lbK ubK nKparam H1 H2 H3. apply check_kernel_bounds_Ok. auto.
  - vm_compute. reflexivity.
  - vm_compute. reflexivity.
Qed.

(** ** The augmented kernel reads all the parameters it is given *)

Section NonlinearModel.
Context {rng UQ gof : Type} {L : Libraries rng UQ gof}.
Variable Kmodel : list R -> pyresult matrix.
Variables nKparam nparam : nat.
Variable r : list R.

Lemma nonlinmodel_loop_reads (K : matrix) (par : list R) (m start : nat)
    (paramsused : nat) (Knonlin : list (list R)) (s : nat * list (list R)) :
  for_each (nonlinmodel_body nparam r K par) (seq start m) (paramsused, Knonlin) = Ok s ->
  (0 < nparam)%nat -> (0 < m)%nat ->
  (paramsused + m * nparam <= length par)%nat.
Proof.
  revert start paramsused Knonlin.
  induction m as [|m IH]; intros start paramsused Knonlin H Hn Hm; [lia|].
  simpl in H. bind_inv H. unfold nonlinmodel_body in Hx.
  bind_inv Hx. bind_inv Hx. bind_inv Hx. injection Hx as <-.
  pose proof (take_idx_arange_bound _ _ _ _ Hx0 Hn) as Hfirst.
  destruct m as [|m']; [simpl; lia|].
  specialize (IH _ _ _ H Hn ltac:(lia)). simpl in IH |- *. lia.
Qed.

(** A call of [nonlinmodel] that does not raise was given at least
    [nKparam + Nmodels * nparam] parameters. *)
Lemma nonlinmodel_reads (par : list R) (Nmodels : nat) (M : matrix) :
  nonlinmodel Kmodel nKparam nparam r par Nmodels = Ok M ->
  (nKparam + Nmodels * nparam <= length par)%nat.
Proof.
  unfold nonlinmodel. intros H. bind_inv H. bind_inv H. bind_inv H.
  assert (HK : (nKparam <= length par)%nat).
  { destruct nKparam as [|n] eqn:E; [lia|].
    pose proof (take_idx_arange_bound _ _ _ _ Hx ltac:(lia)). lia. }
  destruct (decide (nparam = 0%nat)) as [->|Hn]; [lia|].
  destruct (decide (Nmodels = 0%nat)) as [->|HN]; [lia|].
  apply nonlinmodel_loop_reads in Hx1; lia.
Qed.

(** The columns of the augmented kernel: one for each component. *)
Lemma nonlinmodel_shape1 (par : list R) (Nmodels : nat) (M : matrix) :
  nonlinmodel Kmodel nKparam nparam r par Nmodels = Ok M -> shape1 M = Nmodels.
Proof.
  unfold nonlinmodel. intros H. bind_inv H. bind_inv H. bind_inv H.
  injection H as <-. simpl.
  assert (Hgen : forall idx s0 s1,
             for_each (nonlinmodel_body nparam r x0 par) idx s0 = Ok s1 ->
             length s1.2 = length s0.2).
  { induction idx as [|i idx IH]; intros s0 s1 Hs; simpl in Hs.
    - injection Hs as <-. reflexivity.
    - bind_inv Hs. rewrite (IH _ _ Hs).
      destruct s0 as [pu Kn]. unfold nonlinmodel_body in Hx2.
      bind_inv Hx2. bind_inv Hx2. bind_inv Hx2. injection Hx2 as <-.
      simpl. apply length_insert. }
  rewrite (Hgen _ _ _ Hx1). simpl. apply length_replicate.
Qed.
End NonlinearModel.

(** ** The whole function *)

Section WholeFunction.
Context {rng UQ gof : Type} {L : Libraries rng UQ gof}.

(** The stages a call that returns has gone through. *)
Lemma fit_with_kernel_Ok (a : fit_args) (nKparam : nat)
    (Kmodel : list R -> pyresult matrix) (g : rng) (res : fit_result UQ gof rng) :
  fit_with_kernel a nKparam Kmodel g = Ok res ->
  exists nparam lb0 ub0 st s h Puq paramuq stats Pfit h',
    check_kernel_bounds (arg_lbK a) (arg_ubK a) nKparam = Ok tt
    /\ model_bounds (arg_r a) (arg_lb a) (arg_ub a) = Ok (nparam, lb0, ub0)
    /\ fit_candidates Kmodel nKparam nparam (arg_r a) (arg_V a) (arg_weights a)
         lb0 ub0 (arg_lbK a) (arg_ubK a) (arg_maxModels a) g = Ok st
    /\ select_model (arg_method a) st = Ok s
    /\ uncertainty Kmodel nKparam nparam (arg_r a) (arg_V a) (arg_weights a)
         (arg_uqanalysis a) s [] = Ok (h, Puq, paramuq)
    /\ goodness nKparam nparam (arg_V a) (arg_Vsubsets a) s = Ok stats
    /\ renormalize (arg_normP a) (arg_uqanalysis a) (arg_r a) (sel_Pfit s) Puq h
       = Ok (Pfit, h')
    /\ res = mk_fit_result Pfit
               (package_parameters nKparam nparam (sel_pnonlin s) (sel_plin s))
               Puq paramuq (sel_fcnals s) (sel_Peval s) stats h' (rng_state st).
Proof.
  unfold fit_with_kernel. intros H.
  bind_inv H. destruct x. bind_inv H. destruct x as [[nparam lb0] ub0].
  bind_inv H. bind_inv H. bind_inv H. destruct x1 as [[h Puq] paramuq].
  bind_inv H. bind_inv H. destruct x2 as [Pfit h']. injection H as <-.
  repeat eexists; eassumption.
Qed.

Lemma model_bounds_nparam (r : list R) (lb ub : bound_array) (info : model_info)
    (nparam : nat) (lb0 ub0 : list xreal) :
  model_info_call = Ok info ->
  model_bounds r lb ub = Ok (nparam, lb0, ub0) ->
  nparam = length (Start info).
Proof.
  intros Hinfo. unfold model_bounds. rewrite Hinfo. bind_step.
  destruct (existsb _ _).
  - intros H. repeat bind_inv H. congruence.
  - congruence.
Qed.

(** The selection is made among candidates that were fitted. *)
Lemma select_model_stored Kmodel nKparam nparam r V weights lb0 ub0 lbK ubK
    (maxModels : Z) (g : rng) (st : candidates rng) (method : string) (s : selection) :
  fit_candidates Kmodel nKparam nparam r V weights lb0 ub0 lbK ubK maxModels g = Ok st ->
  select_model method st = Ok s ->
  (sel_idx s < Z.to_nat maxModels)%nat
  /\ sel_Nopt s = S (sel_idx s)
  /\ sel_Peval s = Pfit_ st
  /\ rng_state st = (start_values lb0 ub0 lbK ubK g (Z.to_nat maxModels)).2
  /\ stored_candidate Kmodel nKparam nparam r V weights lb0 ub0 lbK ubK st (sel_idx s)
  /\ pnonlin_ st !! sel_idx s = Some (sel_pnonlin s)
  /\ plin_ st !! sel_idx s = Some (sel_plin s)
  /\ Pfit_ st !! sel_idx s = Some (sel_Pfit s)
  /\ Vfit_ st !! sel_idx s = Some (sel_Vfit s).
Proof.
  intros Hloop Hsel.
  pose proof (fit_candidates_filled _ _ _ _ _ _ _ _ _ _ _ _ _ Hloop) as Hfilled.
  unfold select_model in Hsel. repeat bind_inv Hsel. injection Hsel as <-. simpl.
  apply list_index_Ok in Hx1, Hx2, Hx3, Hx4.
  destruct Hfilled as (_ & LP & _ & _ & _ & _ & _ & _ & _ & _ & Hold).
  assert (Hlt : (x0 < Z.to_nat maxModels)%nat).
  { rewrite <- LP. eapply lookup_lt_Some; eassumption. }
  repeat split; try assumption; try lia; [|apply Hold; exact Hlt].
  clear - Hloop Hlt. unfold fit_candidates in Hloop.
  destruct (Z.to_nat maxModels) as [|m]; [lia|].
  rewrite seq_S in Hloop. simpl in Hloop.
  revert Hloop. generalize (no_candidates g). generalize (seq 1 m).
  induction l as [|N l IH]; intros st0 H; simpl in H.
  - bind_inv H. injection H as <-.
    apply fit_candidate_Ok in Hx
      as (par0 & g' & fit & Kfit & signal & distribution & last & d'
          & Hstart & _ & _ & _ & _ & _ & _ & ->).
    simpl. rewrite (start_values_seeded _ _ _ _ g (rng_state st0)).
    replace (1 + m)%nat with (S m) in Hstart by lia. rewrite Hstart. reflexivity.
  - bind_inv H. eapply IH. exact H.
Qed.
End WholeFunction.

Section PackedParameters.
Context {rng UQ gof : Type} {L : Libraries rng UQ gof}.

Lemma model_bounds_Ok_info (r : list R) (lb ub : bound_array)
    (nparam : nat) (lb0 ub0 : list xreal) :
  model_bounds r lb ub = Ok (nparam, lb0, ub0) ->
  exists info, model_info_call = Ok info /\ nparam = length (Start info).
Proof.
  intros H. destruct model_info_call as [info|e] eqn:Hinfo.
  - exists info. split; [reflexivity|]. eapply model_bounds_nparam; eassumption.
  - unfold model_bounds in H. rewrite Hinfo in H. discriminate.
Qed.

(** C9.  In every run that returns, the second element of the packed
    parameters is the slice [pnonlin[nKparam : nKparam+nparam]] of the
    selected non-linear vector and has exactly [nparam] entries, [nparam]
    being the number of start values of the basis model, whatever the
    selected number of components [Nopt] is; the selected vector itself has
    at least [nKparam + Nopt*nparam] entries, so for [Nopt > 1] the shape
    parameters of the components 2..Nopt are left out. *)
Theorem C9_packed_shape_parameters (fuel : nat) (a : fit_args) (g : rng)
    (res : fit_result UQ gof rng) :
  fitmultimodel fuel a g = Some (Ok res) ->
  exists info nKparam Kmodel g' lb0 ub0 st s,
    let nparam := length (Start info) in
    model_info_call = Ok info
    /\ check_kernel fuel (arg_Kmodel a) g = Some (nKparam, Kmodel, g')
    /\ fit_candidates Kmodel nKparam nparam (arg_r a) (arg_V a) (arg_weights a)
         lb0 ub0 (arg_lbK a) (arg_ubK a) (arg_maxModels a) g' = Ok st
    /\ select_model (arg_method a) st = Ok s
    /\ res_fitparam res
       = (take nKparam (sel_pnonlin s),
          take nparam (drop nKparam (sel_pnonlin s)),
          sel_plin s)
    /\ length (res_fitparam res).1.2 = nparam
    /\ (1 <= sel_Nopt s)%nat
    /\ (nKparam + sel_Nopt s * nparam <= length (sel_pnonlin s))%nat.
Proof.
  unfold fitmultimodel. intros H.
  destruct (check_kernel fuel (arg_Kmodel a) g) as [[[nKparam Kmodel] g']|] eqn:Hk;
    [|discriminate].
  injection H as H.
  apply fit_with_kernel_Ok in H
    as (nparam & lb0 & ub0 & st & s & h & Puq & paramuq & stats & Pfit & h'
        & _ & Hb & Hloop & Hsel & _ & _ & _ & ->).
  destruct (model_bounds_Ok_info _ _ _ _ _ _ Hb) as (info & Hinfo & ->).
  destruct (select_model_stored _ _ _ _ _ _ _ _ _ _ _ _ _ _ _ Hloop Hsel)
    as (_ & HN & _ & _ & Hstored & Hpn & _).
  destruct Hstored
    as (par0 & fit & Kfit & signal & distribution & e
        & _ & _ & HK & _ & _ & _ & Hpn' & _).
  rewrite Hpn in Hpn'. injection Hpn' as Hpn'.
  apply nonlinmodel_reads in HK. rewrite <- Hpn', <- HN in HK.
  exists info, nKparam, Kmodel, g', lb0, ub0, st, s. simpl.
  repeat split; try assumption; try lia.
  rewrite length_take, length_drop. lia.
Qed.
End PackedParameters.

(** The packed parameters of a run in the small world: no kernel
    parameter, the one shape parameter, the one amplitude. *)
Example Toy_packed_parameters :
  (fun res => (length (res_fitparam res).1.1, length (res_fitparam res).1.2,
               length (res_fitparam res).2))
    <$> (Toy.run 0 (Toy.args 1 true true) 0%nat
         ≫= fun out => match out with Ok res => Some res | Raise _ => None end)
  = Some (0%nat, 1%nat, 1%nat).
Proof. vm_compute. reflexivity. Qed.

(** C9, a run in the small world that selects two components: the
    criterion ['rmsd'] prefers the second of two candidates, the result has
    two amplitudes, and the packed shape parameters are the one parameter of
    the first component. *)
Lemma C9_packed_shape_parameters_witness :
  exists res,
    Toy.run 0 (Toy.args_by "rmsd" 2 false false) 0%nat = Some (Ok res)
    /\ length (res_Peval res) = 2%nat
    /\ length (res_fitparam res).2 = 2%nat
    /\ length (res_fitparam res).1.2 = 1%nat.
Proof.
  assert (Hrun : exists res,
             Toy.run 0 (Toy.args_by "rmsd" 2 false false) 0%nat = Some (Ok res)
             /\ length (res_Peval res) = 2%nat
             /\ length (res_fitparam res).2 = 2%nat).
  { eexists. split.
    - unfold Toy.run, fitmultimodel.
      cbn [check_kernel arg_Kmodel Toy.args_by Toy.call_by].
      f_equal. vm_compute.
      destruct (Rlt_dec _ _) as [_|Hn].
      + reflexivity.
      + exfalso. apply Hn.
        match goal with
        | |- (R1 * ?a < R1 * ?b)%R =>
            match a with
            | context [Rcase_abs ?x] =>
                match b with
                | context [Rcase_abs ?y] => change (R1 * sqrt x < R1 * sqrt y)%R
                end
            end
        end.
        apply Rmult_lt_compat_l; [lra|].
        apply sqrt_lt_1_alt. split; lra.
    - split; reflexivity. }
  destruct Hrun as (res & Hrun & HPeval & Hamp).
  exists res. split; [exact Hrun|]. split; [exact HPeval|].
  split; [exact Hamp|].
  destruct (C9_packed_shape_parameters (L := Toy.libs) 0
              (Toy.args_by "rmsd" 2 false false) 0%nat res Hrun)
    as (info & nKparam & Kmodel & g' & lb0 & ub0 & st & s
        & Hinfo & _ & _ & _ & _ & Hlen & _).
  injection Hinfo as <-. exact Hlen.
Defined.

(** ** Normalisation *)

Lemma nd_div_mul_scalar (P : ndarray) (c : R) :
  c <> 0%R -> nd_mul_scalar (nd_div_scalar P c) c = P.
Proof.
  intros Hc. destruct P as [x|a]; simpl.
  - f_equal. field. exact Hc.
  - f_equal. unfold np_div_scalar. rewrite map_map.
    induction a as [|x a IH]; simpl; [reflexivity|].
    f_equal; [field; exact Hc | exact IH].
Qed.

Section Normalisation.
Context {rng UQ gof : Type} {L : Libraries rng UQ gof}.

(** The two objects the uncertainty stage puts in the store, both with the
    method [ci] of their class. *)
Lemma uncertainty_Ok Kmodel nKparam nparam r V weights (uqanalysis : bool)
    (s : selection) (h0 h : list (uq_object UQ)) (Puq paramuq : uq_ref) :
  uncertainty Kmodel nKparam nparam r V weights uqanalysis s h0 = Ok (h, Puq, paramuq) ->
  if uqanalysis then
    exists u pu,
      h = h0 ++ [mk_uq_object u ClassMethod; mk_uq_object pu ClassMethod]
      /\ paramuq = UqAt (length h0)
      /\ Puq = UqAt (S (length h0))
  else h = h0 /\ Puq = NoUq /\ paramuq = NoUq.
Proof.
  unfold uncertainty. destruct uqanalysis.
  - intros H. repeat bind_inv H. unfold allocate in H.
    injection H as <- <- <-.
    exists x4, x6. rewrite <- app_assoc. simpl.
    rewrite length_app. simpl. repeat split. f_equal. lia.
  - intros [= <- <- <-]. auto.
Qed.

Lemma renormalize_off (uqanalysis : bool) (r : list R) (Pfit : ndarray)
    (Puq : uq_ref) (h : list (uq_object UQ)) :
  renormalize false uqanalysis r Pfit Puq h = Ok (Pfit, h).
Proof. reflexivity. Qed.

Lemma renormalize_on_without_uq (r : list R) (Pfit : ndarray)
    (Puq : uq_ref) (h : list (uq_object UQ)) :
  renormalize true false r Pfit Puq h
  = Pnorm ← np_trapz Pfit r; Ok (nd_div_scalar Pfit Pnorm, h).
Proof. reflexivity. Qed.

(** With uncertainty: a copy of the object goes to a new address, and the
    attribute [ci] of the object becomes the closure over that copy. *)
Lemma renormalize_on_with_uq (r : list R) (Pfit : ndarray) (a : nat)
    (h : list (uq_object UQ)) (o : uq_object UQ) :
  h !! a = Some o ->
  renormalize true true r Pfit (UqAt a) h
  = Pnorm ← np_trapz Pfit r;
    Ok (nd_div_scalar Pfit Pnorm,
        <[a := mk_uq_object (uq_data o) (Rescaled (length h) Pnorm)]> (h ++ [o])).
Proof.
  intros Ho. unfold renormalize.
  destruct (np_trapz Pfit r) as [Pnorm|e]; [|reflexivity]. bind_step.
  unfold deepcopy. rewrite (proj2 (list_index_Ok h a o) Ho). bind_step.
  rewrite (proj2 (list_index_Ok (h ++ [o]) a o)); [reflexivity|].
  apply lookup_app_l_Some. exact Ho.
Qed.

(** A query of the rescaled object is the query of the snapshot, divided. *)
Lemma call_ci_rescaled (h : list (uq_object UQ)) (a : nat) (o : uq_object UQ)
    (Pnorm p : R) (depth : nat) (ci : list (R * R)) :
  h !! a = Some o ->
  uq_ci o = ClassMethod ->
  call_ci depth h a p = Some ci ->
  call_ci (S depth)
    (<[a := mk_uq_object (uq_data o) (Rescaled (length h) Pnorm)]> (h ++ [o])) a p
  = Some (rescale_ci Pnorm ci).
Proof.
  intros Ho Hci Hcall.
  assert (Ha : (a < length h)%nat) by (eapply lookup_lt_Some; eassumption).
  destruct depth as [|depth]; [discriminate|].
  simpl in Hcall. rewrite Ho, Hci in Hcall. injection Hcall as <-.
  cbn [call_ci].
  rewrite list_lookup_insert_eq by (rewrite length_app; simpl; lia).
  cbn [uq_ci].
  rewrite list_lookup_insert_ne by lia.
  rewrite list_lookup_middle by reflexivity.
  rewrite Hci. reflexivity.
Qed.
End Normalisation.

(** Dividing an array of intervals by a number divides both ends of every
    interval. *)
Lemma rescale_ci_entries (Pnorm : R) (ci : list (R * R)) :
  length (rescale_ci Pnorm ci) = length ci
  /\ forall i lo hi,
       ci !! i = Some (lo, hi) ->
       rescale_ci Pnorm ci !! i = Some (lo / Pnorm, hi / Pnorm)%R.
Proof.
  unfold rescale_ci. split; [apply List.length_map|].
  induction ci as [|[a b] ci IH]; intros [|i] lo hi Hi; try discriminate.
  - injection Hi as -> ->. reflexivity.
  - apply IH. exact Hi.
Qed.

Section NormalisedRun.
Context {rng UQ gof : Type} {L : Libraries rng UQ gof}.

(** The projections of a call with [normP] set. *)
Ltac set_normP_args :=
  cbn [set_normP arg_V arg_Kmodel arg_weights arg_Vsubsets arg_r arg_maxModels
       arg_method arg_lb arg_ub arg_lbK arg_ubK arg_normP arg_uqanalysis] in *.

(** A call whose stages up to the statistics do not raise ends with the
    normalisation stage. *)
Lemma fit_with_kernel_stages (a : fit_args) (nKparam : nat)
    (Kmodel : list R -> pyresult matrix) (g : rng)
    nparam lb0 ub0 st s h Puq paramuq stats :
  check_kernel_bounds (arg_lbK a) (arg_ubK a) nKparam = Ok tt ->
  model_bounds (arg_r a) (arg_lb a) (arg_ub a) = Ok (nparam, lb0, ub0) ->
  fit_candidates Kmodel nKparam nparam (arg_r a) (arg_V a) (arg_weights a)
    lb0 ub0 (arg_lbK a) (arg_ubK a) (arg_maxModels a) g = Ok st ->
  select_model (arg_method a) st = Ok s ->
  uncertainty Kmodel nKparam nparam (arg_r a) (arg_V a) (arg_weights a)
    (arg_uqanalysis a) s [] = Ok (h, Puq, paramuq) ->
  goodness nKparam nparam (arg_V a) (arg_Vsubsets a) s = Ok stats ->
  fit_with_kernel a nKparam Kmodel g
  = n ← renormalize (arg_normP a) (arg_uqanalysis a) (arg_r a) (sel_Pfit s) Puq h;
    Ok (mk_fit_result n.1
          (package_parameters nKparam nparam (sel_pnonlin s) (sel_plin s))
          Puq paramuq (sel_fcnals s) (sel_Peval s) stats n.2 (rng_state st)).
Proof.
  intros H1 H2 H3 H4 H5 H6. unfold fit_with_kernel.
  rewrite H1. bind_step. rewrite H2. bind_step. rewrite H3. bind_step.
  rewrite H4. bind_step. rewrite H5. bind_step. rewrite H6. bind_step.
  destruct (renormalize _ _ _ _ _ _) as [[Pfit h']|e]; reflexivity.
Qed.

(** C5.  Take a run without renormalisation that returns, and let [Pnorm]
    be the trapezoidal integral of its distribution over the axis, not zero.
    The run with renormalisation returns too; its distribution is the raw one
    divided by [Pnorm], so that multiplied by [Pnorm] it is the raw
    distribution at every point of the axis.  When uncertainty is computed,
    the store keeps a copy of the raw distribution-space object at a new
    address, the attribute [ci] of the returned object is the closure over
    that copy, and every query of it returns the intervals the raw object
    gives with both ends of every interval divided by [Pnorm], as many
    intervals as the raw object gives: one call of the method of the class
    on the copy, nothing else. *)
Theorem C5_renormalisation (fuel : nat) (a : fit_args) (g : rng)
    (raw : fit_result UQ gof rng) (Pnorm : R) :
  fitmultimodel fuel (set_normP false a) g = Some (Ok raw) ->
  np_trapz (res_Pfit raw) (arg_r a) = Ok Pnorm ->
  Pnorm <> 0%R ->
  exists res,
    fitmultimodel fuel (set_normP true a) g = Some (Ok res)
    /\ res_Pfit res = nd_div_scalar (res_Pfit raw) Pnorm
    /\ nd_mul_scalar (res_Pfit res) Pnorm = res_Pfit raw
    /\ (arg_uqanalysis a = true ->
        exists addr o,
          res_Puq raw = UqAt addr
          /\ res_Puq res = UqAt addr
          /\ res_store raw !! addr = Some o
          /\ uq_ci o = ClassMethod
          /\ res_store res !! length (res_store raw) = Some o
          /\ res_store res !! addr
             = Some (mk_uq_object (uq_data o) (Rescaled (length (res_store raw)) Pnorm))
          /\ (forall p depth ci,
                call_ci depth (res_store raw) addr p = Some ci ->
                exists ci',
                  call_ci (S depth) (res_store res) addr p = Some ci'
                  /\ length ci' = length ci
                  /\ forall i lo hi,
                       ci !! i = Some (lo, hi) ->
                       ci' !! i = Some (lo / Pnorm, hi / Pnorm)%R)
          /\ (forall p,
                exists ci',
                  call_ci 2 (res_store res) addr p = Some ci'
                  /\ length ci' = length (class_ci (uq_data o) p)
                  /\ forall i lo hi,
                       class_ci (uq_data o) p !! i = Some (lo, hi) ->
                       ci' !! i = Some (lo / Pnorm, hi / Pnorm)%R)).
Proof.
  unfold fitmultimodel. set_normP_args. intros Hraw Htrapz Hnz.
  destruct (check_kernel fuel (arg_Kmodel a) g) as [[[nKparam Kmodel] g']|];
    [|discriminate].
  injection Hraw as Hraw.
  apply fit_with_kernel_Ok in Hraw
    as (nparam & lb0 & ub0 & st & s & h & Puq & paramuq & stats & Pfit & h'
        & H1 & H2 & H3 & H4 & H5 & H6 & H7 & ->).
  set_normP_args. rewrite renormalize_off in H7. injection H7 as <- <-.
  cbn [res_Pfit] in Htrapz.
  pose proof (fit_with_kernel_stages (set_normP true a) nKparam Kmodel g'
                nparam lb0 ub0 st s h Puq paramuq stats H1 H2 H3 H4 H5 H6) as Hrun.
  set_normP_args. apply uncertainty_Ok in H5.
  destruct (arg_uqanalysis a) eqn:Huq.
  - destruct H5 as (u & pu & -> & -> & ->). simpl length in *. simpl app in *.
    rewrite (renormalize_on_with_uq (arg_r a) (sel_Pfit s) 1
               [mk_uq_object u ClassMethod; mk_uq_object pu ClassMethod]
               (mk_uq_object pu ClassMethod) eq_refl),
      Htrapz in Hrun.
    bind_step_in Hrun.
    eexists. split; [rewrite Hrun; reflexivity|].
    cbn [res_Pfit res_Puq res_store fst snd].
    split; [reflexivity|]. split; [apply nd_div_mul_scalar; exact Hnz|].
    intros _. exists 1%nat, (mk_uq_object pu ClassMethod).
    do 6 (split; [reflexivity|]). split.
    + intros p depth ci Hcall.
      exists (rescale_ci Pnorm ci). split; [|apply rescale_ci_entries].
      apply (call_ci_rescaled
               [mk_uq_object u ClassMethod; mk_uq_object pu ClassMethod] 1
               (mk_uq_object pu ClassMethod) Pnorm p depth ci eq_refl eq_refl Hcall).
    + intros p. exists (rescale_ci Pnorm (class_ci pu p)).
      split; [reflexivity | apply rescale_ci_entries].
  - destruct H5 as (-> & -> & ->).
    rewrite renormalize_on_without_uq, Htrapz in Hrun. bind_step_in Hrun.
    eexists. split; [rewrite Hrun; reflexivity|].
    cbn [res_Pfit fst].
    split; [reflexivity|]. split; [apply nd_div_mul_scalar; exact Hnz|].
    discriminate.
Qed.

(** C10.  The run with renormalisation and the run without it, on the same
    arguments: both are still in the arity loop, or both raise the same
    exception, or only the trapezoidal integration raises, or both return.
    When both return, the packed parameters, the parameter-space uncertainty
    object, the criterion sequence, the distributions of all candidates, the
    goodness-of-fit statistics and the state of the generator are the same;
    the distribution-space object is at the same address with the same
    contents apart from its attribute [ci]. *)
Theorem C10_normalisation_frame (fuel : nat) (a : fit_args) (g : rng) :
  match fitmultimodel fuel (set_normP true a) g,
        fitmultimodel fuel (set_normP false a) g with
  | None, None => True
  | Some (Raise e), Some (Raise e') => e = e'
  | Some (Raise e), Some (Ok raw) => np_trapz (res_Pfit raw) (arg_r a) = Raise e
  | Some (Ok res), Some (Ok raw) =>
      res_fitparam res = res_fitparam raw
      /\ res_paramuq res = res_paramuq raw
      /\ (forall addr, res_paramuq raw = UqAt addr ->
            res_store res !! addr = res_store raw !! addr)
      /\ res_fcnals res = res_fcnals raw
      /\ res_Peval res = res_Peval raw
      /\ res_stats res = res_stats raw
      /\ res_rng res = res_rng raw
      /\ res_Puq res = res_Puq raw
      /\ (forall addr, res_Puq raw = UqAt addr ->
            uq_data <$> res_store res !! addr = uq_data <$> res_store raw !! addr)
  | _, _ => False
  end.
Proof.
  unfold fitmultimodel. set_normP_args.
  destruct (check_kernel fuel (arg_Kmodel a) g) as [[[nKparam Kmodel] g']|];
    [|exact I].
  unfold fit_with_kernel. set_normP_args.
  destruct (check_kernel_bounds _ _ _) as [[]|e]; bind_step; [|reflexivity].
  destruct (model_bounds _ _ _) as [[[nparam lb0] ub0]|e]; bind_step; [|reflexivity].
  destruct (fit_candidates _ _ _ _ _ _ _ _ _ _ _ _) as [st|e]; bind_step; [|reflexivity].
  destruct (select_model _ _) as [s|e]; bind_step; [|reflexivity].
  destruct (uncertainty _ _ _ _ _ _ _ _ _) as [[[h Puq] paramuq]|e] eqn:Hu;
    bind_step; [|reflexivity].
  destruct (goodness _ _ _ _ _) as [stats|e]; bind_step; [|reflexivity].
  rewrite renormalize_off. bind_step. apply uncertainty_Ok in Hu.
  destruct (arg_uqanalysis a).
  - destruct Hu as (u & pu & -> & -> & ->). simpl length. simpl app.
    rewrite (renormalize_on_with_uq (arg_r a) (sel_Pfit s) 1
               [mk_uq_object u ClassMethod; mk_uq_object pu ClassMethod]
               (mk_uq_object pu ClassMethod) eq_refl).
    destruct (np_trapz (sel_Pfit s) (arg_r a)) as [Pnorm|e] eqn:Ht; bind_step;
      [|exact Ht].
    cbn [res_fitparam res_paramuq res_store res_fcnals res_Peval res_stats
         res_rng res_Puq].
    repeat split.
    + intros addr [= <-]. reflexivity.
    + intros addr [= <-]. reflexivity.
  - destruct Hu as (-> & -> & ->). rewrite renormalize_on_without_uq.
    destruct (np_trapz (sel_Pfit s) (arg_r a)) as [Pnorm|e] eqn:Ht; bind_step;
      [|exact Ht].
    cbn [res_fitparam res_paramuq res_store res_fcnals res_Peval res_stats
         res_rng res_Puq].
    repeat split; intros addr; discriminate.
Qed.
End NormalisedRun.

(** C5, a run in the small world: the raw distribution integrates to a
    number that is not zero, and a query of the normalised object gives the
    intervals of the raw one, divided. *)
Lemma C5_renormalisation_witness :
  exists raw Pnorm,
    Toy.run 0 (set_normP false (Toy.args 1 true true)) 0%nat = Some (Ok raw)
    /\ np_trapz (res_Pfit raw) [1; 2]%R = Ok Pnorm
    /\ Pnorm <> 0%R
    /\ exists res,
         Toy.run 0 (set_normP true (Toy.args 1 true true)) 0%nat = Some (Ok res)
         /\ nd_mul_scalar (res_Pfit res) Pnorm = res_Pfit raw
         /\ exists ci ci',
              call_ci (L := Toy.libs) 1 (res_store raw) 1 (1 / 2)%R = Some ci
              /\ call_ci (L := Toy.libs) 2 (res_store res) 1 (1 / 2)%R = Some ci'
              /\ length ci' = length ci
              /\ forall i lo hi,
                   ci !! i = Some (lo, hi) ->
                   ci' !! i = Some (lo / Pnorm, hi / Pnorm)%R.
Proof.
  eexists. eexists.
  split; [vm_compute; reflexivity|].
  split; [vm_compute; reflexivity|].
  assert (Hnz : forall x : R, x = (1 / 100)%R -> x <> 0%R) by (intros x ->; lra).
  split.
  - apply Hnz. lra.
  - match goal with
    | |- exists res, _ /\ nd_mul_scalar _ ?Pnorm = res_Pfit ?raw /\ _ =>
        destruct (C5_renormalisation (L := Toy.libs) 0 (Toy.args 1 true true) 0%nat
                    raw Pnorm)
          as (res & Hres & _ & Hmul & Huq)
    end.
    + vm_compute. reflexivity.
    + vm_compute. reflexivity.
    + apply Hnz. lra.
    + exists res. split; [exact Hres|]. split; [exact Hmul|].
      destruct (Huq eq_refl) as (addr & o & Hraw & _ & _ & _ & _ & _ & Hquery & _).
      vm_compute in Hraw. injection Hraw as <-.
      eexists.
      match goal with
      | |- exists ci', call_ci 1 ?h 1 ?p = Some ?ci /\ _ =>
          assert (Hcall : call_ci (L := Toy.libs) 1 h 1 p = Some ci)
            by (vm_compute; reflexivity);
          destruct (Hquery p 1%nat ci Hcall) as (ci' & Hcall' & Hlen & Hentries)
      end.
      exists ci'. split; [exact Hcall|]. split; [exact Hcall'|].
      split; [exact Hlen | exact Hentries].
Defined.

(** ** Start values and the state of the generator *)

Lemma all_some_lookup {A} (l : list (option A)) (xs : list A) (i : nat) (o : option A) :
  all_some l = Some xs -> l !! i = Some o -> exists x, o = Some x /\ xs !! i = Some x.
Proof.
  revert xs i. induction l as [|[y|] l IH]; intros xs i H Hi; simpl in H;
    try discriminate.
  destruct (all_some l) as [ys|] eqn:E; [|discriminate]. injection H as <-.
  destruct i as [|i]; simpl in Hi.
  - injection Hi as <-. exists y. split; reflexivity.
  - apply (IH ys i eq_refl Hi).
Qed.

Lemma all_some_length {A} (l : list (option A)) (xs : list A) :
  all_some l = Some xs -> length xs = length l.
Proof.
  revert xs. induction l as [|[y|] l IH]; intros xs H; simpl in H; try discriminate.
  - injection H as <-. reflexivity.
  - destruct (all_some l) as [ys|] eqn:E; [|discriminate]. injection H as <-.
    simpl. f_equal. apply IH. reflexivity.
Qed.

Lemma lookup_map {A B} (f : A -> B) (l : list A) (i : nat) :
  map f l !! i = f <$> l !! i.
Proof.
  revert i. induction l as [|x l IH]; intros [|i]; simpl; try reflexivity. apply IH.
Qed.

(** What [broadcast2] pairs at a position where both operands have an
    entry and the result too. *)
Lemma broadcast2_lookup {A B C} (f : A -> B -> C) (a : list A) (b : list B)
    (c : list C) (i : nat) (x : A) (y : B) (z : C) :
  broadcast2 f a b = Ok c ->
  a !! i = Some x -> b !! i = Some y -> c !! i = Some z ->
  z = f x y.
Proof.
  unfold broadcast2. intros H Ha Hb Hc.
  destruct (length a =? length b)%nat.
  - injection H as <-. rewrite lookup_zip_with, Ha, Hb in Hc. simpl in Hc. congruence.
  - destruct a as [|x0 [|x1 a]]; [inversion Ha | |].
    + destruct i as [|i]; [|inversion Ha]. injection Ha as <-.
      injection H as <-. rewrite lookup_map, Hb in Hc. simpl in Hc. congruence.
    + destruct b as [|y0 [|y1 b]]; [inversion Hb | | discriminate].
      destruct i as [|i]; [|inversion Hb]. injection Hb as <-.
      injection H as <-. simpl in Ha, Hc. congruence.
Qed.

Lemma broadcast2_length {A B C} (f : A -> B -> C) (a : list A) (b : list B)
    (c : list C) :
  broadcast2 f a b = Ok c ->
  (length a = length b /\ length c = length a)
  \/ (length a = 1%nat /\ length c = length b)
  \/ (length b = 1%nat /\ length c = length a).
Proof.
  unfold broadcast2. intros H.
  destruct (length a =? length b)%nat eqn:E.
  - apply Nat.eqb_eq in E. injection H as <-. left.
    rewrite length_zip_with. lia.
  - destruct a as [|x0 [|x1 a]].
    + destruct b as [|y0 [|y1 b]]; try discriminate.
      injection H as <-. right. right. split; reflexivity.
    + injection H as <-. right. left. simpl; rewrite ?List.length_map. split; reflexivity.
    + destruct b as [|y0 [|y1 b]]; try discriminate.
      injection H as <-. right. right. simpl; rewrite ?List.length_map. split; reflexivity.
Qed.

(** Every entry of the result pairs the entries of the operands at that
    position, an operand of length one giving its only entry. *)
Lemma broadcast2_entry {A B C} (f : A -> B -> C) (a : list A) (b : list B)
    (c : list C) (i : nat) (z : C) :
  broadcast2 f a b = Ok c -> c !! i = Some z ->
  exists x y, z = f x y
    /\ (a !! i = Some x \/ a = [x]) /\ (b !! i = Some y \/ b = [y]).
Proof.
  unfold broadcast2. intros H Hc.
  destruct (length a =? length b)%nat.
  - injection H as <-. rewrite lookup_zip_with in Hc.
    destruct (a !! i) as [x|]; [|discriminate]. simpl in Hc.
    destruct (b !! i) as [y|]; [|discriminate]. injection Hc as <-.
    exists x, y. auto.
  - destruct a as [|x0 [|x1 a]].
    + destruct b as [|y0 [|y1 b]]; try discriminate.
      injection H as <-. inversion Hc.
    + injection H as <-. rewrite lookup_map in Hc.
      destruct (b !! i) as [y|]; [|discriminate]. injection Hc as <-.
      exists x0, y. auto.
    + destruct b as [|y0 [|y1 b]]; try discriminate.
      injection H as <-.
      change (f x0 y0 :: f x1 y0 :: map (fun x => f x y0) a)
        with (map (fun x => f x y0) (x0 :: x1 :: a)) in Hc.
      rewrite lookup_map in Hc.
      destruct ((x0 :: x1 :: a) !! i) as [x|] eqn:E; [|discriminate].
      injection Hc as <-. exists x, y0. auto.
Qed.

Lemma lookup_or_singleton {A} (l : list A) (i : nat) (x y : A) :
  l !! i = Some y -> l !! i = Some x \/ l = [x] -> x = y.
Proof.
  intros Hy [Hx | ->]; [congruence|].
  destruct i; simpl in Hy; [congruence | discriminate].
Qed.

Section StartValues.
Context {rng UQ gof : Type} {L : Libraries rng UQ gof}.

(** A draw between bounds: where the lower bound, the upper bound and the
    draw all have an entry, both bounds are finite and the entry is
    [lo + (hi - lo) * u] for a number [u] of the unit interval. *)
Lemma np_random_uniform_entry (g g' : rng) (size : nat) (low high : list xreal)
    (v : list R) (i : nat) (lo hi : xreal) (x : R) :
  unit_interval_generator L ->
  np_random_uniform g size low high = (Ok v, g') ->
  low !! i = Some lo -> high !! i = Some hi -> v !! i = Some x ->
  exists a b u, lo = Finite a /\ hi = Finite b
    /\ x = (a + (b - a) * u)%R /\ (0 <= u < 1)%R.
Proof.
  intros Hgen. unfold np_random_uniform. intros H Hlo Hhi Hx.
  destruct (broadcast2 finite_range low high) as [ranges|e] eqn:Hb; [|discriminate].
  destruct (all_some ranges) as [lr|] eqn:Hall; [|discriminate].
  destruct (_ || _); [|discriminate].
  destruct (random_sample g size) as [u g1] eqn:Hu.
  injection H as H <-.
  destruct (Hgen g size) as [_ Hunit]. rewrite Hu in Hunit. simpl in Hunit.
  rewrite Forall_forall in Hunit.
  destruct (broadcast2_entry _ _ _ _ _ _ H Hx) as (p & ui & -> & Hp & Hui).
  assert (Hin : In ui u).
  { destruct Hui as [Hui | ->]; [|left; reflexivity].
    apply list_elem_of_In, list_elem_of_lookup. eauto. }
  pose proof (all_some_length _ _ Hall) as Hlen.
  pose proof (lookup_lt_Some _ _ _ Hlo) as Hilo.
  pose proof (lookup_lt_Some _ _ _ Hhi) as Hihi.
  assert (Hpi : lr !! i = Some p).
  { destruct Hp as [Hp | ->]; [exact Hp|].
    destruct i as [|i]; [reflexivity|]. simpl in Hlen.
    destruct (broadcast2_length _ _ _ _ Hb) as [[? ?] | [[? ?] | [? ?]]]; lia. }
  assert (exists o, ranges !! i = Some o) as [o Ho].
  { apply lookup_lt_is_Some_2. rewrite <- Hlen. eapply lookup_lt_Some; eassumption. }
  destruct (all_some_lookup _ _ _ _ Hall Ho) as (p' & -> & Hp').
  assert (p' = p) as -> by congruence.
  destruct (broadcast2_entry _ _ _ _ _ _ Hb Ho) as (l & h & Hfr & Hl & Hh).
  pose proof (lookup_or_singleton _ _ _ _ Hlo Hl) as ->.
  pose proof (lookup_or_singleton _ _ _ _ Hhi Hh) as ->.
  unfold finite_range in Hfr. destruct lo as [a| |]; try discriminate.
  destruct hi as [b| |]; try discriminate. injection Hfr as ->.
  exists a, b, ui. simpl. repeat split; apply Hunit, list_elem_of_In; exact Hin.
Qed.

(** The start vector lies within the bounds, wherever the lower bound is not
    above the upper one. *)
Lemma start_values_within lb0 ub0 lbK ubK (g g' : rng) (N : nat) (par0 : list R)
    (i : nat) (lo hi : xreal) (x : R) :
  unit_interval_generator L ->
  start_values lb0 ub0 lbK ubK g N = (Ok par0, g') ->
  nlin_lower lb0 lbK N !! i = Some lo ->
  nlin_upper ub0 ubK N !! i = Some hi ->
  par0 !! i = Some x ->
  xle lo hi ->
  within lo hi x.
Proof.
  intros Hgen Hstart Hlo Hhi Hx Hle. unfold start_values in Hstart.
  destruct (np_random_uniform_entry _ _ _ _ _ _ _ _ _ _ Hgen Hstart Hlo Hhi Hx)
    as (a & b & u & -> & -> & -> & Hu).
  simpl in Hle. unfold within. simpl. split; nra.
Qed.

(** A turn reads the state of the generator only to overwrite it. *)
Lemma fit_candidate_seeded Kmodel nKparam nparam r V weights lb0 ub0 lbK ubK
    (g1 g2 : rng) (N : nat) :
  fit_candidate Kmodel nKparam nparam r V weights lb0 ub0 lbK ubK (no_candidates g1) N
  = fit_candidate Kmodel nKparam nparam r V weights lb0 ub0 lbK ubK (no_candidates g2) N.
Proof. reflexivity. Qed.

Lemma fit_candidates_seeded Kmodel nKparam nparam r V weights lb0 ub0 lbK ubK
    (maxModels : Z) (g1 g2 : rng) :
  (1 <= maxModels)%Z ->
  fit_candidates Kmodel nKparam nparam r V weights lb0 ub0 lbK ubK maxModels g1
  = fit_candidates Kmodel nKparam nparam r V weights lb0 ub0 lbK ubK maxModels g2.
Proof.
  intros Hmax. unfold fit_candidates.
  destruct (Z.to_nat maxModels) as [|m] eqn:E; [lia|].
  simpl. rewrite (fit_candidate_seeded _ _ _ _ _ _ _ _ _ _ g1 g2). reflexivity.
Qed.

(** Everything after the arity check is the same whatever state the
    generator is in. *)
Lemma fit_with_kernel_seeded (a : fit_args) (nKparam : nat)
    (Kmodel : list R -> pyresult matrix) (g1 g2 : rng) :
  fit_with_kernel a nKparam Kmodel g1 = fit_with_kernel a nKparam Kmodel g2.
Proof.
  unfold fit_with_kernel.
  destruct (check_kernel_bounds _ _ _) as [[]|e]; bind_step; [|reflexivity].
  destruct (model_bounds _ _ _) as [[[nparam lb0] ub0]|e]; bind_step; [|reflexivity].
  destruct (Z_le_gt_dec 1 (arg_maxModels a)) as [Hmax | Hmax].
  - rewrite (fit_candidates_seeded _ _ _ _ _ _ _ _ _ _ _ g1 g2 Hmax). reflexivity.
  - unfold fit_candidates.
    replace (Z.to_nat (arg_maxModels a)) with 0%nat by lia. reflexivity.
Qed.

(** The arity loop of a kernel function whose success depends on the number
    of parameters only ends with the same arity from any state. *)
Lemma probe_loop_arity_decides (f : list R -> pyresult matrix) (fuel n : nat)
    (g1 g2 : rng) :
  unit_interval_generator L ->
  arity_decides f ->
  fst <$> probe_loop fuel f n g1 = fst <$> probe_loop fuel f n g2.
Proof.
  intros Hgen Hf. revert n g1 g2.
  induction fuel as [|fuel IH]; intros n g1 g2; simpl; [reflexivity|].
  unfold np_random_uniform01.
  destruct (random_sample g1 (n + 1)) as [x1 g1'] eqn:E1.
  destruct (random_sample g2 (n + 1)) as [x2 g2'] eqn:E2.
  assert (Hlen : length x1 = length x2).
  { destruct (Hgen g1 (n + 1)%nat) as [H1 _]. destruct (Hgen g2 (n + 1)%nat) as [H2 _].
    rewrite E1 in H1. rewrite E2 in H2. simpl in *. congruence. }
  pose proof (Hf _ _ Hlen) as Hok.
  destruct (f x1) as [K1|e1]; destruct (f x2) as [K2|e2]; simpl in Hok;
    try discriminate.
  - reflexivity.
  - apply IH.
Qed.
End StartValues.

Lemma Toy_unit_interval_generator : unit_interval_generator Toy.libs.
Proof.
  intros g n. simpl. unfold Toy.random_sample. simpl. split.
  - apply length_replicate.
  - apply Forall_replicate. unfold Toy.unit_draw. destruct (Nat.even g); lra.
Qed.

(** C7 (as amended).  With a generator that draws from the unit interval:
    the start vector of every candidate is drawn after the generator is
    seeded with [1], so it is the same whatever state the generator was in,
    and it lies within the candidate's non-linear bounds wherever the lower
    one is not above the upper one; everything the call computes once the
    kernel arity is known is the same from any state of the generator; and
    two runs of the whole function on the same arguments give the same
    outcome, from any two states, when the kernel is a matrix or a function
    whose success depends on the number of its parameters only.  The arity
    loop itself draws from the generator as it finds it. *)
Theorem C7_seeded_start_values {rng UQ gof : Type} (L : Libraries rng UQ gof) :
  unit_interval_generator L ->
  (forall lb0 ub0 lbK ubK (N : nat) (g1 g2 : rng),
      start_values lb0 ub0 lbK ubK g1 N = start_values lb0 ub0 lbK ubK g2 N)
  /\ (forall lb0 ub0 lbK ubK (N : nat) (g g' : rng) par0 i lo hi x,
        start_values lb0 ub0 lbK ubK g N = (Ok par0, g') ->
        nlin_lower lb0 lbK N !! i = Some lo ->
        nlin_upper ub0 ubK N !! i = Some hi ->
        par0 !! i = Some x ->
        xle lo hi ->
        within lo hi x)
  /\ (forall (a : fit_args) (nKparam : nat) (Kmodel : list R -> pyresult matrix)
             (g1 g2 : rng),
        fit_with_kernel a nKparam Kmodel g1 = fit_with_kernel a nKparam Kmodel g2)
  /\ (forall (fuel : nat) (a : fit_args) (g1 g2 : rng),
        match arg_Kmodel a with
        | KMatrix _ => True
        | KFunction f => arity_decides f
        end ->
        fitmultimodel fuel a g1 = fitmultimodel fuel a g2).
Proof.
  intros Hgen. split; [|split; [|split]].
  - reflexivity.
  - intros lb0 ub0 lbK ubK N g g' par0 i lo hi x.
    apply start_values_within. exact Hgen.
  - apply fit_with_kernel_seeded.
  - intros fuel a g1 g2 Hk. unfold fitmultimodel, check_kernel.
    destruct (arg_Kmodel a) as [f|K].
    + pose proof (probe_loop_arity_decides f fuel 0 g1 g2 Hgen Hk) as Hp.
      destruct (probe_loop fuel f 0 g1) as [[k1 g1']|];
        destruct (probe_loop fuel f 0 g2) as [[k2 g2']|]; simpl in Hp;
        try discriminate; [|reflexivity].
      injection Hp as ->. f_equal. apply fit_with_kernel_seeded.
    + f_equal. apply fit_with_kernel_seeded.
Qed.

(** C7, two runs in the small world from two states of the generator. *)
Lemma C7_seeded_start_values_witness :
  unit_interval_generator Toy.libs
  /\ Toy.run 0 (Toy.args 2 true true) 0%nat = Toy.run 0 (Toy.args 2 true true) 5%nat.
Proof.
  split; [exact Toy_unit_interval_generator|].
  apply (proj2 (proj2 (proj2 (C7_seeded_start_values Toy.libs
                                Toy_unit_interval_generator)))).
  exact I.
Defined.

(** C7 as stated fails: the kernel function of the small world that wants a
    modulation depth of at least one half is probed with [1/4] from the
    state [0] and with [3/4] from the state [1]; the first run ends with the
    arity 2 and raises at the check of the bounds, the second finds the arity
    1 and returns a fit. *)
Lemma C7_counterexample :
  Toy.run 2 (Toy.call Toy.picky_kernel [Finite 0] [Finite 1] 1 false false) 0%nat
    = Some (Raise ValueError)
  /\ exists res,
       Toy.run 2 (Toy.call Toy.picky_kernel [Finite 0] [Finite 1] 1 false false) 1%nat
       = Some (Ok res).
Proof.
  assert (Hlow : Rltb (1 / 4) (1 / 2) = true) by (apply Rltb_true; lra).
  assert (Hhigh : forall v, (1 / 2 <= v)%R -> Rltb v (1 / 2) = false)
    by (intros v Hv; apply Rltb_false; exact Hv).
  split.
  - unfold Toy.run, fitmultimodel.
    cbn -[Rltb fit_with_kernel]. rewrite Hlow. cbn -[Rltb fit_with_kernel].
    reflexivity.
  - unfold Toy.run, fitmultimodel.
    cbn -[Rltb fit_with_kernel]. rewrite (Hhigh (3 / 4)%R) by lra.
    match goal with
    | |- exists res, Some (fit_with_kernel _ _ ?f _) = _ =>
        assert (Hf : forall v, (1 / 2 <= v)%R -> f [v] = Ok Toy.identity2)
          by (intros v Hv; cbn -[Rltb]; rewrite (Hhigh v Hv); reflexivity);
        generalize dependent f
    end.
    intros f Hf.
    match goal with
    | |- exists res, Some ?m = Some (Ok res) =>
        assert (Hok : is_ok m = true)
    end.
    { vm_compute.
      match goal with
      | |- context [f [?v]] => rewrite (Hf v) by lra
      end.
      reflexivity. }
    apply is_ok_true in Hok as [res Hres]. exists res. rewrite Hres. reflexivity.
Qed.

(** * Further properties of the code *)

(** ** The estimators *)

(** What a call of the estimator bank that does not raise has computed. *)
Lemma estimator_values_Ok w (V Vfit plin pnonlin : list R) (e : estimators) :
  estimator_values w V Vfit plin pnonlin = Ok e ->
  exists residual,
    let Q := (len pnonlin + len plin + 1)%Z in
    let N := len V in
    let S := np_sum (map (fun x => x ^ 2)%R residual) in
    let logprob := (w * IZR N * ln (S / IZR N))%R in
    broadcast2 Rminus V Vfit = Ok residual
    /\ N <> 0%Z
    /\ (N - Q - 1)%Z <> 0%Z
    /\ est_rmsd e = (w * sqrt (IZR 1 / IZR N * S))%R
    /\ est_aic e = (logprob + IZR (2 * Q))%R
    /\ est_aicc e = (logprob + IZR (2 * Q) + IZR (2 * Q * (Q + 1)) / IZR (N - Q - 1))%R
    /\ est_bic e = (logprob + IZR Q * ln (IZR N))%R.
Proof.
  unfold estimator_values, py_int_truediv. intros H.
  bind_inv H. exists x.
  destruct (len V =? 0)%Z eqn:EN; [discriminate|]. bind_step_in H.
  destruct (len V - (len pnonlin + len plin + 1) - 1 =? 0)%Z eqn:EQ; [discriminate|].
  bind_step_in H. injection H as <-.
  apply Z.eqb_neq in EN, EQ. cbn [est_rmsd est_aic est_aicc est_bic].
  repeat split; assumption.
Qed.

Lemma np_sum_squares_nonneg (l : list R) : (0 <= np_sum (map (fun x => x ^ 2) l))%R.
Proof.
  induction l as [|x l IH]; simpl in *; [lra | nra].
Qed.

(** The correction of the corrected criterion is a penalty when there are
    more points than [Q + 1] and a bonus when there are fewer: for a fit
    whose residual sum of squares is not zero, the corrected criterion is
    above the plain one in the first case and below it in the second. *)
Theorem aicc_correction_sign w (V Vfit plin pnonlin residual : list R)
    (e : estimators) :
  estimator_values w V Vfit plin pnonlin = Ok e ->
  broadcast2 Rminus V Vfit = Ok residual ->
  np_sum (map (fun x => x ^ 2)%R residual) <> 0%R ->
  let Q := (len pnonlin + len plin + 1)%Z in
  ((0 < len V - Q - 1)%Z -> (est_aic e < est_aicc e)%R)
  /\ ((len V - Q - 1 < 0)%Z -> (est_aicc e < est_aic e)%R).
Proof.
  intros H _ _ Q.
  apply estimator_values_Ok in H
    as (residual' & _ & _ & _ & _ & Haic & Haicc & _).
  cbv zeta in Haic, Haicc. fold Q in Haic, Haicc.
  rewrite Haicc, Haic.
  assert (HQ : (1 <= Q)%Z) by (unfold Q, len; lia).
  assert (Hnum : (0 < IZR (2 * Q * (Q + 1)))%R) by (apply IZR_lt; nia).
  split; intros Hd.
  - assert (Hden : (0 < IZR (len V - Q - 1))%R) by (apply IZR_lt; lia).
    pose proof (Rdiv_lt_0_compat _ _ Hnum Hden). lra.
  - assert (Hden : (IZR (len V - Q - 1) < 0)%R) by (apply IZR_lt; lia).
    assert (Hneg : (IZR (2 * Q * (Q + 1)) / IZR (len V - Q - 1) < 0)%R).
    { unfold Rdiv. apply Rmult_pos_neg; [exact Hnum|].
      apply Rinv_lt_0_compat. exact Hden. }
    lra.
Qed.

(** The correction at work: seven points and three parameters ([Q = 4]),
    the last point missed by 1. *)
Lemma aicc_correction_sign_witness :
  exists e residual,
    estimator_values 1 [1; 2; 3; 4; 5; 6; 7]%R [1; 2; 3; 4; 5; 6; 8]%R [1%R] [2; 3]%R = Ok e
    /\ broadcast2 Rminus [1; 2; 3; 4; 5; 6; 7]%R [1; 2; 3; 4; 5; 6; 8]%R = Ok residual
    /\ np_sum (map (fun x => x ^ 2)%R residual) <> 0%R
    /\ (est_aic e < est_aicc e)%R.
Proof.
  eexists. eexists. split; [reflexivity|]. split; [reflexivity|].
  assert (HS : np_sum (map (fun x => x ^ 2)%R
                         (zip_with Rminus [1; 2; 3; 4; 5; 6; 7]%R
                            [1; 2; 3; 4; 5; 6; 8]%R)) <> 0%R).
  { unfold np_sum. simpl. lra. }
  split; [exact HS|].
  match goal with
  | |- (est_aic ?e < _)%R =>
      apply (proj1 (aicc_correction_sign 1 [1; 2; 3; 4; 5; 6; 7]%R
                      [1; 2; 3; 4; 5; 6; 8]%R [1%R] [2; 3]%R _ e eq_refl eq_refl HS))
  end.
  vm_compute. reflexivity.
Defined.

Lemma broadcast2_minus_self (V : list R) :
  exists residual,
    broadcast2 Rminus V V = Ok residual /\ Forall (fun x => x = 0%R) residual.
Proof.
  exists (zip_with Rminus V V). split; [apply broadcast2_same_length; reflexivity|].
  induction V as [|x V IH]; simpl; constructor; [lra | exact IH].
Qed.

Lemma np_sum_squares_zero (l : list R) :
  Forall (fun x => x = 0%R) l -> np_sum (map (fun x => x ^ 2)%R l) = 0%R.
Proof.
  induction 1 as [|x l Hx _ IH]; simpl; [reflexivity|].
  simpl in IH. rewrite IH, Hx. lra.
Qed.

(** The root-mean-square deviation is not negative when the weight is not,
    and it is zero when the fitted signal is the signal. *)
Theorem rmsd_nonnegative w (V Vfit plin pnonlin : list R) (e : estimators) :
  estimator_values w V Vfit plin pnonlin = Ok e ->
  ((0 <= w)%R -> (0 <= est_rmsd e)%R)
  /\ (Vfit = V -> est_rmsd e = 0%R).
Proof.
  intros H.
  apply estimator_values_Ok in H as (residual & Hres & _ & _ & Hrmsd & _).
  cbv zeta in Hrmsd. rewrite Hrmsd. split.
  - intros Hw. apply Rmult_le_pos; [exact Hw | apply sqrt_pos].
  - intros ->. destruct (broadcast2_minus_self V) as (z & Hz & Hzero).
    rewrite Hz in Hres. injection Hres as <-.
    rewrite (np_sum_squares_zero _ Hzero), Rmult_0_r, sqrt_0. lra.
Qed.

(** A perfect fit of three points with one parameter of each kind. *)
Lemma rmsd_nonnegative_witness :
  exists e,
    estimator_values 1 [1; 2; 3]%R [1; 2; 3]%R [1%R] [2%R] = Ok e
    /\ est_rmsd e = 0%R.
Proof.
  eexists. split; [reflexivity|].
  match goal with
  | |- est_rmsd ?e = _ =>
      apply (proj2 (rmsd_nonnegative 1 [1; 2; 3]%R [1; 2; 3]%R [1%R] [2%R] e eq_refl))
  end.
  reflexivity.
Defined.

(** ** The bounds of the shape parameters *)





Lemma mask_assign_Ok {A} (a : list A) (mask : list bool) (v : A) (a' : list A) :
  mask_assign a mask v = Ok a' ->
  length a = length mask
  /\ length a' = length mask
  /\ forall i (m : bool), mask !! i = Some m ->
        a' !! i = if m then Some v else a !! i.
Proof.
  unfold mask_assign. destruct (length a =? length mask)%nat eqn:E; [|discriminate].
  apply Nat.eqb_eq in E. intros [= <-]. split; [exact E|]. split.
  - rewrite length_zip_with. lia.
  - intros i m Hm. rewrite lookup_zip_with, Hm.
    destruct (a !! i) as [x|] eqn:Ha; simpl.
    + destruct m; reflexivity.
    + apply lookup_ge_None in Ha. apply lookup_lt_Some in Hm. lia.
Qed.




Lemma mask_assign_float_Ok (a a' : bound_array) (mask : list bool) (v : R) :
  mask_assign_float a mask v = Ok a' ->
  length (bound_values a) = length mask
  /\ length (bound_values a') = length mask
  /\ forall i (m : bool), mask !! i = Some m ->
        bound_values a' !! i
        = if m then Some (Finite (stored_as a v)) else bound_values a !! i.
Proof.
  destruct a as [l|l]; unfold mask_assign_float; intros H.
  - destruct (mask_assign l mask (Finite v)) as [l'|e] eqn:E; [|discriminate].
    injection H as <-. exact (mask_assign_Ok _ _ _ _ E).
  - destruct (mask_assign l mask (np_trunc v)) as [l'|e] eqn:E; [|discriminate].
    injection H as <-. apply mask_assign_Ok in E as (L1 & L2 & Hentries).
    cbn [bound_values stored_as]. rewrite !List.length_map.
    split; [exact L1|]. split; [exact L2|].
    intros i m Hm. rewrite !lookup_map, (Hentries i m Hm).
    destruct m; reflexivity.
Qed.

Section ShapeBounds.
Context {rng UQ gof : Type} {L : Libraries rng UQ gof}.


(** When the resolver returns: the model gives its metadata and, if some
    parameter is a centre, the axis is not empty and both bound vectors have
    one entry for each parameter name.  With an empty axis [max(r)] raises,
    with another number of bounds the mask assignment does. *)
Theorem model_bounds_returns (r : list R) (lb ub : bound_array) :
  is_ok (model_bounds r lb ub) = true <->
  exists info,
    model_info_call = Ok info
    /\ (existsb (fun b : bool => b) (map is_center_distance (Parameters info)) = true ->
        r <> []
        /\ length (bound_values (chosen_bounds lb (Lower info)))
           = length (Parameters info)
        /\ length (bound_values (chosen_bounds ub (Upper info)))
           = length (Parameters info)).
Proof.
  unfold model_bounds. split.
  - destruct model_info_call as [info|e]; [|discriminate]. bind_step.
    fold (chosen_bounds lb (Lower info)). fold (chosen_bounds ub (Upper info)).
    intros H. exists info. split; [reflexivity|]. intros Hany. rewrite Hany in H.
    apply is_ok_true in H as [b H].
    bind_inv H. bind_inv H. bind_inv H. bind_inv H.
    apply mask_assign_float_Ok in Hx0 as (Lu & _).
    apply mask_assign_float_Ok in Hx2 as (Ll & _).
    rewrite List.length_map in Lu, Ll.
    split; [|split; assumption]. intros ->. discriminate.
  - intros (info & -> & Hc). bind_step.
    fold (chosen_bounds lb (Lower info)). fold (chosen_bounds ub (Upper info)).
    destruct (existsb _ _); [|reflexivity].
    destruct (Hc eq_refl) as (Hr & Ll & Lu).
    destruct r as [|x r]; [congruence|]. cbn [py_max py_min]. bind_step.
    assert (Hassign : forall a v,
               length (bound_values a) = length (Parameters info) ->
               exists a', mask_assign_float a
                            (map is_center_distance (Parameters info)) v = Ok a').
    { intros [l|l] v Hl; cbn [bound_values] in Hl; unfold mask_assign_float, mask_assign;
        rewrite ?List.length_map in *; rewrite Hl, Nat.eqb_refl; eauto. }
    destruct (Hassign (chosen_bounds ub (Upper info))
                (fold_left (fun m y => if Rltb m y then y else m) r x) Lu) as [ub' ->].
    bind_step.
    destruct (Hassign (chosen_bounds lb (Lower info))
                (fold_left (fun m y => if Rltb y m then y else m) r x) Ll) as [lb' ->].
    reflexivity.
Qed.
End ShapeBounds.


(** ** The augmented kernel and the distribution, component by component *)

Lemma for_each_app {A S} (body : S -> A -> pyresult S) (xs ys : list A) (s : S) :
  for_each body (xs ++ ys) s = s' ← for_each body xs s; for_each body ys s'.
Proof.
  revert s. induction xs as [|x xs IH]; intros s; simpl; [reflexivity|].
  destruct (body s x) as [s1|e]; simpl; [apply IH | reflexivity].
Qed.

Lemma traverse_app {A B} (f : A -> pyresult B) (xs ys : list A) :
  traverse f (xs ++ ys)
  = us ← traverse f xs; vs ← traverse f ys; Ok (us ++ vs).
Proof.
  induction xs as [|x xs IH]; simpl.
  - destruct (traverse f ys); reflexivity.
  - destruct (f x) as [y|e]; simpl; [|reflexivity]. rewrite IH.
    destruct (traverse f xs) as [us|e]; simpl; [|reflexivity].
    destruct (traverse f ys) as [vs|e]; reflexivity.
Qed.

Lemma traverse_lookup {A B} (f : A -> pyresult B) (xs : list A) (ys : list B)
    (i : nat) (x : A) :
  traverse f xs = Ok ys -> xs !! i = Some x ->
  exists y, f x = Ok y /\ ys !! i = Some y.
Proof.
  revert ys i. induction xs as [|x' xs IH]; intros ys i H Hi; [inversion Hi|].
  simpl in H. bind_inv H. bind_inv H. injection H as <-.
  destruct i as [|i]; simpl in Hi.
  - injection Hi as ->. eauto.
  - apply (IH _ _ Hx1 Hi).
Qed.

(** Integer-array indexing with [np.arange(start, start + n)] is the slice
    [a[start : start + n]] when the slice is inside the array. *)
Lemma take_idx_arange {A} (a : list A) (start n : nat) :
  (start + n <= length a)%nat ->
  take_idx a (np_arange start n) = Ok (take n (drop start a)).
Proof.
  revert start. induction n as [|n IH]; intros start Hlen; [reflexivity|].
  unfold take_idx, np_arange in *. cbn [seq traverse].
  destruct (lookup_lt_is_Some_2 a start ltac:(lia)) as [x Hx].
  rewrite (proj2 (list_index_Ok a start x) Hx). bind_step.
  rewrite IH by lia. bind_step.
  rewrite (drop_S _ _ _ Hx). reflexivity.
Qed.

Lemma take_idx_empty {A} (a : list A) (start : nat) :
  take_idx a (np_arange start 0) = Ok [].
Proof. reflexivity. Qed.

Lemma take_idx_slice {A} (a : list A) (start n : nat) (ys : list A) :
  take_idx a (np_arange start n) = Ok ys -> ys = take n (drop start a).
Proof.
  intros H. destruct n as [|n].
  - injection H as <-. reflexivity.
  - pose proof (take_idx_arange_bound _ _ _ _ H ltac:(lia)) as Hb.
    rewrite take_idx_arange in H by exact Hb. congruence.
Qed.

Section Components.
Context {rng UQ gof : Type} {L : Libraries rng UQ gof}.
Variable Kmodel : list R -> pyresult matrix.
Variables nKparam nparam : nat.
Variable r : list R.

(** The shape parameters of component [i] in a non-linear vector. *)
Local Abbreviation shape_slice par i :=
  (take nparam (drop (nKparam + i * nparam) par)).

(** The loop of [nonlinmodel] fills the columns from the left. *)
Lemma nonlinmodel_loop_columns (K : matrix) (par : list R) (m : nat)
    (Knonlin : list (list R)) :
  (m <= length Knonlin)%nat ->
  (nKparam + m * nparam <= length par)%nat ->
  for_each (nonlinmodel_body nparam r K par) (seq 0 m) (nKparam, Knonlin)
  = cols ← traverse (fun i => Pbasis ← model r (shape_slice par i); matvec K Pbasis)
             (seq 0 m);
    Ok ((nKparam + m * nparam)%nat, cols ++ drop m Knonlin).
Proof.
  induction m as [|m IH]; intros Hm Hpar.
  - simpl. rewrite Nat.add_0_r. reflexivity.
  - rewrite seq_S, for_each_app, traverse_app. simpl plus.
    rewrite IH by lia.
    destruct (traverse _ (seq 0 m)) as [cols|e] eqn:Hcols; bind_step; [|reflexivity].
    pose proof (traverse_length _ _ _ Hcols) as Hlen. rewrite length_seq in Hlen.
    cbn [for_each traverse]. unfold nonlinmodel_body at 1.
    rewrite take_idx_arange by lia. bind_step.
    destruct (model r _) as [Pbasis|e]; bind_step; [|reflexivity].
    destruct (matvec K Pbasis) as [column|e]; bind_step; [|reflexivity].
    f_equal. f_equal; [lia|].
    rewrite insert_app_r_alt by lia. rewrite Hlen, Nat.sub_diag.
    destruct (drop m Knonlin) as [|c0 rest] eqn:Hdrop.
    { apply (f_equal length) in Hdrop. rewrite length_drop in Hdrop. simpl in Hdrop. lia. }
    simpl. rewrite <- app_assoc. simpl. do 2 f_equal.
    change rest with (drop 1 (c0 :: rest)). rewrite <- Hdrop, drop_drop.
    f_equal. lia.
Qed.

(** With enough parameters, [nonlinmodel] is: the kernel of the first
    [nKparam] parameters, then one column for each component, the kernel
    applied to the basis function of that component's slice. *)
Lemma nonlinmodel_explicit (par : list R) (Nmodels : nat) :
  (nKparam + Nmodels * nparam <= length par)%nat ->
  nonlinmodel Kmodel nKparam nparam r par Nmodels
  = K ← Kmodel (take nKparam par);
    cols ← traverse (fun i => Pbasis ← model r (shape_slice par i); matvec K Pbasis)
             (seq 0 Nmodels);
    Ok (from_columns (shape0 K) cols).
Proof.
  intros Hlen. unfold nonlinmodel.
  rewrite take_idx_arange by lia. bind_step. rewrite drop_0.
  destruct (Kmodel (take nKparam par)) as [K|e]; bind_step; [|reflexivity].
  rewrite nonlinmodel_loop_columns by (rewrite ?length_replicate; lia).
  destruct (traverse _ _) as [cols|e]; bind_step; [|reflexivity].
  cbn [snd]. rewrite drop_ge by (rewrite length_replicate; lia).
  rewrite app_nil_r. reflexivity.
Qed.

(** The columns of the augmented kernel, one by one. *)
Lemma nonlinmodel_Ok_columns (par : list R) (Nmodels : nat) (M : matrix) :
  nonlinmodel Kmodel nKparam nparam r par Nmodels = Ok M ->
  exists K cols,
    Kmodel (take nKparam par) = Ok K
    /\ M = from_columns (shape0 K) cols
    /\ length cols = Nmodels
    /\ forall i, (i < Nmodels)%nat ->
         exists Pbasis column,
           model r (shape_slice par i) = Ok Pbasis
           /\ matvec K Pbasis = Ok column
           /\ cols !! i = Some column.
Proof.
  intros H. pose proof (nonlinmodel_reads _ _ _ _ _ _ _ H) as Hlen.
  rewrite nonlinmodel_explicit in H by exact Hlen.
  bind_inv H. bind_inv H. injection H as <-. rename x into K, x0 into cols.
  pose proof (traverse_length _ _ _ Hx0) as Hcols. rewrite length_seq in Hcols.
  exists K, cols. repeat split; [exact Hx | exact Hcols |].
  intros i Hi.
  destruct (traverse_lookup _ _ _ i i Hx0) as (column & Hcol & Hlook).
  { apply lookup_seq. lia. }
  bind_inv Hcol. eauto.
Qed.

(** The augmented kernel of a call that returns: as many rows as the kernel,
    one column for each component, and column [i] is the kernel applied to
    the basis function evaluated at the shape parameters
    [par[nKparam + i*nparam : nKparam + (i+1)*nparam]]. *)
Theorem nonlinmodel_columns (par : list R) (Nmodels : nat) (M : matrix) :
  nonlinmodel Kmodel nKparam nparam r par Nmodels = Ok M ->
  exists K cols,
    Kmodel (take nKparam par) = Ok K
    /\ M = from_columns (shape0 K) cols
    /\ shape0 M = shape0 K
    /\ shape1 M = Nmodels
    /\ forall i, (i < Nmodels)%nat ->
         exists Pbasis column,
           model r (shape_slice par i) = Ok Pbasis
           /\ matvec K Pbasis = Ok column
           /\ cols !! i = Some column.
Proof.
  intros H.
  destruct (nonlinmodel_Ok_columns _ _ _ H) as (K & cols & HK & -> & Hlen & Hcols).
  exists K, cols. split; [exact HK|]. split; [reflexivity|].
  split; [reflexivity|]. split; [exact Hlen|]. exact Hcols.
Qed.

Lemma traverse_ext_in {A B} (f g : A -> pyresult B) (xs : list A) :
  (forall x, In x xs -> f x = g x) -> traverse f xs = traverse g xs.
Proof.
  induction xs as [|x xs IH]; intros H; simpl; [reflexivity|].
  rewrite (H x (or_introl eq_refl)), IH; [reflexivity|].
  intros y Hy. apply H. right. exact Hy.
Qed.

Lemma shape_slice_app (par rest : list R) (i Nmodels : nat) :
  (nKparam + Nmodels * nparam <= length par)%nat -> (i < Nmodels)%nat ->
  shape_slice (par ++ rest) i = shape_slice par i.
Proof.
  intros Hlen Hi.
  assert (Hi' : (nKparam + i * nparam + nparam <= length par)%nat) by nia.
  rewrite drop_app_le by lia.
  rewrite take_app_le; [reflexivity|]. rewrite length_drop. lia.
Qed.

(** Parameters after the first [nKparam + Nmodels*nparam] are never read:
    a longer vector with the same beginning gives the same result, a matrix
    or an exception. *)
Theorem nonlinmodel_ignores_rest (par rest : list R) (Nmodels : nat) :
  (nKparam + Nmodels * nparam <= length par)%nat ->
  nonlinmodel Kmodel nKparam nparam r (par ++ rest) Nmodels
  = nonlinmodel Kmodel nKparam nparam r par Nmodels.
Proof.
  intros Hlen.
  rewrite !nonlinmodel_explicit by (rewrite ?length_app; lia).
  rewrite take_app_le by lia.
  destruct (Kmodel (take nKparam par)) as [K|e]; bind_step; [|reflexivity].
  rewrite (traverse_ext_in _
             (fun i => Pbasis ← model r (shape_slice par i); matvec K Pbasis));
    [reflexivity|].
  intros i Hi. apply in_seq in Hi.
  rewrite (shape_slice_app par rest i Nmodels Hlen) by lia. reflexivity.
Qed.
End Components.

(** The augmented kernel of one component in the small world. *)
Lemma nonlinmodel_columns_witness :
  exists M,
    nonlinmodel (L := Toy.libs) (fun _ => Ok Toy.identity2) 0 1 [1; 2]%R [5%R] 1 = Ok M
    /\ shape0 M = 2%nat /\ shape1 M = 1%nat.
Proof.
  eexists. split; [reflexivity|].
  match goal with
  | |- shape0 ?M = _ /\ _ =>
      destruct (nonlinmodel_columns (L := Toy.libs) (fun _ => Ok Toy.identity2) 0 1
                  [1; 2]%R [5%R] 1 M eq_refl)
        as (K & cols & HK & _ & H0 & H1 & _)
  end.
  injection HK as <-. split; [exact H0 | exact H1].
Defined.

(** Two more entries after the parameters of the one component. *)
Lemma nonlinmodel_ignores_rest_witness :
  (0 + 1 * 1 <= length [5%R])%nat
  /\ nonlinmodel (L := Toy.libs) (fun _ => Ok Toy.identity2) 0 1 [1; 2]%R
       ([5%R] ++ [7; 8]%R) 1
     = nonlinmodel (L := Toy.libs) (fun _ => Ok Toy.identity2) 0 1 [1; 2]%R [5%R] 1.
Proof.
  split; [simpl; lia|].
  apply (nonlinmodel_ignores_rest (L := Toy.libs)). simpl. lia.
Defined.

(** ** The distribution as a weighted sum *)

Lemma nd_add_nonneg (P Q R : ndarray) :
  nd_nonneg P -> nd_nonneg Q -> nd_add P Q = Ok R -> nd_nonneg R.
Proof.
  destruct P as [x|a], Q as [y|b]; simpl; intros HP HQ H.
  - injection H as <-. simpl. lra.
  - injection H as <-. simpl. apply Forall_map.
    eapply Forall_impl; [exact HQ|]. simpl. intros; lra.
  - injection H as <-. simpl. apply Forall_map.
    eapply Forall_impl; [exact HP|]. simpl. intros; lra.
  - apply fmap_Ok in H as (c & Hc & ->). simpl.
    apply Forall_lookup. intros i z Hz.
    destruct (broadcast2_entry _ _ _ _ _ _ Hc Hz) as (x & y & -> & Hx & Hy).
    assert (0 <= x)%R.
    { rewrite Forall_forall in HP. apply HP.
      destruct Hx as [Hx | ->]; [|constructor].
      apply list_elem_of_lookup. eauto. }
    assert (0 <= y)%R.
    { rewrite Forall_forall in HQ. apply HQ.
      destruct Hy as [Hy | ->]; [|constructor].
      apply list_elem_of_lookup. eauto. }
    lra.
Qed.

Section Distribution.
Context {rng UQ gof : Type} {L : Libraries rng UQ gof}.
Variables nKparam nparam : nat.
Variable r : list R.

(** What the loop of [Pmodel] has done when it does not raise: one basis
    function for each amplitude, from consecutive slices, added up from the
    left. *)
Lemma Pmodel_loop_Ok (nlinpar linpar : list R) (paramsused : nat) (P0 : ndarray)
    (s : nat * ndarray) :
  for_each (Pmodel_body nparam r nlinpar) linpar (paramsused, P0) = Ok s ->
  exists bs,
    length bs = length linpar
    /\ (forall j, (j < length linpar)%nat ->
          exists B, bs !! j = Some B
            /\ model r (take nparam (drop (paramsused + j * nparam) nlinpar)) = Ok B)
    /\ for_each add_component (zip linpar bs) P0 = Ok s.2.
Proof.
  revert paramsused P0. induction linpar as [|a linpar IH]; intros pu P0 H; simpl in H.
  - injection H as <-. exists []. repeat split. intros j Hj. simpl in Hj. lia.
  - bind_inv H. unfold Pmodel_body in Hx.
    bind_inv Hx. bind_inv Hx. bind_inv Hx. injection Hx as <-.
    apply take_idx_slice in Hx0. subst x0.
    destruct (IH _ _ H) as (bs & Hlen & Hbs & Hfold).
    exists (x1 :: bs). split; [simpl; lia|]. split.
    + intros [|j] Hj.
      * exists x1. split; [reflexivity|]. rewrite Nat.add_0_r. exact Hx1.
      * destruct (Hbs j ltac:(simpl in Hj; lia)) as (B & HB & Hm).
        exists B. split; [exact HB|].
        replace (pu + S j * nparam)%nat with (pu + nparam + j * nparam)%nat by lia.
        exact Hm.
    + change (zip (a :: linpar) (x1 :: bs)) with ((a, x1) :: zip linpar bs).
      cbn [for_each]. unfold add_component in *. cbn [fst snd].
      rewrite Hx2. bind_step. exact Hfold.
Qed.

(** With amplitudes that are not negative and a basis model whose values
    are not negative, the distribution has no negative value. *)
Theorem Pmodel_nonnegative (nlinpar linpar : list R) (P : ndarray) :
  nonnegative_basis L ->
  Forall (fun amp => (0 <= amp)%R) linpar ->
  Pmodel nKparam nparam r nlinpar linpar = Ok P ->
  nd_nonneg P.
Proof.
  intros Hbasis Hamp H. unfold Pmodel in H. bind_inv H. injection H as <-.
  assert (Hgen : forall l pu P0 s,
             Forall (fun amp => (0 <= amp)%R) l -> nd_nonneg P0 ->
             for_each (Pmodel_body nparam r nlinpar) l (pu, P0) = Ok s ->
             nd_nonneg s.2).
  { induction l as [|a l IH]; intros pu P0 s Hl HP0 Hs; simpl in Hs.
    - injection Hs as <-. exact HP0.
    - bind_inv Hs. inversion Hl as [|? ? Ha Hl']; subst.
      unfold Pmodel_body in Hx0.
      bind_inv Hx0. bind_inv Hx0. bind_inv Hx0. injection Hx0 as <-.
      eapply IH; [exact Hl' | | exact Hs].
      eapply nd_add_nonneg; [exact HP0 | | exact Hx3].
      simpl. unfold np_scale. apply Forall_map.
      eapply Forall_impl; [exact (Hbasis _ _ _ Hx2)|].
      simpl. intros y Hy. apply Rmult_le_pos; assumption. }
  eapply Hgen; [exact Hamp | | exact Hx]. simpl. lra.
Qed.
End Distribution.

Lemma Toy_nonnegative_basis : nonnegative_basis Toy.libs.
Proof.
  intros r par b. simpl. unfold Toy.model. intros [= <-].
  apply Forall_map. apply Forall_forall. intros; lra.
Qed.

(** A distribution of two components in the small world. *)
Lemma Pmodel_nonnegative_witness :
  nonnegative_basis Toy.libs
  /\ Forall (fun amp => (0 <= amp)%R) [1; 2]%R
  /\ exists P,
       Pmodel (L := Toy.libs) 0 1 [1; 2]%R [5; 6]%R [1; 2]%R = Ok P /\ nd_nonneg P.
Proof.
  split; [exact Toy_nonnegative_basis|].
  assert (Hamp : Forall (fun amp => (0 <= amp)%R) [1; 2]%R)
    by (repeat constructor; lra).
  split; [exact Hamp|].
  eexists. split; [reflexivity|].
  eapply (Pmodel_nonnegative (L := Toy.libs) 0 1 [1; 2]%R [5; 6]%R [1; 2]%R).
  - exact Toy_nonnegative_basis.
  - exact Hamp.
  - reflexivity.
Defined.

(** ** The fitted signal is the kernel applied to the distribution *)

Lemma dot_zip_plus (row u v : list R) :
  length u = length v ->
  dot row (zip_with Rplus u v) = (dot row u + dot row v)%R.
Proof.
  unfold dot. revert u v. induction row as [|x row IH]; intros u v Hlen.
  - simpl. lra.
  - destruct u as [|a u], v as [|b v]; simpl in Hlen; try discriminate.
    + simpl. lra.
    + simpl. rewrite IH by lia. lra.
Qed.

Lemma dot_scale (row B : list R) (a : R) :
  dot row (np_scale a B) = (a * dot row B)%R.
Proof.
  unfold dot, np_scale. revert B. induction row as [|x row IH]; intros B.
  - simpl. lra.
  - destruct B as [|b B]; simpl; [lra|]. rewrite IH. lra.
Qed.

Lemma dot_zero_plus (row X : list R) :
  dot row (map (fun y => 0 + y)%R X) = dot row X.
Proof.
  unfold dot. revert X. induction row as [|x row IH]; intros X.
  - reflexivity.
  - destruct X as [|b X]; simpl; [reflexivity|]. rewrite IH. lra.
Qed.

(** Adding components of one length to an array of that length. *)
Lemma add_components_array (c : nat) (l : list (R * list R)) (acc : list R)
    (P : ndarray) :
  length acc = c ->
  Forall (fun ab => length ab.2 = c) l ->
  for_each add_component l (Array acc) = Ok P ->
  exists Pa, P = Array Pa /\ length Pa = c
    /\ forall row,
         dot row Pa
         = (dot row acc + np_sum (map (fun ab => ab.1 * dot row ab.2) l))%R.
Proof.
  revert acc. induction l as [|[a B] l IH]; intros acc Hacc Hl H.
  - injection H as <-. exists acc. split; [reflexivity|]. split; [exact Hacc|].
    intros row. simpl. lra.
  - inversion Hl as [|? ? HB Hl']; subst. simpl in HB.
    cbn [for_each] in H. bind_inv H.
    unfold add_component in Hx. cbn [fst snd nd_add] in Hx.
    assert (HaB : length acc = length (np_scale a B))
      by (unfold np_scale; rewrite List.length_map; congruence).
    rewrite broadcast2_same_length in Hx by exact HaB.
    injection Hx as <-.
    destruct (IH (zip_with Rplus acc (np_scale a B))) as (Pa & -> & HPa & Hdot);
      [rewrite length_zip_with; lia | exact Hl' | exact H |].
    exists Pa. split; [reflexivity|]. split; [exact HPa|].
    intros row. rewrite Hdot, dot_zip_plus, dot_scale by exact HaB.
    simpl. lra.
Qed.

(** Adding at least one component to the scalar [0]. *)
Lemma add_components_from_zero (c : nat) (l : list (R * list R)) (P : ndarray) :
  l <> [] ->
  Forall (fun ab => length ab.2 = c) l ->
  for_each add_component l (Scalar 0) = Ok P ->
  exists Pa, P = Array Pa /\ length Pa = c
    /\ forall row, dot row Pa = np_sum (map (fun ab => (ab.1 * dot row ab.2)%R) l).
Proof.
  destruct l as [|[a B] l]; [congruence|]. intros _ Hl H.
  inversion Hl as [|? ? HB Hl']; subst. cbn [snd] in *.
  cbn [for_each] in H. bind_inv H.
  unfold add_component in Hx. cbn [fst snd nd_add] in Hx. injection Hx as <-.
  destruct (add_components_array (length B) l
              (map (fun y => (0 + y)%R) (np_scale a B)) P) as (Pa & -> & HPa & Hdot);
    [unfold np_scale; rewrite !List.length_map; reflexivity | exact Hl' | exact H |].
  exists Pa. split; [reflexivity|]. split; [exact HPa|].
  intros row. rewrite Hdot, dot_zero_plus, dot_scale. simpl. lra.
Qed.

Lemma matvec_Ok (K : matrix) (v column : list R) :
  matvec K v = Ok column ->
  shape1 K = length v /\ column = map (fun row => dot row v) (rows_of K).
Proof.
  unfold matvec. destruct (shape1 K =? length v)%nat eqn:E; [|discriminate].
  apply Nat.eqb_eq in E. intros [= <-]. split; [exact E | reflexivity].
Qed.

Section Separability.
Context {rng UQ gof : Type} {L : Libraries rng UQ gof}.
Variable Kmodel : list R -> pyresult matrix.
Variables nKparam nparam : nat.
Variable r : list R.

(** Separability.  For a non-linear vector [par] and at least one amplitude:
    when the augmented kernel and the distribution are both built without an
    exception, and the kernel matrix has as many rows as its shape says, then
    the augmented kernel applied to the amplitudes is the kernel matrix
    applied to the distribution. *)
Theorem signal_is_kernel_of_distribution (par plin : list R) (K M : matrix)
    (P : ndarray) :
  Kmodel (take nKparam par) = Ok K ->
  rows_match_shape K ->
  plin <> [] ->
  nonlinmodel Kmodel nKparam nparam r par (length plin) = Ok M ->
  Pmodel nKparam nparam r par plin = Ok P ->
  exists Pa signal,
    P = Array Pa
    /\ length Pa = shape1 K
    /\ matvec M plin = Ok signal
    /\ matvec K Pa = Ok signal.
Proof.
  intros HK Hrows Hne HM HP.
  destruct (nonlinmodel_Ok_columns _ _ _ _ _ _ _ HM)
    as (K' & cols & HK' & -> & Hshape1 & Hcols).
  rewrite HK in HK'. injection HK' as <-.
  unfold Pmodel in HP. bind_inv HP. injection HP as <-.
  destruct (Pmodel_loop_Ok _ _ _ _ _ _ _ Hx) as (bs & Hbs_len & Hbs & Hfold).
  (* every basis function has as many entries as the kernel has columns, and
     every column is the kernel applied to it *)
  assert (Hcol : forall j, (j < length plin)%nat ->
             exists B, bs !! j = Some B /\ length B = shape1 K
               /\ cols !! j = Some (map (fun row => dot row B) (rows_of K))).
  { intros j Hj.
    destruct (Hbs j Hj) as (B & HB & Hmodel).
    destruct (Hcols j Hj) as (Pbasis & column & Hmodel' & Hmv & Hcolj).
    rewrite Hmodel in Hmodel'. injection Hmodel' as <-.
    apply matvec_Ok in Hmv as [Hs ->]. exists B. auto. }
  assert (Hall : Forall (fun ab : R * list R => length ab.2 = shape1 K) (zip plin bs)).
  { apply Forall_lookup. intros j [a B] Hj.
    apply lookup_zip_with_Some in Hj as (a' & B' & [= <- <-] & Ha & HB).
    destruct (Hcol j) as (B'' & HB'' & Hlen & _).
    { eapply lookup_lt_Some; eassumption. }
    simpl. congruence. }
  assert (Hzip_ne : zip plin bs <> []).
  { destruct plin as [|a plin]; [congruence|].
    destruct bs as [|B bs]; [simpl in Hbs_len; lia | discriminate]. }
  destruct (add_components_from_zero _ _ _ Hzip_ne Hall Hfold)
    as (Pa & HPa & HPa_len & Hdot).
  cbn [snd] in HPa |- *. exists Pa.
  exists (map (fun row => dot row Pa) (rows_of K)).
  split; [exact HPa|]. split; [exact HPa_len|]. split.
  - unfold matvec. cbn [shape1 from_columns rows_of].
    assert (Hcols_len : length cols = length plin) by exact Hshape1.
    rewrite Hcols_len, Nat.eqb_refl. f_equal.
    rewrite map_map. apply list_eq. intros i.
    rewrite !lookup_map.
    unfold rows_match_shape in Hrows.
    destruct (rows_of K !! i) as [row|] eqn:Hrow.
    + pose proof (lookup_lt_Some _ _ _ Hrow) as Hi. rewrite Hrows in Hi.
      rewrite lookup_seq_lt by exact Hi. cbn [fmap option_fmap option_map plus].
      f_equal. rewrite Hdot. unfold dot at 1. f_equal.
      apply list_eq. intros j.
      rewrite lookup_zip_with, !lookup_map, lookup_zip_with.
      destruct (plin !! j) as [a|] eqn:Ha.
      * pose proof (lookup_lt_Some _ _ _ Ha) as Hj.
        destruct (Hcol j Hj) as (B & HB & _ & Hcj).
        rewrite Hcj, HB. simpl. f_equal.
        rewrite nth_lookup, lookup_map, Hrow. simpl. lra.
      * apply lookup_ge_None in Ha.
        rewrite (proj2 (lookup_ge_None cols j)) by lia. reflexivity.
    + apply lookup_ge_None in Hrow. rewrite Hrows in Hrow.
      rewrite lookup_seq_ge by exact Hrow. reflexivity.
  - unfold matvec. rewrite <- HPa_len, Nat.eqb_refl. reflexivity.
Qed.
End Separability.

(** Two components in the small world: the signal from the augmented kernel
    and the signal from the distribution. *)
Lemma signal_is_kernel_of_distribution_witness :
  exists M P Pa signal,
    nonlinmodel (L := Toy.libs) (fun _ => Ok Toy.identity2) 0 1 [1; 2]%R [5; 6]%R 2 = Ok M
    /\ Pmodel (L := Toy.libs) 0 1 [1; 2]%R [5; 6]%R [1; 2]%R = Ok P
    /\ rows_match_shape Toy.identity2
    /\ P = Array Pa
    /\ matvec M [1; 2]%R = Ok signal
    /\ matvec Toy.identity2 Pa = Ok signal.
Proof.
  eexists. eexists.
  match goal with
  | |- exists Pa signal, nonlinmodel ?Km ?nK ?np ?r ?par _ = Ok ?M /\ _ = Ok ?P /\ _ =>
      destruct (signal_is_kernel_of_distribution (L := Toy.libs) Km nK np r par
                  [1; 2]%R Toy.identity2 M P)
        as (Pa & signal & HP & _ & HM & HK)
  end.
  - reflexivity.
  - reflexivity.
  - discriminate.
  - reflexivity.
  - reflexivity.
  - exists Pa, signal. repeat split; assumption.
Defined.

(** ** What the containers hold after the loop *)

Section CandidateRecords.
Context {rng UQ gof : Type} {L : Libraries rng UQ gof}.
Variable Kmodel : list R -> pyresult matrix.
Variables nKparam nparam : nat.
Variable r : list R.
Variable V : list R.
Variable weights : R.
Variables lb0 ub0 lbK ubK : list xreal.

(** After the loop, for every number of components [N] in 1..maxModels the
    containers hold at position [N - 1]: a non-linear vector of at least
    [nKparam + N*nparam] entries and exactly [N] amplitudes; as fitted signal
    the augmented kernel of that vector applied to the amplitudes; as
    distribution [Pmodel] of the two; as bounds the kernel bounds followed by
    [N] copies of the shape bounds, ones and infinities. *)
Theorem candidate_records (maxModels : Z) (g : rng) (st : candidates rng) (N : nat) :
  fit_candidates Kmodel nKparam nparam r V weights lb0 ub0 lbK ubK maxModels g = Ok st ->
  (1 <= Z.of_nat N <= maxModels)%Z ->
  exists pnonlin plin Kfit signal distribution,
    pnonlin_ st !! (N - 1)%nat = Some pnonlin
    /\ plin_ st !! (N - 1)%nat = Some plin
    /\ (nKparam + N * nparam <= length pnonlin)%nat
    /\ length plin = N
    /\ nonlinmodel Kmodel nKparam nparam r pnonlin N = Ok Kfit
    /\ matvec Kfit plin = Ok signal
    /\ Vfit_ st !! (N - 1)%nat = Some signal
    /\ Pmodel nKparam nparam r pnonlin plin = Ok distribution
    /\ Pfit_ st !! (N - 1)%nat = Some distribution
    /\ nlin_lb_ st !! (N - 1)%nat = Some (lbK ++ repmat lb0 N)
    /\ nlin_ub_ st !! (N - 1)%nat = Some (ubK ++ repmat ub0 N)
    /\ lin_lb_ st !! (N - 1)%nat = Some (replicate N (Finite 1))
    /\ lin_ub_ st !! (N - 1)%nat = Some (replicate N PosInf).
Proof.
  intros Hloop HN.
  pose proof (fit_candidates_filled _ _ _ _ _ _ _ _ _ _ _ _ _ Hloop)
    as (_ & _ & _ & _ & _ & _ & _ & _ & _ & _ & Hold).
  destruct (Hold (N - 1)%nat ltac:(lia))
    as (par0 & fit & Kfit & signal & distribution & e
        & _ & _ & HK & Hsig & HP & _ & Hpn & Hpl & HV & HPf & Hnl & Hnu & Hll & Hlu & _).
  replace (S (N - 1)) with N in * by lia.
  exists fit.1, (np_div_scalar fit.2 scale), Kfit, signal, distribution.
  pose proof (nonlinmodel_reads _ _ _ _ _ _ _ HK) as Hlen.
  pose proof (nonlinmodel_shape1 _ _ _ _ _ _ _ HK) as Hs1.
  apply matvec_Ok in Hsig as Hsig'. destruct Hsig' as [Hs _].
  repeat split; try assumption. congruence.
Qed.
End CandidateRecords.

(** The records of a loop over three candidates in the small world. *)
Lemma candidate_records_witness :
  exists st plin,
    fit_candidates (L := Toy.libs) (fun _ => Ok Toy.identity2) 0 1 [1; 2]%R [1; 1]%R 1%R
      [Finite 0] [Finite 2] [] [] 3 0%nat = Ok st
    /\ (1 <= Z.of_nat 3 <= 3)%Z
    /\ plin_ st !! 2%nat = Some plin
    /\ length plin = 3%nat.
Proof.
  eexists.
  match goal with
  | |- exists plin, fit_candidates ?K ?nK ?np ?r ?V ?w ?l ?u ?lK ?uK ?m ?g = Ok ?st /\ _ =>
      destruct (candidate_records (L := Toy.libs) K nK np r V w l u lK uK m g st 3)
        as (pnonlin & plin & _ & _ & _ & _ & Hpl & _ & Hlen & _)
  end.
  - vm_compute. reflexivity.
  - lia.
  - exists plin. repeat split; try assumption; lia.
Defined.

(** ** Errors of the selection *)

Lemma for_each_invariant {A S} (P : S -> Prop) (body : S -> A -> pyresult S)
    (xs : list A) (s s' : S) :
  (forall s x s', P s -> body s x = Ok s' -> P s') ->
  P s -> for_each body xs s = Ok s' -> P s'.
Proof.
  intros Hstep. revert s. induction xs as [|x xs IH]; intros s Hs H; simpl in H.
  - injection H as <-. exact Hs.
  - bind_inv H. eapply IH; [|exact H]. eapply Hstep; eassumption.
Qed.

Lemma only_criteria_new_functionals : only_criteria new_functionals.
Proof.
  intros key Hkey. unfold new_functionals, criteria in *.
  rewrite !lookup_insert_ne by (intros <-; apply Hkey; set_solver).
  apply lookup_empty.
Qed.

Lemma dict_append_other (key key' : string) (x : R) (d d' : gmap string (list R)) :
  dict_append key x d = Ok d' -> key <> key' -> d' !! key' = d !! key'.
Proof.
  unfold dict_append. destruct (d !! key); [|discriminate].
  intros [= <-] Hne. apply lookup_insert_ne. exact Hne.
Qed.

Lemma logestimators_only_criteria w V Vfit plin pnonlin fs d' :
  logestimators w V Vfit plin pnonlin fs = Ok d' ->
  only_criteria (dict_of fs) -> only_criteria d'.
Proof.
  unfold logestimators. fold (dict_of fs). intros H Hd key Hkey.
  bind_inv H. bind_inv H. bind_inv H. bind_inv H. bind_inv H.
  injection H as <-.
  unfold criteria in Hkey.
  erewrite (dict_append_other "bic") by (eassumption || (intros <-; apply Hkey; set_solver)).
  erewrite (dict_append_other "aicc") by (eassumption || (intros <-; apply Hkey; set_solver)).
  erewrite (dict_append_other "aic") by (eassumption || (intros <-; apply Hkey; set_solver)).
  erewrite (dict_append_other "rmsd") by (eassumption || (intros <-; apply Hkey; set_solver)).
  apply Hd. exact Hkey.
Qed.

Section SelectionErrors.
Context {rng UQ gof : Type} {L : Libraries rng UQ gof}.

Lemma fit_candidates_only_criteria Kmodel nKparam nparam r V weights lb0 ub0 lbK ubK
    (maxModels : Z) (g : rng) (st : candidates rng) :
  fit_candidates Kmodel nKparam nparam r V weights lb0 ub0 lbK ubK maxModels g = Ok st ->
  only_criteria (dict_of (logest st)).
Proof.
  unfold fit_candidates.
  apply (for_each_invariant (fun st => only_criteria (dict_of (logest st)))).
  - intros s N s' Hs H.
    apply fit_candidate_Ok in H
      as (par0 & g0 & fit & Kfit & signal & distribution & last & d'
          & _ & _ & _ & _ & _ & _ & Hlog & ->).
    simpl. eapply logestimators_only_criteria; eassumption.
  - exact only_criteria_new_functionals.
Qed.

(** Neither [maxModels] nor [method] is validated before the loop.  With
    bounds that pass the checks, a call with [maxModels < 1] fits nothing and
    raises [TypeError] at [logest[method]], where [logest] is still the empty
    list; a call with [maxModels >= 1] and a [method] that is none of the four
    criteria raises [KeyError] there, after every candidate has been fitted. *)
Theorem selection_errors (a : fit_args) (nKparam : nat)
    (Kmodel : list R -> pyresult matrix) (g : rng)
    (nparam : nat) (lb0 ub0 : list xreal) :
  check_kernel_bounds (arg_lbK a) (arg_ubK a) nKparam = Ok tt ->
  model_bounds (arg_r a) (arg_lb a) (arg_ub a) = Ok (nparam, lb0, ub0) ->
  ((arg_maxModels a <= 0)%Z -> fit_with_kernel a nKparam Kmodel g = Raise TypeError)
  /\ (forall st,
        fit_candidates Kmodel nKparam nparam (arg_r a) (arg_V a) (arg_weights a)
          lb0 ub0 (arg_lbK a) (arg_ubK a) (arg_maxModels a) g = Ok st ->
        (1 <= arg_maxModels a)%Z ->
        arg_method a ∉ criteria ->
        fit_with_kernel a nKparam Kmodel g = Raise KeyError).
Proof.
  intros Hcheck Hbounds. split.
  - intros Hmax. unfold fit_with_kernel. rewrite Hcheck, Hbounds. bind_step.
    unfold fit_candidates. replace (Z.to_nat (arg_maxModels a)) with 0%nat by lia.
    reflexivity.
  - intros st Hloop Hmax Hmethod. unfold fit_with_kernel.
    rewrite Hcheck, Hbounds. bind_step. rewrite Hloop. bind_step.
    pose proof (fit_candidates_only_criteria _ _ _ _ _ _ _ _ _ _ _ _ _ Hloop) as Hkeys.
    pose proof (fit_candidates_filled _ _ _ _ _ _ _ _ _ _ _ _ _ Hloop)
      as (_ & _ & _ & _ & _ & _ & _ & _ & _ & Hdict & _).
    destruct Hdict as [d Hd]; [lia|].
    unfold select_model. rewrite Hd in *. simpl in Hkeys.
    unfold dict_get. rewrite (Hkeys _ Hmethod). reflexivity.
Qed.
End SelectionErrors.

(** A call for no component and a call for the criterion ["chi2"] in the
    small world. *)
Lemma selection_errors_witness :
  fit_with_kernel (L := Toy.libs) (Toy.args 0 false false) 0 (fun _ => Ok Toy.identity2) 0%nat
    = Raise TypeError
  /\ fit_with_kernel (L := Toy.libs)
       (Toy.args_by "chi2" 2 false false)
       0 (fun _ => Ok Toy.identity2) 0%nat
     = Raise KeyError.
Proof.
  split.
  - destruct (selection_errors (L := Toy.libs) (Toy.args 0 false false) 0
                (fun _ => Ok Toy.identity2) 0%nat 1 [Finite 0] [Finite 2]) as [H _].
    + vm_compute. reflexivity.
    + vm_compute. reflexivity.
    + apply H. simpl. lia.
  - destruct (selection_errors (L := Toy.libs)
                (Toy.args_by "chi2" 2 false false)
                0 (fun _ => Ok Toy.identity2) 0%nat 1 [Finite 0] [Finite 2]) as [_ H].
    + vm_compute. reflexivity.
    + vm_compute. reflexivity.
    + eapply H.
      * vm_compute. reflexivity.
      * simpl. lia.
      * unfold criteria. simpl. intros Hin.
        repeat (apply elem_of_cons in Hin as [Hin|Hin]; [discriminate|]).
        inversion Hin.
Defined.

(** ** A candidate that cannot be fitted *)

Section SolverFailure.
Context {rng UQ gof : Type} {L : Libraries rng UQ gof}.

Lemma fit_candidate_solver_raises Kmodel nKparam nparam r V weights lb0 ub0 lbK ubK
    (st : candidates rng) (g : rng) (N : nat) (par0 : list R) (e : exn) :
  (start_values lb0 ub0 lbK ubK g N).1 = Ok par0 ->
  snlls (map (fun v => v * scale)%R V)
    (fun par => nonlinmodel Kmodel nKparam nparam r par N) par0
    (nlin_lower lb0 lbK N) (nlin_upper ub0 ubK N)
    (replicate N (Finite 1)) (replicate N PosInf) = Raise e ->
  fit_candidate Kmodel nKparam nparam r V weights lb0 ub0 lbK ubK st N = Raise e.
Proof.
  intros Hstart Hsolver. unfold fit_candidate.
  rewrite (start_values_seeded lb0 ub0 lbK ubK (rng_state st) g).
  destruct (start_values lb0 ub0 lbK ubK g N) as [p0 g'] eqn:Hs.
  simpl in Hstart. subst p0. bind_step. rewrite Hsolver. reflexivity.
Qed.

(** No candidate is skipped: when the candidates with fewer than [N]
    components have been fitted and the solver raises for the candidate with
    [N <= maxModels] components, the call raises the exception of the
    solver, whatever the remaining candidates and the criterion are. *)
Theorem solver_failure_aborts (a : fit_args) (nKparam : nat)
    (Kmodel : list R -> pyresult matrix) (g : rng)
    (nparam : nat) (lb0 ub0 : list xreal)
    (N : nat) (st : candidates rng) (par0 : list R) (e : exn) :
  check_kernel_bounds (arg_lbK a) (arg_ubK a) nKparam = Ok tt ->
  model_bounds (arg_r a) (arg_lb a) (arg_ub a) = Ok (nparam, lb0, ub0) ->
  (1 <= Z.of_nat N <= arg_maxModels a)%Z ->
  fit_candidates Kmodel nKparam nparam (arg_r a) (arg_V a) (arg_weights a)
    lb0 ub0 (arg_lbK a) (arg_ubK a) (Z.of_nat N - 1) g = Ok st ->
  (start_values lb0 ub0 (arg_lbK a) (arg_ubK a) g N).1 = Ok par0 ->
  snlls (map (fun v => v * scale)%R (arg_V a))
    (fun par => nonlinmodel Kmodel nKparam nparam (arg_r a) par N) par0
    (nlin_lower lb0 (arg_lbK a) N) (nlin_upper ub0 (arg_ubK a) N)
    (replicate N (Finite 1)) (replicate N PosInf) = Raise e ->
  fit_with_kernel a nKparam Kmodel g = Raise e.
Proof.
  intros Hcheck Hbounds HN Hloop Hstart Hsolver.
  unfold fit_with_kernel. rewrite Hcheck, Hbounds. bind_step.
  unfold fit_candidates in *.
  replace (Z.to_nat (arg_maxModels a))
    with ((N - 1) + S (Z.to_nat (arg_maxModels a) - N))%nat by lia.
  rewrite seq_app, for_each_app.
  replace (Z.to_nat (Z.of_nat N - 1)) with (N - 1)%nat in Hloop by lia.
  rewrite Hloop. bind_step.
  replace (1 + (N - 1))%nat with N by lia.
  cbn [seq for_each].
  rewrite (fit_candidate_solver_raises _ _ _ _ _ _ _ _ _ _ st g N par0 e Hstart Hsolver).
  reflexivity.
Qed.
End SolverFailure.

(** A solver that gives up on two components, asked for up to three. *)
Lemma solver_failure_aborts_witness :
  fit_with_kernel (L := ToyFailing.libs) (Toy.args 3 false false) 0
    (fun _ => Ok Toy.identity2) 0%nat = Raise (LibraryError 2).
Proof.
  eapply (solver_failure_aborts (L := ToyFailing.libs) (Toy.args 3 false false) 0
            (fun _ => Ok Toy.identity2) 0%nat 1 [Finite 0] [Finite 2] 2).
  - vm_compute. reflexivity.
  - vm_compute. reflexivity.
  - simpl. lia.
  - vm_compute. reflexivity.
  - vm_compute. reflexivity.
  - reflexivity.
Defined.

(** ** A call without uncertainty analysis *)

Section WithoutUncertainty.
Context {rng UQ gof : Type} {L : Libraries rng UQ gof}.

(** With [uqanalysis=False] the call does not depend on [jacobianest],
    [hccm], [UncertQuant] or its methods: with any other functions in their
    place, also ones that raise, it gives the same outcome.  When it returns,
    both uncertainty outputs are the empty list and no uncertainty object has
    been made, also when [normP] is set. *)
Theorem without_uncertainty (fuel : nat) (a : fit_args) (g : rng)
    jacobianest' hccm' UncertQuant' propagate' class_ci' :
  arg_uqanalysis a = false ->
  fitmultimodel
    (L := with_uncertainty_libraries L jacobianest' hccm' UncertQuant' propagate' class_ci')
    fuel a g
  = fitmultimodel (L := L) fuel a g
  /\ forall res,
       fitmultimodel (L := L) fuel a g = Some (Ok res) ->
       res_Puq res = NoUq /\ res_paramuq res = NoUq /\ res_store res = [].
Proof.
  intros Huq. split.
  - unfold fitmultimodel.
    change (check_kernel
              (L := with_uncertainty_libraries L jacobianest' hccm' UncertQuant'
                      propagate' class_ci') fuel (arg_Kmodel a) g)
      with (check_kernel (L := L) fuel (arg_Kmodel a) g).
    destruct (check_kernel fuel (arg_Kmodel a) g) as [[[nKparam Kmodel] g']|];
      [|reflexivity].
    f_equal. unfold fit_with_kernel, uncertainty, renormalize. rewrite Huq.
    reflexivity.
  - intros res H. unfold fitmultimodel in H.
    destruct (check_kernel fuel (arg_Kmodel a) g) as [[[nKparam Kmodel] g']|];
      [|discriminate].
    injection H as H.
    apply fit_with_kernel_Ok in H
      as (nparam & lb0 & ub0 & st & s & h & Puq & paramuq & stats & Pfit & h'
          & _ & _ & _ & _ & Hu & _ & Hn & ->).
    rewrite Huq in Hu, Hn. apply uncertainty_Ok in Hu as (-> & -> & ->).
    unfold renormalize in Hn. simpl.
    destruct (arg_normP a).
    + bind_inv Hn. injection Hn as _ <-. auto.
    + injection Hn as _ <-. auto.
Qed.
End WithoutUncertainty.

(** The small world with uncertainty functions that always raise. *)
Lemma without_uncertainty_witness :
  exists res,
    fitmultimodel
      (L := with_uncertainty_libraries Toy.libs
              (fun _ _ => Raise (LibraryError 3)) (fun _ _ _ => Raise (LibraryError 3))
              (fun _ _ _ _ _ => Raise (LibraryError 3)) (fun _ _ _ => Raise (LibraryError 3))
              (fun _ _ => []))
      0 (Toy.args 1 true false) 0%nat = Some (Ok res)
    /\ res_Puq res = NoUq /\ res_store res = [].
Proof.
  destruct (without_uncertainty (L := Toy.libs) 0 (Toy.args 1 true false) 0%nat
              (fun _ _ => Raise (LibraryError 3)) (fun _ _ _ => Raise (LibraryError 3))
              (fun _ _ _ _ _ => Raise (LibraryError 3)) (fun _ _ _ => Raise (LibraryError 3))
              (fun _ _ => []) eq_refl) as [Hsame Hres].
  assert (exists res, fitmultimodel (L := Toy.libs) 0 (Toy.args 1 true false) 0%nat
                      = Some (Ok res)) as [res Hrun].
  { eexists. vm_compute. reflexivity. }
  exists res. destruct (Hres res Hrun) as (HP & _ & Hs).
  split; [|split; assumption]. rewrite Hsame. exact Hrun.
Defined.

(** ** Goodness of fit *)

Section GoodnessOfFit.
Context {rng UQ gof : Type} {L : Libraries rng UQ gof}.
Variables nKparam nparam : nat.
Variable V : list R.
Variable s : selection.

Local Abbreviation goodness_body :=
  (fun (stats : list gof) (subset : list nat) =>
     Vs ← take_idx V subset;
     Vfits ← take_idx (sel_Vfit s) subset;
     let Ndof := (len Vs - (Z.of_nat nKparam + Z.of_nat nparam
                            + Z.of_nat (sel_Nopt s)))%Z in
     g ← goodness_of_fit Vs Vfits Ndof;
     Ok (stats ++ [g])).

Lemma goodness_loop (Vsubsets : list (list nat)) (acc stats : list gof) :
  for_each goodness_body Vsubsets acc = Ok stats ->
  exists gs,
    stats = acc ++ gs
    /\ length gs = length Vsubsets
    /\ forall i subset,
         Vsubsets !! i = Some subset ->
         exists Vs Vfits g0,
           take_idx V subset = Ok Vs
           /\ take_idx (sel_Vfit s) subset = Ok Vfits
           /\ goodness_of_fit Vs Vfits
                (len subset - (Z.of_nat nKparam + Z.of_nat nparam
                               + Z.of_nat (sel_Nopt s)))%Z = Ok g0
           /\ gs !! i = Some g0.
Proof.
  revert acc. induction Vsubsets as [|subset rest IH]; intros acc H; simpl in H.
  - injection H as <-. exists []. rewrite app_nil_r.
    repeat split. intros i subset Hi. discriminate.
  - bind_inv H. bind_inv Hx. bind_inv Hx. bind_inv Hx. injection Hx as <-.
    destruct (IH _ H) as (gs & -> & Hlen & Hentries).
    exists (x2 :: gs). rewrite <- app_assoc. simpl.
    repeat split; [lia|].
    intros [|i] subset' Hi; simpl in Hi.
    + injection Hi as <-. exists x0, x1, x2.
      repeat split; try assumption.
      unfold len in *. rewrite <- (take_idx_length _ _ _ Hx0). assumption.
    + apply Hentries. exact Hi.
Qed.

(** The statistics of a call that returns: one record per subset of the
    signal, in the order of the subsets, each computed by [goodness_of_fit]
    from the signal and the selected fit at the indices of the subset, with
    the number of indices less [nKparam + nparam + Nopt] as degrees of
    freedom ([nparam] is counted once, whatever [Nopt] is).  Exactly one
    record is returned bare, any other number as a list. *)
Theorem goodness_records (Vsubsets : list (list nat)) (stats : stats_obj gof) :
  goodness nKparam nparam V Vsubsets s = Ok stats ->
  exists gs,
    length gs = length Vsubsets
    /\ stats = match gs with [one] => StatsOne one | _ => StatsList gs end
    /\ forall i subset,
         Vsubsets !! i = Some subset ->
         exists Vs Vfits g0,
           take_idx V subset = Ok Vs
           /\ take_idx (sel_Vfit s) subset = Ok Vfits
           /\ goodness_of_fit Vs Vfits
                (len subset - (Z.of_nat nKparam + Z.of_nat nparam
                               + Z.of_nat (sel_Nopt s)))%Z = Ok g0
           /\ gs !! i = Some g0.
Proof.
  unfold goodness. intros H. bind_inv H.
  destruct (goodness_loop _ _ _ Hx) as (gs & -> & Hlen & Hentries).
  simpl in H. exists gs. repeat split; try assumption.
  destruct gs as [|one [|two gs]]; injection H as <-; reflexivity.
Qed.

(** An index outside the signal in any subset makes the stage raise
    [IndexError], whatever the other subsets are. *)
Theorem goodness_index_error (before after : list (list nat)) (subset : list nat)
    (i : nat) :
  i ∈ subset -> (length V <= i)%nat ->
  is_ok (goodness nKparam nparam V before s) = true ->
  goodness nKparam nparam V (before ++ subset :: after) s = Raise IndexError.
Proof.
  intros Hin Hi Hbefore. apply is_ok_true in Hbefore as [stats0 Hbefore].
  unfold goodness in *. bind_inv Hbefore.
  rewrite for_each_app, Hx. bind_step. cbn [for_each].
  assert (take_idx V subset = Raise IndexError) as ->; [|reflexivity].
  clear -Hin Hi. unfold take_idx.
  induction subset as [|j subset IH]; [inversion Hin|].
  cbn [traverse]. destruct (list_index V j) as [y|e] eqn:Hj.
  - apply list_index_Ok in Hj.
    apply elem_of_cons in Hin as [->|Hin].
    + apply lookup_lt_Some in Hj. lia.
    + bind_step. rewrite (IH Hin). reflexivity.
  - unfold list_index in Hj. destruct (V !! j); [discriminate|].
    injection Hj as <-. reflexivity.
Qed.
End GoodnessOfFit.

(** One subset of two points, a fit with one component of one parameter. *)
Lemma goodness_records_witness :
  exists gs,
    goodness (L := Toy.libs) 0 1 [1; 1]%R [[0; 1]%nat]
      (mk_selection [] [] 0 1 (Scalar 0) [1; 1]%R [] [] [] [] [] [])
    = Ok (match gs with [one] => StatsOne one | _ => StatsList gs end)
    /\ gs !! 0%nat = Some 0%Z.
Proof.
  destruct (goodness_records (L := Toy.libs) 0 1 [1; 1]%R
              (mk_selection [] [] 0 1 (Scalar 0) [1; 1]%R [] [] [] [] [] [])
              [[0; 1]%nat] (StatsOne 0%Z) eq_refl)
    as (gs & Hlen & Hstats & Hentries).
  exists gs. split.
  - rewrite <- Hstats. reflexivity.
  - destruct (Hentries 0%nat [0; 1]%nat eq_refl) as (Vs & Vfits & g0 & _ & _ & Hg & Hgs).
    simpl in Hg. injection Hg as <-. exact Hgs.
Defined.

(** A second subset that reaches past a signal of two points. *)
Lemma goodness_index_error_witness :
  goodness (L := Toy.libs) 0 1 [1; 1]%R ([[0; 1]%nat] ++ [1; 2]%nat :: [])
    (mk_selection [] [] 0 1 (Scalar 0) [1; 1]%R [] [] [] [] [] [])
  = Raise IndexError.
Proof.
  apply (goodness_index_error (L := Toy.libs) 0 1 [1; 1]%R
           (mk_selection [] [] 0 1 (Scalar 0) [1; 1]%R [] [] [] [] [] [])
           [[0; 1]%nat] [] [1; 2]%nat 2).
  - set_solver.
  - simpl. lia.
  - reflexivity.
Defined.

(** ** The integral of the normalised distribution *)

Lemma zip_with_div_r (f : R -> R -> R) (c : R) (a b : list R) :
  (forall x y, f x (y / c) = f x y / c)%R ->
  zip_with f a (map (fun y => y / c)%R b) = map (fun y => y / c)%R (zip_with f a b).
Proof.
  intros Hf. revert b. induction a as [|x a IH]; intros [|y b]; simpl; try reflexivity.
  rewrite Hf, IH. reflexivity.
Qed.

Lemma broadcast2_mult_div (d s : list R) (c : R) :
  broadcast2 Rmult d (map (fun y => y / c)%R s)
  = map (fun y => y / c)%R <$> broadcast2 Rmult d s.
Proof.
  assert (Hf : forall x y : R, (x * (y / c) = x * y / c)%R)
    by (intros; unfold Rdiv; ring).
  unfold broadcast2. rewrite List.length_map.
  destruct (length d =? length s)%nat.
  - simpl. f_equal. apply zip_with_div_r. exact Hf.
  - destruct d as [|d0 [|d1 d]], s as [|s0 [|s1 s]];
      cbn [map fmap pyresult_fmap length]; try reflexivity.
    + rewrite Hf. reflexivity.
    + rewrite !Hf, !map_map. do 3 f_equal. apply map_ext. intros. apply Hf.
    + rewrite !Hf, !map_map. do 3 f_equal. apply map_ext. intros.
      unfold Rdiv. ring.
Qed.

Lemma np_trapz_div (ys r : list R) (c t : R) :
  np_trapz (Array ys) r = Ok t ->
  np_trapz (Array (np_div_scalar ys c)) r = Ok (t / c)%R.
Proof.
  unfold np_trapz. intros H. bind_inv H. injection H as <-.
  unfold np_div_scalar. rewrite List.length_map.
  rewrite !skipn_map, !firstn_map.
  assert (Hs : forall a b : list R,
             zip_with Rplus (map (fun y => y / c)%R a) (map (fun y => y / c)%R b)
             = map (fun y => y / c)%R (zip_with Rplus a b)).
  { induction a as [|p a IH]; intros [|q b]; simpl; try reflexivity.
    rewrite IH. f_equal. unfold Rdiv. ring. }
  rewrite Hs, broadcast2_mult_div, Hx. bind_step. f_equal.
  rewrite map_map. unfold np_sum. clear Hx Hs.
  induction x as [|y x IH]; cbn [map fold_right].
  - unfold Rdiv. ring.
  - rewrite IH. unfold Rdiv. ring.
Qed.

Section UnitIntegral.
Context {UQ : Type}.

(** With [normP=True] the returned distribution integrates to one: when
    the stage returns, the trapezoidal integral [Pnorm] of the fitted
    distribution over [r] exists, and unless it is zero the trapezoidal
    integral of the returned distribution over [r] is 1. *)
Theorem normalised_integral (uqanalysis : bool) (r : list R) (Pfit P' : ndarray)
    (Puq : uq_ref) (h h' : list (uq_object UQ)) :
  renormalize true uqanalysis r Pfit Puq h = Ok (P', h') ->
  exists Pnorm,
    np_trapz Pfit r = Ok Pnorm
    /\ P' = nd_div_scalar Pfit Pnorm
    /\ (Pnorm <> 0%R -> np_trapz P' r = Ok 1%R).
Proof.
  unfold renormalize. intros H. bind_inv H. rename x into Pnorm.
  assert (HP : P' = nd_div_scalar Pfit Pnorm).
  { destruct uqanalysis.
    - destruct Puq as [|a]; [discriminate|].
      bind_inv H. destruct x as [h1 Puq_]. bind_inv H. injection H as <- _. reflexivity.
    - injection H as <- _. reflexivity. }
  exists Pnorm. repeat split; try assumption.
  intros Hnz. subst P'. destruct Pfit as [x|ys]; [discriminate|].
  cbn [nd_div_scalar]. rewrite (np_trapz_div _ _ Pnorm _ Hx). f_equal. field. exact Hnz.
Qed.
End UnitIntegral.

(** A distribution with the values 1 and 3 on the axis 1, 2. *)
Lemma normalised_integral_witness :
  np_trapz (Array [1; 3]%R) [1; 2]%R = Ok ((2 - 1) * (3 + 1) / 2 + 0)%R
  /\ np_trapz (nd_div_scalar (Array [1; 3]%R) ((2 - 1) * (3 + 1) / 2 + 0)%R) [1; 2]%R
     = Ok 1%R.
Proof.
  destruct (normalised_integral (UQ := Toy.UQ) false [1; 2]%R (Array [1; 3]%R)
              (nd_div_scalar (Array [1; 3]%R) ((2 - 1) * (3 + 1) / 2 + 0)%R)
              NoUq [] [] eq_refl) as (Pnorm & HPnorm & _ & Hone).
  split; [reflexivity|].
  apply Hone. injection HPnorm as <-. lra.
Defined.

(** ** The state the call leaves the generator in *)

Lemma repmat_length {A} (b : list A) (n : nat) :
  length (repmat b n) = (n * length b)%nat.
Proof.
  unfold repmat. induction n as [|n IH]; simpl; [reflexivity|].
  rewrite length_app, IH. reflexivity.
Qed.

Section GeneratorState.
Context {rng UQ gof : Type} {L : Libraries rng UQ gof}.

Lemma np_random_uniform_state (g g' : rng) (size : nat) (low high : list xreal)
    (v : list R) :
  np_random_uniform g size low high = (Ok v, g') ->
  g' = (random_sample g size).2.
Proof.
  unfold np_random_uniform.
  destruct (broadcast2 finite_range low high) as [ranges|e]; [|discriminate].
  destruct (all_some ranges) as [lr|]; [|discriminate].
  destruct (_ || _); [|discriminate].
  destruct (random_sample g size) as [u g1]. intros [= _ <-]. reflexivity.
Qed.

Lemma fit_candidate_state Kmodel nKparam nparam r V weights lb0 ub0 lbK ubK
    (st st' : candidates rng) (N : nat) :
  fit_candidate Kmodel nKparam nparam r V weights lb0 ub0 lbK ubK st N = Ok st' ->
  rng_state st'
  = (random_sample (np_random_seed 1) (length lbK + N * length lb0)).2.
Proof.
  intros H. apply fit_candidate_Ok in H
    as (par0 & g & fit & Kfit & signal & distribution & last & d'
        & Hstart & _ & _ & _ & _ & _ & _ & ->).
  simpl. unfold start_values in Hstart.
  apply np_random_uniform_state in Hstart. subst g.
  unfold nlin_lower. rewrite length_app, repmat_length. reflexivity.
Qed.

(** A call that returns has fitted at least one candidate and leaves the
    global generator in the state that follows [np.random.seed(1)] and one
    draw of [len(lbK) + maxModels*len(lb0)] numbers: the state it was in
    before the call, and the draws of the arity loop, are lost. *)
Theorem generator_left_seeded (fuel : nat) (a : fit_args) (g : rng)
    (res : fit_result UQ gof rng) :
  fitmultimodel fuel a g = Some (Ok res) ->
  (1 <= arg_maxModels a)%Z
  /\ exists nparam lb0 ub0,
       model_bounds (arg_r a) (arg_lb a) (arg_ub a) = Ok (nparam, lb0, ub0)
       /\ res_rng res
          = (random_sample (np_random_seed 1)
               (length (arg_lbK a) + Z.to_nat (arg_maxModels a) * length lb0)).2.
Proof.
  unfold fitmultimodel. intros H.
  destruct (check_kernel fuel (arg_Kmodel a) g) as [[[nKparam Kmodel] g']|];
    [|discriminate].
  injection H as H.
  assert (Hmax : (1 <= arg_maxModels a)%Z).
  { destruct (Z_le_gt_dec 1 (arg_maxModels a)) as [|Hlt]; [assumption|].
    apply fit_with_kernel_Ok in H
      as (nparam & lb0 & ub0 & st & s & h & Puq & paramuq & stats & Pfit & h'
          & _ & _ & Hloop & Hsel & _).
    unfold fit_candidates in Hloop.
    replace (Z.to_nat (arg_maxModels a)) with 0%nat in Hloop by lia.
    injection Hloop as <-. discriminate. }
  split; [exact Hmax|].
  apply fit_with_kernel_Ok in H
    as (nparam & lb0 & ub0 & st & s & h & Puq & paramuq & stats & Pfit & h'
        & _ & Hbounds & Hloop & _ & _ & _ & _ & ->).
  exists nparam, lb0, ub0. split; [exact Hbounds|]. simpl.
  unfold fit_candidates in Hloop.
  destruct (Z.to_nat (arg_maxModels a)) as [|m] eqn:Em; [lia|].
  replace (S m) with (m + 1)%nat in Hloop by lia.
  rewrite seq_app, for_each_app in Hloop. bind_inv Hloop.
  cbn [seq for_each] in Hloop. bind_inv Hloop. injection Hloop as <-.
  rewrite (fit_candidate_state _ _ _ _ _ _ _ _ _ _ _ _ _ Hx0).
  reflexivity.
Qed.
End GeneratorState.

(** A call for one candidate in the small world, from the state 7: the
    generator ends in the state after the seed 1 and one draw. *)
Lemma generator_left_seeded_witness :
  exists res,
    Toy.run 0 (Toy.args 1 false false) 7%nat = Some (Ok res)
    /\ res_rng res = 2%nat.
Proof.
  assert (exists res, Toy.run 0 (Toy.args 1 false false) 7%nat = Some (Ok res))
    as [res Hrun].
  { eexists. vm_compute. reflexivity. }
  exists res. split; [exact Hrun|].
  destruct (generator_left_seeded (L := Toy.libs) 0 (Toy.args 1 false false) 7%nat res Hrun)
    as (_ & nparam & lb0 & ub0 & Hb & ->).
  reflexivity.
Defined.

(** ** Bounds without end *)

Lemma all_some_None {A} (l : list (option A)) (i : nat) :
  l !! i = Some None -> all_some l = None.
Proof.
  revert i. induction l as [|[x|] l IH]; intros [|i] H; simpl in *;
    try discriminate; try reflexivity.
  rewrite (IH i H). reflexivity.
Qed.

Section UnboundedParameters.
Context {rng UQ gof : Type} {L : Libraries rng UQ gof}.

Lemma np_random_uniform_overflow (g : rng) (size : nat) (low high : list xreal)
    (i : nat) (lo hi : xreal) :
  length low = length high ->
  low !! i = Some lo -> high !! i = Some hi ->
  finite_range lo hi = None ->
  np_random_uniform g size low high = (Raise OverflowError, g).
Proof.
  intros Hlen Hlo Hhi Hrange. unfold np_random_uniform, broadcast2.
  rewrite Hlen, Nat.eqb_refl.
  rewrite (all_some_None _ i); [reflexivity|].
  rewrite lookup_zip_with, Hlo. simpl. rewrite Hhi. simpl. rewrite Hrange. reflexivity.
Qed.

Lemma fit_candidate_start_raises Kmodel nKparam nparam r V weights lb0 ub0 lbK ubK
    (st : candidates rng) (N : nat) (e : exn) :
  (start_values lb0 ub0 lbK ubK (rng_state st) N).1 = Raise e ->
  fit_candidate Kmodel nKparam nparam r V weights lb0 ub0 lbK ubK st N = Raise e.
Proof.
  intros Hstart. unfold fit_candidate.
  destruct (start_values lb0 ub0 lbK ubK (rng_state st) N) as [p0 g'].
  simpl in Hstart. subst p0. reflexivity.
Qed.

(** The start values cannot be drawn between bounds one of which is
    infinite.  With kernel and shape bounds that pass the checks and as many
    lower as upper bounds for the first candidate, a call with
    [maxModels >= 1] raises [OverflowError] at the first draw if one of these
    pairs of bounds has an infinite member; the solver is never called. *)
Theorem unbounded_parameter_overflow (a : fit_args) (nKparam : nat)
    (Kmodel : list R -> pyresult matrix) (g : rng)
    (nparam : nat) (lb0 ub0 : list xreal) (i : nat) (lo hi : xreal) :
  check_kernel_bounds (arg_lbK a) (arg_ubK a) nKparam = Ok tt ->
  model_bounds (arg_r a) (arg_lb a) (arg_ub a) = Ok (nparam, lb0, ub0) ->
  (1 <= arg_maxModels a)%Z ->
  length (nlin_lower lb0 (arg_lbK a) 1) = length (nlin_upper ub0 (arg_ubK a) 1) ->
  nlin_lower lb0 (arg_lbK a) 1 !! i = Some lo ->
  nlin_upper ub0 (arg_ubK a) 1 !! i = Some hi ->
  finite_range lo hi = None ->
  fit_with_kernel a nKparam Kmodel g = Raise OverflowError.
Proof.
  intros Hcheck Hbounds Hmax Hlen Hlo Hhi Hrange.
  unfold fit_with_kernel. rewrite Hcheck, Hbounds. bind_step.
  unfold fit_candidates.
  destruct (Z.to_nat (arg_maxModels a)) as [|m] eqn:Em; [lia|].
  cbn [seq for_each].
  rewrite (fit_candidate_start_raises _ _ _ _ _ _ _ _ _ _ _ _ OverflowError);
    [reflexivity|].
  unfold start_values.
  rewrite (np_random_uniform_overflow _ _ _ _ i lo hi Hlen Hlo Hhi Hrange).
  reflexivity.
Qed.
End UnboundedParameters.

(** A basis function whose width has the default bounds 0 and infinity. *)
Lemma unbounded_parameter_overflow_witness :
  fit_with_kernel (L := ToyUnbounded.libs) (Toy.args 1 false false) 0
    (fun _ => Ok Toy.identity2) 0%nat = Raise OverflowError.
Proof.
  apply (unbounded_parameter_overflow (L := ToyUnbounded.libs) (Toy.args 1 false false) 0
           (fun _ => Ok Toy.identity2) 0%nat 1 [Finite 0] [PosInf] 0 (Finite 0) PosInf).
  - vm_compute. reflexivity.
  - vm_compute. reflexivity.
  - simpl. lia.
  - reflexivity.
  - reflexivity.
  - reflexivity.
  - reflexivity.
Defined.

(** ** The noise generator *)

Lemma np_sum_scale_r (l : list R) (c : R) :
  np_sum (map (fun x => x * c)%R l) = (np_sum l * c)%R.
Proof.
  unfold np_sum. induction l as [|x l IH]; cbn [map fold_right]; [ring|].
  rewrite IH. ring.
Qed.

Lemma np_mean_scale_r (l : list R) (c : R) :
  Noise.np_mean (map (fun x => x * c)%R l) = (Noise.np_mean l * c)%R.
Proof.
  unfold Noise.np_mean. rewrite np_sum_scale_r, List.length_map. unfold Rdiv. ring.
Qed.

(** Scaling the data by a factor that is not negative scales the sample
    deviation by it. *)
Lemma np_std_scale_r (l : list R) (c : R) :
  (0 <= c)%R -> Noise.np_std (map (fun x => x * c)%R l) = (c * Noise.np_std l)%R.
Proof.
  intros Hc. unfold Noise.np_std. rewrite np_mean_scale_r, map_map.
  rewrite (map_ext (fun x => (x * c - Noise.np_mean l * c) ^ 2)%R
             (fun x => (x - Noise.np_mean l) ^ 2 * (c * c))%R) by (intros; ring).
  rewrite <- (map_map (fun x => (x - Noise.np_mean l) ^ 2)%R (fun y => y * (c * c))%R).
  rewrite np_mean_scale_r, Rmult_comm.
  rewrite sqrt_mult_alt by nra.
  rewrite sqrt_square by exact Hc. reflexivity.
Qed.

Lemma np_std_nonneg (l : list R) : (0 <= Noise.np_std l)%R.
Proof. apply sqrt_pos. Qed.

Section Rescaling.
Context {rng : Type} {G : Noise.Generator rng}.

(** With [rescale=True] the sample deviation of the noise is exactly [std].
    When the call returns an array of numbers, the array has as many entries
    as the time axis (one for a scalar [t]), [std] is not negative, and
    unless the array is empty [np.std] of it equals [std], whatever the
    generator has drawn and whether or not it was seeded. *)
Theorem whitegaussnoise_rescaled (t : Noise.array_like) (std : R) (seed : option Z)
    (g g' : rng) (noise : list R) :
  Noise.sized_draws G ->
  Noise.whitegaussnoise t std true seed g = (Ok (Some noise), g') ->
  length noise = length (Noise.np_atleast_1d t)
  /\ (0 <= std)%R
  /\ (noise <> [] -> Noise.np_std noise = std).
Proof.
  intros Hsized. unfold Noise.whitegaussnoise, Noise.np_random_normal.
  destruct (Noise.seed_generator seed g) as [g0|e]; [|discriminate].
  destruct (Rltb std 0) eqn:Hstd; [discriminate|].
  apply Rltb_false in Hstd.
  pose proof (Hsized g0 (length (Noise.np_atleast_1d t))) as Hlen.
  destruct (Noise.standard_normal g0 (length (Noise.np_atleast_1d t))) as [z g1].
  cbn [fst] in Hlen. bind_step.
  destruct (map (fun x => (0 + std * x)%R) z) as [|x0 raw] eqn:Hraw.
  - intros [= <- _]. apply (f_equal length) in Hraw.
    rewrite List.length_map in Hraw. simpl in *. repeat split; [lia | assumption | ].
    intros Hne. contradiction.
  - destruct (Req_dec_T (Noise.np_std (x0 :: raw)) 0) as [|Hnz]; [discriminate|].
    intros H.
    assert (noise = map (fun x => (x * (std / Noise.np_std (x0 :: raw)))%R) (x0 :: raw))
      as -> by congruence.
    clear H. rewrite List.length_map.
    apply (f_equal length) in Hraw. rewrite List.length_map in Hraw.
    repeat split; [lia | assumption | ].
    intros _.
    pose proof (np_std_nonneg (x0 :: raw)) as Hpos.
    rewrite np_std_scale_r.
    + field. exact Hnz.
    + unfold Rdiv. apply Rmult_le_pos; [exact Hstd|].
      left. apply Rinv_0_lt_compat. lra.
Qed.
End Rescaling.

(** Two points of noise at level 2, drawn after the seed 0 from the
    generator that alternates. *)
Lemma whitegaussnoise_rescaled_witness :
  Noise.sized_draws Noise.alternating
  /\ exists noise,
       (Noise.whitegaussnoise (G := Noise.alternating)
          (Noise.Sequence [0; 1]%R) 2 true (Some 0%Z) 5%nat).1 = Ok (Some noise)
       /\ Noise.np_std noise = 2%R.
Proof.
  assert (Hsized : Noise.sized_draws Noise.alternating).
  { intros g n. cbn [Noise.standard_normal Noise.alternating fst].
    rewrite List.length_map. apply length_seq. }
  split; [exact Hsized|].
  assert (Hlevel : Rltb 2 0 = false) by (apply Rltb_false; lra).
  assert (Hrun : exists noise g',
             Noise.whitegaussnoise (G := Noise.alternating)
               (Noise.Sequence [0; 1]%R) 2 true (Some 0%Z) 5%nat
             = (Ok (Some noise), g')).
  { unfold Noise.whitegaussnoise, Noise.seed_generator, Noise.np_random_normal.
    change (Noise.valid_seed 0) with true. cbv iota. rewrite Hlevel.
    cbn [Noise.np_atleast_1d length Noise.standard_normal Noise.alternating
         Noise.np_random_seed Z.to_nat seq map Nat.even
         mbind pyresult_bind].
    destruct (Req_dec_T _ 0) as [E|_]; [|eauto].
    exfalso. unfold Noise.np_std in E. apply sqrt_eq_0 in E.
    - unfold Noise.np_mean, np_sum in E. simpl in E. lra.
    - unfold Noise.np_mean, np_sum. simpl. lra. }
  destruct Hrun as (noise & g' & Hrun).
  exists noise. rewrite Hrun. split; [reflexivity|].
  destruct (whitegaussnoise_rescaled (G := Noise.alternating)
              _ _ _ _ _ _ Hsized Hrun) as (Hlen & _ & Hstd).
  apply Hstd. intros ->. discriminate.
Defined.

Section SinglePoint.
Context {rng : Type} {G : Noise.Generator rng}.

(** One point of noise cannot be rescaled: for a scalar [t] or a time axis
    with one point, a level that is not negative and no seed or a seed that
    [np.random.seed] accepts, the sample deviation of the draw is zero, and
    with [rescale=True] the call returns [inf] or [nan] in place of a
    number, whatever the level and the draw are.  A seed outside
    [0 .. 2**32 - 1] makes the call raise [ValueError] before anything is
    drawn. *)
Theorem whitegaussnoise_single_point (t : Noise.array_like) (std : R)
    (seed : option Z) (g : rng) :
  Noise.sized_draws G ->
  length (Noise.np_atleast_1d t) = 1%nat ->
  (0 <= std)%R ->
  (Noise.seed_accepted seed ->
   (Noise.whitegaussnoise t std true seed g).1 = Ok None)
  /\ (~ Noise.seed_accepted seed ->
      Noise.whitegaussnoise t std true seed g = (Raise ValueError, g)).
Proof.
  intros Hsized Hone Hstd. split.
  - intros Hseed. unfold Noise.whitegaussnoise, Noise.np_random_normal.
    assert (exists g0, Noise.seed_generator seed g = Ok g0) as [g0 ->].
    { unfold Noise.seed_generator. destruct seed as [k|]; [|eauto].
      simpl in Hseed. rewrite Hseed. eauto. }
    rewrite (proj2 (Rltb_false std 0) Hstd), Hone.
    pose proof (Hsized g0 1%nat) as Hlen.
    destruct (Noise.standard_normal g0 1) as [z g1]. cbn [fst] in Hlen.
    destruct z as [|x [|y z]]; try discriminate.
    cbn [map fst mbind pyresult_bind].
    destruct (Req_dec_T _ 0) as [_|Hnz]; [reflexivity|].
    exfalso. apply Hnz. unfold Noise.np_std, Noise.np_mean, np_sum.
    cbn [map fold_right length INR].
    replace ((0 + std * x - (0 + std * x + 0) / 1) ^ 2 + 0)%R with 0%R by (field; lra).
    unfold Rdiv. rewrite Rmult_0_l. apply sqrt_0.
  - intros Hseed. unfold Noise.whitegaussnoise, Noise.seed_generator.
    destruct seed as [k|]; [|exfalso; apply Hseed; exact I].
    simpl in Hseed. destruct (Noise.valid_seed k); [|reflexivity].
    exfalso. apply Hseed. reflexivity.
Qed.
End SinglePoint.

(** A scalar time and the level 2, with the seed 137 and with the seed -1. *)
Lemma whitegaussnoise_single_point_witness :
  (Noise.whitegaussnoise (G := Noise.alternating) (Noise.Number 0) 2 true
     (Some 137%Z) 5%nat).1 = Ok None
  /\ Noise.whitegaussnoise (G := Noise.alternating) (Noise.Number 0) 2 true
       (Some (-1)%Z) 5%nat = (Raise ValueError, 5%nat).
Proof.
  destruct (whitegaussnoise_single_point (G := Noise.alternating) (Noise.Number 0) 2
              (Some 137%Z) 5%nat) as [Hok _].
  { intros g n. cbn [Noise.standard_normal Noise.alternating fst].
    rewrite List.length_map. apply length_seq. }
  { reflexivity. }
  { lra. }
  destruct (whitegaussnoise_single_point (G := Noise.alternating) (Noise.Number 0) 2
              (Some (-1)%Z) 5%nat) as [_ Hraise].
  { intros g n. cbn [Noise.standard_normal Noise.alternating fst].
    rewrite List.length_map. apply length_seq. }
  { reflexivity. }
  { lra. }
  split.
  - apply Hok. reflexivity.
  - apply Hraise. intros H. discriminate H.
Defined.

(** ** The function handed to the propagation of uncertainty *)

Section Propagation.
Context {rng UQ gof : Type} {L : Libraries rng UQ gof}.
Variable Kmodel : list R -> pyresult matrix.
Variables nKparam nparam : nat.
Variable r : list R.
Variable V : list R.
Variable weights : R.

(** When the uncertainty analysis returns, the parameter object was built
    for the vector [pnonlin ++ plin] with the bounds in the same order, and
    the distribution object was propagated from it, with a lower bound of
    [len(r)] zeros, through a function that undoes the concatenation: given
    [nKparam + nparam*Nopt] non-linear parameters followed by [Nopt]
    amplitudes it returns [Pmodel] of the two parts.  Both objects are new in
    the store and keep the method [ci] of their class. *)
Theorem propagated_function_splits (s : selection) (h0 h : list (uq_object UQ))
    (Puq paramuq : uq_ref) :
  uncertainty Kmodel nKparam nparam r V weights true s h0 = Ok (h, Puq, paramuq) ->
  exists covmatrix u pu F,
    UncertQuant "covariance" (sel_pnonlin s ++ sel_plin s) covmatrix
      (sel_nlin_lb s ++ sel_lin_lb s) (sel_nlin_ub s ++ sel_lin_ub s) = Ok u
    /\ propagate u F (replicate (length r) 0%R) = Ok pu
    /\ (forall nl amps,
          length nl = (nKparam + nparam * sel_Nopt s)%nat ->
          length amps = sel_Nopt s ->
          F (nl ++ amps) = Pmodel nKparam nparam r nl amps)
    /\ h = h0 ++ [mk_uq_object u ClassMethod; mk_uq_object pu ClassMethod]
    /\ paramuq = UqAt (length h0)
    /\ Puq = UqAt (S (length h0)).
Proof.
  unfold uncertainty. intros H.
  bind_inv H. bind_inv H. bind_inv H. bind_inv H. bind_inv H. bind_inv H.
  unfold allocate in H. bind_inv H. bind_inv H. injection H as <- <- <-.
  rename x4 into u, x5 into P_last, x6 into pu.
  exists x3, u, pu. eexists. split; [exact Hx4|]. split; [exact Hx6|].
  split; [|split; [|split]].
  - intros nl amps Hnl Hamps.
    assert (HP : P_last = (nKparam + nparam * sel_Nopt s - 1)%nat
                 /\ (0 < nKparam + nparam * sel_Nopt s)%nat).
    { unfold np_arange in Hx5.
      destruct (nKparam + nparam * sel_Nopt s)%nat as [|n] eqn:En; [discriminate|].
      rewrite seq_S, last_snoc in Hx5. injection Hx5 as <-. split; lia. }
    destruct HP as [-> Hpos].
    replace (nKparam + nparam * sel_Nopt s - 1 + 1)%nat with (length nl) by lia.
    rewrite <- Hnl, <- Hamps.
    rewrite !take_idx_arange by (rewrite length_app; lia). bind_step.
    rewrite drop_0, take_app_length, drop_app_length, take_ge by lia.
    reflexivity.
  - rewrite <- app_assoc. reflexivity.
  - reflexivity.
  - rewrite length_app. simpl. f_equal. lia.
Qed.
End Propagation.

(** The uncertainty of a fit with one component in the small world. *)
Lemma propagated_function_splits_witness :
  exists h Puq paramuq,
    uncertainty (L := Toy.libs) (fun _ => Ok Toy.identity2) 0 1 [1; 2]%R [1; 1]%R 1%R true
      (mk_selection [] [] 0 1 (Array [1; 1]%R) [1; 1]%R [1]%R [1]%R
         [Finite 0] [Finite 2] [Finite 1] [PosInf]) []
    = Ok (h, Puq, paramuq)
    /\ length h = 2%nat /\ Puq = UqAt 1.
Proof.
  assert (exists h Puq paramuq,
             uncertainty (L := Toy.libs) (fun _ => Ok Toy.identity2) 0 1 [1; 2]%R [1; 1]%R
               1%R true
               (mk_selection [] [] 0 1 (Array [1; 1]%R) [1; 1]%R [1]%R [1]%R
                  [Finite 0] [Finite 2] [Finite 1] [PosInf]) []
             = Ok (h, Puq, paramuq)) as (h & Puq & paramuq & Hrun).
  { do 3 eexists. vm_compute. reflexivity. }
  exists h, Puq, paramuq. split; [exact Hrun|].
  destruct (propagated_function_splits (L := Toy.libs) _ _ _ _ _ _ _ _ _ _ _ Hrun)
    as (covmatrix & u & pu & F & _ & _ & _ & -> & _ & ->).
  split; reflexivity.
Defined.
